(** * react-leaflet: the lifecycle-synchronisation core

    A shallow embedding of the hooks, updaters and component factories of
    [@react-leaflet/core] and of the [Pane], [Circle] and [MapContainer]
    components.  Hook cells ([useRef], [useState], [useMemo]) and
    effect slots ([useEffect]) are explicit state; one activation of a hook
    is its render body followed by the commit of its effects.  Calls into
    the Leaflet backend and into user callbacks are recorded in a call log,
    the way a test spy would record them. *)

From Stdlib Require Import Ascii String ZArith.
From stdpp Require Import base option list strings gmap.

Set Default Proof Using "Type".

(** ** JavaScript values *)

(** Identity of a JavaScript object: [===] on objects compares these. *)
Abbreviation objref := nat.

(** A value that may be [undefined] or [null]; [x != null] is [is_val]. *)
Inductive nullable (A : Type) : Type :=
  | Undefined
  | Null
  | Val (a : A).
Arguments Undefined {A}.
Arguments Null {A}.
Arguments Val {A} a.

#[global] Instance nullable_eq_dec `{EqDecision A} : EqDecision (nullable A).
Proof. solve_decision. Defined.

Definition is_val {A} (x : nullable A) : bool :=
  match x with Val _ => true | _ => false end.

(** [x ?? y] *)
Definition nullish {A} (x y : nullable A) : nullable A :=
  match x with Val _ => x | _ => y end.

(** ** The hook primitives of React this code relies on *)
Module React.

(** An effect slot after its function ran: the dependency array it ran
    with and the destroy function it returned (if any). *)
Record effect (D S : Type) : Type :=
  Effect { deps : D; destroy : option (S → S) }.
Arguments Effect {D S} deps destroy.
Arguments deps {D S} e.
Arguments destroy {D S} e.

Section hooks.
Context {D S : Type} `{EqDecision D}.

(** An effect is due on mount and whenever a dependency changed. *)
Definition deps_changed (slot : option (effect D S)) (d : D) : bool :=
  match slot with
  | None => true
  | Some e => bool_decide (deps e ≠ d)
  end.

(** Run the destroy function stored in a slot. *)
Definition run_destroy (slot : option (effect D S)) (s : S) : S :=
  match slot with
  | Some (Effect _ (Some f)) => f s
  | _ => s
  end.

(** Commit, first half: destroy the previous run of a due effect. *)
Definition commit_destroy (slot : option (effect D S)) (d : D) (s : S) : S :=
  if deps_changed slot d then run_destroy slot s else s.

(** Commit, second half: run a due effect and keep what it returned. *)
Definition commit_create (slot : option (effect D S)) (d : D)
    (create : S → S * option (S → S)) (s : S) : option (effect D S) * S :=
  if deps_changed slot d
  then let '(s', f) := create s in (Some (Effect d f), s')
  else (slot, s).

(** A hook with a single effect. *)
Definition useEffect (slot : option (effect D S)) (d : D)
    (create : S → S * option (S → S)) (s : S) : option (effect D S) * S :=
  commit_create slot d create (commit_destroy slot d s).
End hooks.

(** [useRef(init).current]: the initial value only counts on first render. *)
Definition useRef {A} (cell : option A) (init : A) : A := default init cell.

(** [useState(init)[0]] of a state whose setter is never called. *)
Definition useState {A} (cell : option A) (init : A) : A := default init cell.

End React.

(** ** context.ts *)

Definition CONTEXT_VERSION : nat := 1.

(** [LeafletContextInterface]; [ctx_ref] is the identity of the (frozen)
    context object, the other fields are its properties. *)
Record LeafletContextInterface : Type := {
  ctx_ref : objref;
  __version : nat;
  map : objref;
  layerContainer : option objref;
  layersControl : option objref;
  overlayContainer : option objref;
  pane : nullable string;
}.

#[global] Instance LeafletContextInterface_eq_dec : EqDecision LeafletContextInterface.
Proof. solve_decision. Defined.

(** [useLeafletContext]: the ambient context, or the usage error. *)
Inductive result (A : Type) : Type :=
  | Ok (a : A)
  | Throw (msg : string).
Arguments Ok {A} a.
Arguments Throw {A} msg.

Definition useLeafletContext (ambient : option LeafletContextInterface)
    : result LeafletContextInterface :=
  match ambient with
  | Some context => Ok context
  | None =>
      Throw "No context provided: useLeafletContext() can only be used in a descendant of <MapContainer>"
  end.

(** ** element.ts (src/unnamed/part_004) *)

(** [LeafletElement]; [el_ref] is the identity of the (frozen) element
    object, the other fields are its properties. *)
Record LeafletElement (E : Type) : Type := {
  el_ref : objref;
  instance : E;
  context : LeafletContextInterface;
  container : nullable objref;
}.
Arguments el_ref {E} l.
Arguments instance {E} l.
Arguments context {E} l.
Arguments container {E} l.

#[global] Instance LeafletElement_eq_dec `{EqDecision E} :
  EqDecision (LeafletElement E).
Proof. solve_decision. Defined.

(** [createElementObject(instance, context, container)]; [r] is the
    identity of the object the call allocates. *)
Definition createElementObject {E} (r : objref) (instance : E)
    (context : LeafletContextInterface) (container : nullable objref)
    : LeafletElement E :=
  {| el_ref := r; instance := instance; context := context;
     container := container |}.

Module Element.
Section element.
(** [E]: backend instances, [P]: props objects, both compared by
    identity; [W]: whatever the user callbacks read and mutate. *)
Context {E P W : Type} `{EqDecision E, EqDecision P}.

Inductive call : Type :=
  | CreateElement (props : P) (context : LeafletContextInterface)
  | UpdateElement (instance : E) (props prevProps : P).

Definition is_create (c : call) : bool :=
  match c with CreateElement _ _ => true | _ => false end.

(** What the hook body and its effect closures read and write. *)
Record env : Type := Env {
  elementRef : option (LeafletElement E);
  propsRef : option P;
  world : W;
  calls : list call;
}.

Record state : Type := State {
  st_env : env;
  updateElementProps :
    option (React.effect (E * P * LeafletContextInterface) env);
}.

Definition init (w : W) : state :=
  State (Env None None w []) None.

Variable createElement :
  P → LeafletContextInterface → W → LeafletElement E * W.

(** [if (!elementRef.current) elementRef.current = createElement(...)] *)
Definition create_once (props : P) (context : LeafletContextInterface)
    (s : env) : env :=
  match elementRef s with
  | Some _ => s
  | None =>
      let '(el, w) := createElement props context (world s) in
      Env (Some el) (propsRef s) w
          (calls s ++ [CreateElement props context])
  end.

Definition useImmutableLeafletElement (props : P)
    (context : LeafletContextInterface) (st : state) : state :=
  State (create_once props context (st_env st)) (updateElementProps st).

Section mutable.
Variable updateElement : E → P → P → W → W.

(** The body of the effect, closed over [instance] and [props]. *)
Definition updateElementProps_body (inst : E) (props : P) (s : env)
    : env * option (env → env) :=
  match propsRef s with
  | Some prev =>
      if bool_decide (prev ≠ props)
      then (Env (elementRef s) (Some props)
                (updateElement inst props prev (world s))
                (calls s ++ [UpdateElement inst props prev]), None)
      else (s, None)
  | None => (s, None)
  end.

Definition useMutableLeafletElement (props : P)
    (context : LeafletContextInterface) (st : state) : state :=
  let s1 := create_once props context (st_env st) in
  let s2 := Env (elementRef s1) (Some (React.useRef (propsRef s1) props))
                (world s1) (calls s1) in
  match elementRef s2 with
  | Some el =>
      let '(slot, s3) :=
        React.useEffect (updateElementProps st)
          (instance el, props, context)
          (updateElementProps_body (instance el) props) s2 in
      State s3 slot
  | None => State s2 (updateElementProps st)
  end.
End mutable.

(** [createElementHook(createElement, updateElement?)] *)
Definition createElementHook (updateElement : option (E → P → P → W → W))
    : P → LeafletContextInterface → state → state :=
  match updateElement with
  | None => useImmutableLeafletElement
  | Some u => useMutableLeafletElement u
  end.

(** What the activator returns: the ref's [current]. *)
Definition current (st : state) : option (LeafletElement E) :=
  elementRef (st_env st).

(** A mounted component rendered again and again. *)
Definition rerender (useElement : P → LeafletContextInterface → state → state)
    (inputs : list (P * LeafletContextInterface)) (st : state) : state :=
  foldl (λ st i, useElement i.1 i.2 st) st inputs.
End element.
End Element.

(** ** The part of Leaflet's layer API the hooks call *)
Module Leaflet.

(** Modelled from the spec: [addLayer]/[removeLayer] of the consumed
    backend API (Leaflet, an external library).  Every container, the
    map or a layer group, has the set of the layers it holds, and a call
    changes the set of the container it is made on.  What Leaflet does
    beyond that is left out: a group that is on a map hands a layer it is
    given on to that map, and a map runs the [onAdd]/[onRemove] of the
    layer, which may add or remove further layers (the children of a
    group, the renderer of a path).  The statements on layer sets are
    therefore about the layer a call is made with and the container it is
    made on, once the call has returned, or about a removal that finds
    the layer already gone; what the hooks ask of Leaflet is stated on
    the call log.  [layersOf b c] is the layer set of the
    object [c]. *)
Definition layersOf (b : gmap objref (gset objref)) (c : objref)
    : gset objref :=
  default ∅ (b !! c).

(** [container.addLayer(layer)]: no effect when already there. *)
Definition addLayer (c layer : objref) (b : gmap objref (gset objref))
    : gmap objref (gset objref) :=
  <[c := {[layer]} ∪ layersOf b c]> b.

(** [container.removeLayer(layer)]: no effect (and no error) when absent. *)
Definition removeLayer (c layer : objref) (b : gmap objref (gset objref))
    : gmap objref (gset objref) :=
  <[c := layersOf b c ∖ {[layer]}]> b.

End Leaflet.

(** ** layer.ts *)
Module Layer.

Inductive call : Type :=
  | AddLayer (container layer : objref)
  | RemoveLayer (container layer : objref).

Record env : Type := Env {
  layers : gmap objref (gset objref);
  calls : list call;
}.

Definition do_addLayer (c layer : objref) (s : env) : env :=
  Env (Leaflet.addLayer c layer (layers s)) (calls s ++ [AddLayer c layer]).

Definition do_removeLayer (c layer : objref) (s : env) : env :=
  Env (Leaflet.removeLayer c layer (layers s))
      (calls s ++ [RemoveLayer c layer]).

(** The destroy function [removeLayer], closed over [context], [element]. *)
Definition removeLayer (element : LeafletElement objref)
    (context : LeafletContextInterface) (s : env) : env :=
  let s1 :=
    match layerContainer context with
    | Some c => do_removeLayer c (instance element) s
    | None => s
    end in
  do_removeLayer (map context) (instance element) s1.

(** The effect function [addLayer]. *)
Definition addLayer (element : LeafletElement objref)
    (context : LeafletContextInterface) (s : env)
    : env * option (env → env) :=
  let container := default (map context) (layerContainer context) in
  (do_addLayer container (instance element) s,
   Some (removeLayer element context)).

Record state : Type := State {
  st_env : env;
  addLayer_slot :
    option (React.effect
              (LeafletContextInterface * LeafletElement objref) env);
}.

Definition init (b : gmap objref (gset objref)) : state :=
  State (Env b []) None.

Definition useLayerLifecycle (element : LeafletElement objref)
    (context : LeafletContextInterface) (st : state) : state :=
  let '(slot, s) :=
    React.useEffect (addLayer_slot st) (context, element)
      (addLayer element context) (st_env st) in
  State s slot.

(** The component goes away: React runs the pending destroy function. *)
Definition unmount (st : state) : state :=
  State (React.run_destroy (addLayer_slot st) (st_env st)) None.

End Layer.

(** ** CSS class names (src/unnamed/part_003) *)
Module Dom.

(** [s.split(sep)] for a one-character separator. *)
Fixpoint split (sep : ascii) (s : string) : list string :=
  match s with
  | EmptyString => [EmptyString]
  | String c rest =>
      if decide (c = sep) then EmptyString :: split sep rest
      else match split sep rest with
           | w :: ws => String c w :: ws
           | [] => [String c EmptyString]
           end
  end.

(** [Boolean(s)] for a string. *)
Definition truthy (s : string) : bool := bool_decide (s ≠ "").

Definition splitClassName (className : string) : list string :=
  filter (λ s, truthy s = true) (split " "%char className).

Inductive call : Type :=
  | AddClass (cls : string)
  | RemoveClass (cls : string).

(** Modelled from the spec: a DOM element as the class helpers and the
    Pane component use it (the browser and Leaflet's DomUtil are
    external): its parent in the document (if attached), its class list,
    its inline style as last assigned, and the DomUtil calls made on it. *)
Record HTMLElement : Type := Element {
  parentNode : option objref;
  classList : list string;
  style : gmap string string;
  calls : list call;
}.

(** Modelled from the spec: [DomUtil.addClass(el, cls)] and
    [DomUtil.removeClass(el, cls)], for a class name that is one token,
    with no white space in it.  [splitClassName] cuts at blanks only: of a
    class string with a tab or a line break in it, a token has white
    space inside, which Leaflet's [addClass] cuts again and the browser's
    [classList.remove] refuses with an error.  The statements on the class
    list are made for class strings without such characters. *)
Definition addClass (cls : string) (el : HTMLElement) : HTMLElement :=
  Element (parentNode el)
          (if bool_decide (cls ∈ classList el) then classList el
           else classList el ++ [cls])
          (style el) (calls el ++ [AddClass cls]).

Definition removeClass (cls : string) (el : HTMLElement) : HTMLElement :=
  Element (parentNode el) (filter (λ c, c ≠ cls) (classList el))
          (style el) (calls el ++ [RemoveClass cls]).

(** [xs.forEach(f)] on a state-passing [f]. *)
Definition forEach {A S} (f : A → S → S) (xs : list A) (s : S) : S :=
  foldl (λ s x, f x s) s xs.

Definition addClassName (className : string) (element : HTMLElement)
    : HTMLElement :=
  forEach addClass (splitClassName className) element.

Definition removeClassName (className : string) (element : HTMLElement)
    : HTMLElement :=
  forEach removeClass (splitClassName className) element.

(** All three arguments are optional; the element is returned in the
    state the call left it in. *)
Definition updateClassName (element : nullable HTMLElement)
    (prevClassName nextClassName : nullable string) : nullable HTMLElement :=
  match element with
  | Val el =>
      if bool_decide (nextClassName ≠ prevClassName) then
        let el1 :=
          match prevClassName with
          | Val prev =>
              if bool_decide (0 < String.length prev)
              then removeClassName prev el else el
          | _ => el
          end in
        let el2 :=
          match nextClassName with
          | Val next =>
              if bool_decide (0 < String.length next)
              then addClassName next el1 else el1
          | _ => el1
          end in
        Val el2
      else Val el
  | other => other
  end.

End Dom.

(** ** events.ts *)
Module Events.

(** [instance.on(handlers)] and [instance.off(handlers)]; a handler map
    is known by its identity. *)
Inductive call : Type :=
  | On (instance handlers : objref)
  | Off (instance handlers : objref).

Record env : Type := Env {
  eventHandlersRef : nullable objref;
  calls : list call;
}.

(** The destroy function [removeEventHandlers], closed over [element]. *)
Definition removeEventHandlers (element : LeafletElement objref) (s : env)
    : env :=
  let s1 :=
    match eventHandlersRef s with
    | Val h => Env (eventHandlersRef s) (calls s ++ [Off (instance element) h])
    | _ => s
    end in
  Env Null (calls s1).

(** The effect function [addEventHandlers]. *)
Definition addEventHandlers (element : LeafletElement objref)
    (eventHandlers : nullable objref) (s : env) : env * option (env → env) :=
  let s1 :=
    match eventHandlers with
    | Val h => Env (eventHandlersRef s) (calls s ++ [On (instance element) h])
    | _ => s
    end in
  (Env eventHandlers (calls s1), Some (removeEventHandlers element)).

Record state : Type := State {
  st_env : env;
  addEventHandlers_slot :
    option (React.effect (LeafletElement objref * nullable objref) env);
}.

(** [useRef()] starts out [undefined]. *)
Definition init : state := State (Env Undefined []) None.

Definition useEventHandlers (element : LeafletElement objref)
    (eventHandlers : nullable objref) (st : state) : state :=
  let '(slot, s) :=
    React.useEffect (addEventHandlers_slot st) (element, eventHandlers)
      (addEventHandlers element eventHandlers) (st_env st) in
  State s slot.

Definition unmount (st : state) : state :=
  State (React.run_destroy (addEventHandlers_slot st) (st_env st)) None.

Definition rerender (inputs : list (LeafletElement objref * nullable objref))
    (st : state) : state :=
  foldl (λ st i, useEventHandlers i.1 i.2 st) st inputs.

(** Modelled from the spec: [on]/[off] of the consumed backend API, the
    handler maps registered on instances after a sequence of calls.  [off] drops one registration of the
    map it is given and ignores a map that is not registered. *)
Fixpoint remove_first (x : objref * objref) (l : list (objref * objref))
    : list (objref * objref) :=
  match l with
  | [] => []
  | y :: l' => if decide (x = y) then l' else y :: remove_first x l'
  end.

Definition apply_call (l : list (objref * objref)) (c : call)
    : list (objref * objref) :=
  match c with
  | On i h => l ++ [(i, h)]
  | Off i h => remove_first (i, h) l
  end.

Definition listeners (cs : list call) : list (objref * objref) :=
  foldl apply_call [] cs.

End Events.

(** ** attribution.ts *)
Module Attribution.

(** The map as the effect sees it: its identity and its attribution
    control, if it has one. *)
Record LeafletMap : Type := {
  map_ref : objref;
  attributionControl : option objref;
}.

Inductive call : Type :=
  | RemoveAttribution (control : objref) (text : string)
  | AddAttribution (control : objref) (text : string).


Record env : Type := Env {
  attributionRef : option (nullable string);
  calls : list call;
}.

(** The effect function [updateAttribution]; it returns no destroy. *)
Definition updateAttribution (map : LeafletMap)
    (attribution : nullable string) (s : env) : env * option (env → env) :=
  match attributionRef s with
  | Some current =>
      let cs :=
        if bool_decide (attribution ≠ current) then
          match attributionControl map with
          | Some control =>
              match current with
              | Val prev => [RemoveAttribution control prev]
              | _ => []
              end ++
              match attribution with
              | Val next => [AddAttribution control next]
              | _ => []
              end
          | None => []
          end
        else [] in
      (Env (Some attribution) (calls s ++ cs), None)
  | None => (s, None)
  end.

Record state : Type := State {
  st_env : env;
  updateAttribution_slot :
    option (React.effect (objref * nullable string) env);
}.

Definition init : state := State (Env None []) None.

Definition useAttribution (map : LeafletMap) (attribution : nullable string)
    (st : state) : state :=
  let s0 := st_env st in
  let s1 := Env (Some (React.useRef (attributionRef s0) attribution))
                (calls s0) in
  let '(slot, s2) :=
    React.useEffect (updateAttribution_slot st) (map_ref map, attribution)
      (updateAttribution map attribution) s1 in
  State s2 slot.

Definition rerender (inputs : list (LeafletMap * nullable string))
    (st : state) : state :=
  foldl (λ st i, useAttribution i.1 i.2 st) st inputs.

(** Modelled from the spec: [addAttribution]/[removeAttribution] of the
    consumed backend API.  Leaflet's attribution control keeps a counter
    per text; a text shows while its counter is positive, the empty text
    is ignored.  (The counters are properties of a plain object: a text
    that names a property of [Object.prototype] is outside this model.) *)
Definition count (a : gmap string nat) (text : string) : nat :=
  default 0 (a !! text).

Definition addAttribution (text : string) (a : gmap string nat)
    : gmap string nat :=
  if bool_decide (text = "") then a else <[text := S (count a text)]> a.

Definition removeAttribution (text : string) (a : gmap string nat)
    : gmap string nat :=
  if bool_decide (text = "") then a
  else match count a text with
       | S n => <[text := n]> a
       | O => a
       end.

Definition shown (a : gmap string nat) (text : string) : Prop :=
  0 < count a text.

Definition apply_call (a : gmap string nat) (c : call) : gmap string nat :=
  match c with
  | RemoveAttribution _ text => removeAttribution text a
  | AddAttribution _ text => addAttribution text a
  end.

Definition display (cs : list call) (a : gmap string nat) : gmap string nat :=
  foldl apply_call a cs.

End Attribution.

(** ** control.ts (src/unnamed/part_004) *)
Module Control.
Section control.
Context {E P W : Type} `{EqDecision E, EqDecision P}.

(** [props.position], and the element hook the control hook wraps. *)
Variable position : P → nullable string.
Variable useElement :
  P → LeafletContextInterface → @Element.state E P W → @Element.state E P W.

Inductive call : Type :=
  | AddTo (instance : E) (map : objref)
  | Remove (instance : E)
  | SetPosition (instance : E) (position : string).


Record env : Type := Env {
  positionRef : option (nullable string);
  calls : list call;
}.

Record state : Type := State {
  element : @Element.state E P W;
  st_env : env;
  addControl_slot : option (React.effect (objref * E) env);
  updateControl_slot : option (React.effect (E * nullable string) env);
}.

Definition init (w : W) : state :=
  State (Element.init w) (Env None []) None None.

Definition removeControl (inst : E) (s : env) : env :=
  Env (positionRef s) (calls s ++ [Remove inst]).

Definition addControl (inst : E) (context : LeafletContextInterface)
    (s : env) : env * option (env → env) :=
  (Env (positionRef s) (calls s ++ [AddTo inst (map context)]),
   Some (removeControl inst)).

Definition updateControl (inst : E) (pos : nullable string) (s : env)
    : env * option (env → env) :=
  match pos, positionRef s with
  | Val p, Some current =>
      if bool_decide (pos ≠ current)
      then (Env (Some pos) (calls s ++ [SetPosition inst p]), None)
      else (s, None)
  | _, _ => (s, None)
  end.

Definition useLeafletControl (props : P)
    (ambient : option LeafletContextInterface) (st : state)
    : result state :=
  match useLeafletContext ambient with
  | Throw msg => Throw msg
  | Ok context =>
      let el_st := useElement props context (element st) in
      match Element.current el_st with
      | None => Throw "TypeError: elementRef.current is undefined"
      | Some el =>
          let inst := instance el in
          let pos := position props in
          let s0 := st_env st in
          let s1 := Env (Some (React.useRef (positionRef s0) pos))
                        (calls s0) in
          (* commit: destroy functions first, then the effects in order *)
          let s2 := React.commit_destroy (addControl_slot st)
                      (map context, inst) s1 in
          let '(slot1, s3) :=
            React.commit_create (addControl_slot st) (map context, inst)
              (addControl inst context) s2 in
          let '(slot2, s4) :=
            React.commit_create (updateControl_slot st) (inst, pos)
              (updateControl inst pos) s3 in
          Ok (State el_st s4 slot1 slot2)
      end
  end.

Fixpoint rerender (inputs : list (P * option LeafletContextInterface))
    (st : state) : result state :=
  match inputs with
  | [] => Ok st
  | i :: rest =>
      match useLeafletControl i.1 i.2 st with
      | Ok st' => rerender rest st'
      | Throw msg => Throw msg
      end
  end.
End control.
End Control.

(** ** pane.ts *)
Module Pane.

(** Property values, and objects as finite maps from keys to values. *)
Inductive val : Type :=
  | VUndefined
  | VNull
  | VBool (b : bool)
  | VNumber (n : Z)
  | VString (s : string)
  | VObject (r : objref).

#[global] Instance val_eq_dec : EqDecision val.
Proof. solve_decision. Defined.

(** [Boolean(v)] *)
Definition truthy (v : val) : bool :=
  match v with
  | VUndefined | VNull => false
  | VBool b => b
  | VNumber n => bool_decide (n ≠ 0%Z)
  | VString s => bool_decide (s ≠ "")
  | VObject _ => true
  end.

(** [v ?? w] *)
Definition nullish (v w : val) : val :=
  match v with VUndefined | VNull => w | _ => v end.

Definition of_nullable (x : nullable string) : val :=
  match x with
  | Undefined => VUndefined
  | Null => VNull
  | Val s => VString s
  end.

(** [o.k]: a missing key reads [undefined]. *)
Definition get (o : gmap string val) (k : string) : val :=
  default VUndefined (o !! k).

(** The store of props objects: an object's identity is its index. *)
Definition deref (h : list (gmap string val)) (r : objref)
    : gmap string val :=
  default ∅ (h !! r).

(** An object literal allocates. *)
Definition alloc (o : gmap string val) (h : list (gmap string val))
    : objref * list (gmap string val) :=
  (length h, h ++ [o]).

Definition withPane (props : objref) (context : LeafletContextInterface)
    (h : list (gmap string val)) : objref * list (gmap string val) :=
  let pane := nullish (get (deref h props) "pane")
                      (of_nullable (pane context)) in
  if truthy pane
  then alloc (<["pane" := pane]> (deref h props)) h
  else (props, h).

End Pane.

(** ** The map's panes, as Leaflet keeps them *)
Module LMap.

(** Modelled from the spec: [createPane]/[getPane] and the internal pane
    registries of the consumed backend API.  [nodes] are the DOM elements
    by identity (their index).  (The registries are plain objects: a pane
    name that names a property of [Object.prototype] is outside this
    model.) *)
Record t : Type := Make {
  _mapPane : objref;
  _panes : gmap string objref;
  _paneRenderers : gmap string objref;
  nodes : list Dom.HTMLElement;
}.

(** [map.getPane(name)] *)
Definition getPane (name : string) (m : t) : option objref :=
  _panes m !! name.

(** [s.replace(pat, rep)]: the first occurrence only. *)
Fixpoint replace (pat rep s : string) : string :=
  if String.prefix pat s
  then rep +:+ String.substring (String.length pat) (String.length s) s
  else match s with
       | EmptyString => EmptyString
       | String c rest => String c (replace pat rep rest)
       end.

(** [map.createPane(name, container)]: a fresh [div] under the container
    (or the map pane), registered under its name unless that is empty. *)
Definition createPane (name : string) (container : option objref) (m : t)
    : objref * t :=
  let className :=
    "leaflet-pane" +:+
    (if Dom.truthy name
     then " leaflet-" +:+ replace "Pane" "" name +:+ "-pane" else "") in
  let pane := Dom.Element (Some (default (_mapPane m) container))
                (Dom.splitClassName className) ∅ [] in
  let r := length (nodes m) in
  (r, Make (_mapPane m)
           (if Dom.truthy name then <[name := r]> (_panes m) else _panes m)
           (_paneRenderers m)
           (nodes m ++ [pane])).

(** [element.remove()] *)
Definition remove (el : Dom.HTMLElement) : Dom.HTMLElement :=
  Dom.Element None (Dom.classList el) (Dom.style el) (Dom.calls el).

Definition alter_node (f : Dom.HTMLElement → Dom.HTMLElement) (r : objref)
    (m : t) : t :=
  Make (_mapPane m) (_panes m) (_paneRenderers m) (alter f r (nodes m)).

End LMap.

(** ** The Pane component (src/unnamed/part_006) *)
Module PaneProps.
Record t : Type := Make {
  children : nullable objref;
  className : nullable string;
  name : string;
  pane : nullable string;
  style : nullable (list (string * string));
}.
End PaneProps.

Module PaneComponent.

Definition DEFAULT_PANES : list string :=
  ["mapPane"; "markerPane"; "overlayPane"; "popupPane"; "shadowPane";
   "tilePane"; "tooltipPane"].

(** [xs.indexOf(x)] *)
Fixpoint indexOf_from (i : Z) (xs : list string) (x : string) : Z :=
  match xs with
  | [] => (-1)%Z
  | y :: ys => if decide (y = x) then i else indexOf_from (i + 1)%Z ys x
  end.
Definition indexOf (xs : list string) (x : string) : Z := indexOf_from 0 xs x.

(** [const { [pane]: _p, ...others } = obj; return others] *)
Definition omitPane {A} (obj : gmap string A) (pane : string)
    : gmap string A :=
  delete pane obj.

(** [element.style[key] = value]: the assignment as made; what the
    browser keeps of it is not modelled. *)
Definition set_style (kv : string * string) (el : Dom.HTMLElement)
    : Dom.HTMLElement :=
  Dom.Element (Dom.parentNode el) (Dom.classList el)
              (<[kv.1 := kv.2]> (Dom.style el)) (Dom.calls el).

Definition createPane (name : string) (props : PaneProps.t)
    (context : LeafletContextInterface) (m : LMap.t)
    : result (objref * LMap.t) :=
  if bool_decide (indexOf DEFAULT_PANES name ≠ (-1)%Z) then
    Throw ("You must use a unique name for a pane that is not a default Leaflet pane: "
           +:+ name)
  else if bool_decide (is_Some (LMap.getPane name m)) then
    Throw ("A pane with this name already exists: " +:+ name)
  else
    let parentPaneName := nullish (PaneProps.pane props) (pane context) in
    let parentPane :=
      match parentPaneName with
      | Val n => if Dom.truthy n then LMap.getPane n m else None
      | _ => None
      end in
    let '(element, m1) := LMap.createPane name parentPane m in
    let m2 :=
      match PaneProps.className props with
      | Val cls => LMap.alter_node (Dom.addClassName cls) element m1
      | _ => m1
      end in
    let m3 :=
      match PaneProps.style props with
      | Val kvs => LMap.alter_node (Dom.forEach set_style kvs) element m2
      | _ => m2
      end in
    Ok (element, m3).

(** [leaflet] is the map of the tree the component is in: the [map] of
    every context it is rendered with. *)
Record env : Type := Env {
  paneElement : nullable objref;
  leaflet : LMap.t;
  thrown : option string;
}.

(** The destroy function [removeCreatedPane], closed over [context] (for
    its map) and [paneName].  The registries [_panes] and [_paneRenderers]
    of a Leaflet map are objects from its construction on, so the guard
    [_panes != null] holds. *)
Definition removeCreatedPane (paneName : string) (s : env) : env :=
  let m := leaflet s in
  let m1 :=
    match LMap.getPane paneName m with
    | Some pane => LMap.alter_node LMap.remove pane m
    | None => m
    end in
  Env (paneElement s)
      (LMap.Make (LMap._mapPane m1)
                 (omitPane (LMap._panes m1) paneName)
                 (omitPane (LMap._paneRenderers m1) paneName)
                 (LMap.nodes m1))
      (thrown s).

(** The effect function; an error of [createPane] is kept in [thrown]. *)
Definition createPane_effect (paneName : string) (props : PaneProps.t)
    (context : LeafletContextInterface) (s : env) : env * option (env → env) :=
  match createPane paneName props context (leaflet s) with
  | Ok (el, m) => (Env (Val el) m (thrown s), Some (removeCreatedPane paneName))
  | Throw msg => (Env (paneElement s) (leaflet s) (Some msg), None)
  end.

Record state : Type := State {
  paneName : option string;
  newContext : option (LeafletContextInterface * LeafletContextInterface);
  next_ref : objref;
  st_env : env;
  createPane_slot : option (React.effect unit env);
}.

(** [paneElement] starts out [null]; [next] is the identity the next
    allocated object gets. *)
Definition init (m : LMap.t) (next : objref) : state :=
  State None None next (Env Null m None) None.

(** [{ ...context, pane: paneName }], a new object. *)
Definition with_pane (context : LeafletContextInterface) (paneName : string)
    (r : objref) : LeafletContextInterface :=
  {| ctx_ref := r;
     __version := __version context;
     map := map context;
     layerContainer := layerContainer context;
     layersControl := layersControl context;
     overlayContainer := overlayContainer context;
     pane := Val paneName |}.

(** What a render returns: the portal (children, the context provided to
    them, the pane element) or [null]. *)
Definition output : Type :=
  option (objref * LeafletContextInterface * objref).

Definition PaneComponent (props : PaneProps.t)
    (ambient : option LeafletContextInterface) (st : state)
    : result (state * output) :=
  let name := React.useState (paneName st) (PaneProps.name props) in
  match useLeafletContext ambient with
  | Throw msg => Throw msg
  | Ok context =>
      let fresh := (Some (context, with_pane context name (next_ref st)),
                    with_pane context name (next_ref st),
                    S (next_ref st)) in
      let '(memo, newCtx, next) :=
        match newContext st with
        | Some (d, v) =>
            if bool_decide (d = context) then (Some (d, v), v, next_ref st)
            else fresh
        | None => fresh
        end in
      let out :=
        match PaneProps.children props, paneElement (st_env st) with
        | Val ch, Val el => Some (ch, newCtx, el)
        | _, _ => None
        end in
      let '(slot, s) :=
        React.useEffect (createPane_slot st) tt
          (createPane_effect name props context) (st_env st) in
      match thrown s with
      | Some msg => Throw msg
      | None => Ok (State (Some name) memo next s slot, out)
      end
  end.

Definition unmount (st : state) : state :=
  State (paneName st) (newContext st) (next_ref st)
        (React.run_destroy (createPane_slot st) (st_env st)) None.

Fixpoint rerender (inputs : list (PaneProps.t * option LeafletContextInterface))
    (st : state) : result state :=
  match inputs with
  | [] => Ok st
  | i :: rest =>
      match PaneComponent i.1 i.2 st with
      | Ok (st', _) => rerender rest st'
      | Throw msg => Throw msg
      end
  end.

End PaneComponent.

(** ** Render histories and unmounts of the hooks above *)
Module History.

(** A layer hook rendered again and again. *)
Definition layer
    (inputs : list (LeafletElement objref * LeafletContextInterface))
    (st : Layer.state) : Layer.state :=
  foldl (λ st i, Layer.useLayerLifecycle i.1 i.2 st) st inputs.

(** The control hook goes away: React runs the destroy function of
    [addControl]; [updateControl] returned none. *)
Definition unmount_control {E P W : Type} (st : @Control.state E P W)
    : @Control.env E :=
  React.run_destroy (Control.addControl_slot st) (Control.st_env st).

Definition is_addTo {E : Type} (c : @Control.call E) : bool :=
  match c with Control.AddTo _ _ => true | _ => false end.

Definition is_remove {E : Type} (c : @Control.call E) : bool :=
  match c with Control.Remove _ => true | _ => false end.

End History.

(** ** Props objects in the store *)
Module Props.

(** [props.k] of the props object [props] in the store [h]. *)
Definition field (h : list (gmap string Pane.val)) (props : objref)
    (k : string) : Pane.val :=
  Pane.get (Pane.deref h props) k.

(** [v == null] *)
Definition is_nullish (v : Pane.val) : bool :=
  match v with
  | Pane.VUndefined | Pane.VNull => true
  | _ => false
  end.

(** A field declared [string | undefined] ([attribution]) and a field
    declared as an object ([eventHandlers]), read from props typed as
    their interface declares. *)
Definition as_string (v : Pane.val) : nullable string :=
  match v with
  | Pane.VString s => Val s
  | Pane.VNull => Null
  | _ => Undefined
  end.

Definition as_object (v : Pane.val) : nullable objref :=
  match v with
  | Pane.VObject r => Val r
  | Pane.VNull => Null
  | _ => Undefined
  end.

(** The element hook of a component whose props are in the store: its
    world is the store together with [W], what the callbacks own.  The
    hooks allocate in the store, the callbacks read it. *)
Definition store {E W : Type}
    (est : @Element.state E objref (list (gmap string Pane.val) * W))
    : list (gmap string Pane.val) :=
  (Element.world (Element.st_env est)).1.

Definition with_store {E W : Type} (h : list (gmap string Pane.val))
    (est : @Element.state E objref (list (gmap string Pane.val) * W))
    : @Element.state E objref (list (gmap string Pane.val) * W) :=
  Element.State
    (Element.Env (Element.elementRef (Element.st_env est))
                 (Element.propsRef (Element.st_env est))
                 (h, (Element.world (Element.st_env est)).2)
                 (Element.calls (Element.st_env est)))
    (Element.updateElementProps est).

(** [createElement] and [updateElement] as the component factories
    receive them, reading the store their props are in. *)
Definition lift_create {W E : Type}
    (createElement : list (gmap string Pane.val) → objref →
                     LeafletContextInterface → W → LeafletElement E * W)
    (props : objref) (context : LeafletContextInterface)
    (hw : list (gmap string Pane.val) * W)
    : LeafletElement E * (list (gmap string Pane.val) * W) :=
  let '(el, w) := createElement hw.1 props context hw.2 in (el, (hw.1, w)).

Definition lift_update {W E : Type}
    (updateElement : list (gmap string Pane.val) → E → objref → objref → W → W)
    (inst : E) (props prevProps : objref)
    (hw : list (gmap string Pane.val) * W)
    : list (gmap string Pane.val) * W :=
  (hw.1, updateElement hw.1 inst props prevProps hw.2).

End Props.

(** ** context.ts: createLeafletContext and extendContext *)
Module Context.

(** [Partial<LeafletContextInterface>]: a key is absent ([None]) or
    present with its value, which for an optional key may be
    [undefined]. *)
Record Partial : Type := {
  p__version : option nat;
  p_map : option objref;
  p_layerContainer : option (option objref);
  p_layersControl : option (option objref);
  p_overlayContainer : option (option objref);
  p_pane : option (nullable string);
}.

(** [createLeafletContext(map)]; [r] is the identity of the new object. *)
Definition createLeafletContext (r : objref) (map : objref)
    : LeafletContextInterface :=
  {| ctx_ref := r; __version := CONTEXT_VERSION; map := map;
     layerContainer := None; layersControl := None;
     overlayContainer := None; pane := Undefined |}.

(** [extendContext(source, extra)]: [{ ...source, ...extra }]. *)
Definition extendContext (r : objref) (source : LeafletContextInterface)
    (extra : Partial) : LeafletContextInterface :=
  {| ctx_ref := r;
     __version := default (__version source) (p__version extra);
     map := default (map source) (p_map extra);
     layerContainer :=
       default (layerContainer source) (p_layerContainer extra);
     layersControl := default (layersControl source) (p_layersControl extra);
     overlayContainer :=
       default (overlayContainer source) (p_overlayContainer extra);
     pane := default (pane source) (p_pane extra) |}.

End Context.

(** ** layer.ts: createLayerHook *)
Module LayerHook.
Section hook.
Context {W : Type}.

Variable useElement :
  objref → LeafletContextInterface →
  @Element.state objref objref (list (gmap string Pane.val) * W) →
  @Element.state objref objref (list (gmap string Pane.val) * W).

Record state : Type := State {
  element : @Element.state objref objref (list (gmap string Pane.val) * W);
  attribution : Attribution.state;
  events : Events.state;
  lifecycle : Layer.state;
}.

Definition init (h : list (gmap string Pane.val)) (w : W)
    (b : gmap objref (gset objref)) : state :=
  State (Element.init (h, w)) Attribution.init Events.init (Layer.init b).

Definition store (st : state) : list (gmap string Pane.val) :=
  Props.store (element st).

Definition current (st : state) : option (LeafletElement objref) :=
  Element.current (element st).

(** [useLayer(props)]; [control] is the attribution control of the
    context's map at the time of the commit, if it has one. *)
Definition useLayer (ambient : option LeafletContextInterface)
    (control : option objref) (props : objref) (st : state)
    : result state :=
  match useLeafletContext ambient with
  | Throw msg => Throw msg
  | Ok context =>
      let h := store st in
      let '(props', h') := Pane.withPane props context h in
      let est :=
        useElement props' context (Props.with_store h' (element st)) in
      match Element.current est with
      | None => Throw "TypeError: elementRef.current is undefined"
      | Some el =>
          let att :=
            Attribution.useAttribution
              {| Attribution.map_ref := map context;
                 Attribution.attributionControl := control |}
              (Props.as_string (Props.field h props "attribution"))
              (attribution st) in
          let ev :=
            Events.useEventHandlers el
              (Props.as_object (Props.field h props "eventHandlers"))
              (events st) in
          let lc := Layer.useLayerLifecycle el context (lifecycle st) in
          Ok (State est att ev lc)
      end
  end.

(** A mounted component rendered again and again: the ambient context,
    the attribution control of its map and the props of each render. *)
Fixpoint rerender
    (inputs : list (LeafletContextInterface * option objref * objref))
    (st : state) : result state :=
  match inputs with
  | [] => Ok st
  | i :: rest =>
      match useLayer (Some i.1.1) i.1.2 i.2 st with
      | Ok st' => rerender rest st'
      | Throw msg => Throw msg
      end
  end.

(** The component goes away: React runs the destroy function of every
    effect that returned one. *)
Definition unmount (st : state) : state :=
  State
    (Element.State
       (React.run_destroy (Element.updateElementProps (element st))
          (Element.st_env (element st)))
       None)
    (Attribution.State
       (React.run_destroy (Attribution.updateAttribution_slot (attribution st))
          (Attribution.st_env (attribution st)))
       None)
    (Events.unmount (events st))
    (Layer.unmount (lifecycle st)).
End hook.
End LayerHook.

(** ** path.ts (src/unnamed/part_000) *)
Module Path.

(** What [setStyle] receives and [optionsRef] holds: the value of
    [props.pathOptions], or the object a literal [{}] of the effect
    allocated, which is identical to no other value. *)
Inductive style : Type :=
  | FromProps (v : Pane.val)
  | Literal (n : nat).

#[global] Instance style_eq_dec : EqDecision style.
Proof. solve_decision. Defined.

Inductive call : Type :=
  | SetStyle (instance : objref) (options : style).

Record env : Type := Env {
  optionsRef : style;
  literals : nat;
  calls : list call;
}.

(** The effect function [updatePathOptions]; it returns no destroy. *)
Definition updatePathOptions (element : LeafletElement objref)
    (pathOptions : Pane.val) (s : env) : env * option (env → env) :=
  if bool_decide (FromProps pathOptions ≠ optionsRef s)
  then
    let '(options, n) :=
      if Props.is_nullish pathOptions
      then (Literal (literals s), S (literals s))
      else (FromProps pathOptions, literals s) in
    (Env options n (calls s ++ [SetStyle (instance element) options]), None)
  else (s, None).

Record state : Type := State {
  st_env : env;
  updatePathOptions_slot :
    option (React.effect (LeafletElement objref * objref) env);
}.

Definition init : state := State (Env (FromProps Pane.VUndefined) 0 []) None.

(** [usePathOptions(element, props)], [props] in the store [h]. *)
Definition usePathOptions (h : list (gmap string Pane.val))
    (element : LeafletElement objref) (props : objref) (st : state)
    : state :=
  let '(slot, s) :=
    React.useEffect (updatePathOptions_slot st) (element, props)
      (updatePathOptions element (Props.field h props "pathOptions"))
      (st_env st) in
  State s slot.

(** A mounted component rendered again and again. *)
Definition rerender (h : list (gmap string Pane.val))
    (inputs : list (LeafletElement objref * objref)) (st : state) : state :=
  foldl (λ st i, usePathOptions h i.1 i.2 st) st inputs.

Section hook.
Context {W : Type}.

Variable useElement :
  objref → LeafletContextInterface →
  @Element.state objref objref (list (gmap string Pane.val) * W) →
  @Element.state objref objref (list (gmap string Pane.val) * W).

Record hook_state : Type := HookState {
  element : @Element.state objref objref (list (gmap string Pane.val) * W);
  events : Events.state;
  lifecycle : Layer.state;
  pathOptions : state;
}.

Definition hook_init (h : list (gmap string Pane.val)) (w : W)
    (b : gmap objref (gset objref)) : hook_state :=
  HookState (Element.init (h, w)) Events.init (Layer.init b) init.

Definition store (st : hook_state) : list (gmap string Pane.val) :=
  Props.store (element st).

Definition current (st : hook_state) : option (LeafletElement objref) :=
  Element.current (element st).

(** [usePath(props)] *)
Definition usePath (ambient : option LeafletContextInterface)
    (props : objref) (st : hook_state) : result hook_state :=
  match useLeafletContext ambient with
  | Throw msg => Throw msg
  | Ok context =>
      let h := store st in
      let '(props', h') := Pane.withPane props context h in
      let est :=
        useElement props' context (Props.with_store h' (element st)) in
      match Element.current est with
      | None => Throw "TypeError: elementRef.current is undefined"
      | Some el =>
          let ev :=
            Events.useEventHandlers el
              (Props.as_object (Props.field h props "eventHandlers"))
              (events st) in
          let lc := Layer.useLayerLifecycle el context (lifecycle st) in
          let po := usePathOptions h el props (pathOptions st) in
          Ok (HookState est ev lc po)
      end
  end.

(** The component goes away: React runs the destroy function of every
    effect that returned one. *)
Definition unmount (st : hook_state) : hook_state :=
  HookState
    (Element.State
       (React.run_destroy (Element.updateElementProps (element st))
          (Element.st_env (element st)))
       None)
    (Events.unmount (events st))
    (Layer.unmount (lifecycle st))
    (State
       (React.run_destroy (updatePathOptions_slot (pathOptions st))
          (st_env (pathOptions st)))
       None).
End hook.
End Path.

(** ** component.ts (src/unnamed/part_001) *)
Module Component.

(** What a component returns: [null], its children below a provider of
    [value], or its children in a portal into [container]. *)
Inductive node : Type :=
  | Nothing
  | Provider (value : LeafletContextInterface) (children : Pane.val)
  | Portal (children : Pane.val) (container : objref).

(** A render: the instance the forwarded ref is given, and the tree. *)
Record rendered (E : Type) : Type := Rendered {
  handle : E;
  tree : node;
}.
Arguments Rendered {E} handle tree.
Arguments handle {E} r.
Arguments tree {E} r.

Section components.
(** [S]: the hook cells of [useElement]; [current] reads the ref it
    returns, [store] the store the props are in. *)
Context {S E : Type}.
Variable current : S → option (LeafletElement E).
Variable store : S → list (gmap string Pane.val).
Variable useElement : objref → S → result S.

Definition ContainerComponent (props : objref) (st : S)
    : result (S * rendered E) :=
  match useElement props st with
  | Throw msg => Throw msg
  | Ok st' =>
      match current st' with
      | None => Throw "TypeError: elementRef.current is undefined"
      | Some el =>
          let children := Props.field (store st) props "children" in
          Ok (st', Rendered (instance el)
                     (if Props.is_nullish children then Nothing
                      else Provider (context el) children))
      end
  end.

End components.

Section overlay.
(** [useElement] is the overlay hook applied to [setOpen], the setter of
    the state [isOpen]: the same function on every render. *)
Context {S E : Type} `{EqDecision E}.
Variable current : S → option (LeafletElement E).
Variable store : S → list (gmap string Pane.val).
Variable useElement : objref → S → result S.

Inductive overlay_call : Type :=
  | Update (instance : E).

Record overlay_state : Type := OverlayState {
  hook : S;
  calls : list overlay_call;
  updateOverlay_slot :
    option (React.effect (E * bool * Pane.val) (list overlay_call));
}.

(** The effect function [updateOverlay]; it returns no destroy. *)
Definition updateOverlay (inst : E) (isOpen : bool)
    (s : list overlay_call)
    : list overlay_call * option (list overlay_call → list overlay_call) :=
  (if isOpen then s ++ [Update inst] else s, None).

(** One render of [OverlayComponent]: [isOpen] is the state at this
    render ([false] on the first, then what [setOpen] was last given),
    [contentNode] the [_contentNode] of the instance, if it has one. *)
Definition OverlayComponent (isOpen : bool) (contentNode : option objref)
    (props : objref) (st : overlay_state)
    : result (overlay_state * rendered E) :=
  match useElement props (hook st) with
  | Throw msg => Throw msg
  | Ok hook' =>
      match current hook' with
      | None => Throw "TypeError: elementRef.current is undefined"
      | Some el =>
          let inst := instance el in
          let children := Props.field (store (hook st)) props "children" in
          let '(slot, cs) :=
            React.useEffect (updateOverlay_slot st) (inst, isOpen, children)
              (updateOverlay inst isOpen) (calls st) in
          Ok (OverlayState hook' cs slot,
              Rendered inst
                match contentNode with
                | Some n => Portal children n
                | None => Nothing
                end)
      end
  end.
End overlay.
End Component.

(** ** div-overlay.ts (src/unnamed/part_002) *)
Module DivOverlay.
Section hook.
Context {W L : Type}.

Variable useElement :
  objref → LeafletContextInterface →
  @Element.state objref objref (list (gmap string Pane.val) * W) →
  @Element.state objref objref (list (gmap string Pane.val) * W).

(** The lifecycle hook of the overlay, with its hook cells [L].  Its last
    argument [setOpen] is the same function on every render and is left
    out: what the hook makes of it shows as the [isOpen] of later
    renders. *)
Variable useLifecycle :
  list (gmap string Pane.val) → LeafletElement objref →
  LeafletContextInterface → objref → L → L.

Record state : Type := State {
  element : @Element.state objref objref (list (gmap string Pane.val) * W);
  attribution : Attribution.state;
  events : Events.state;
  lifecycle : L;
}.

Definition init (h : list (gmap string Pane.val)) (w : W) (l : L) : state :=
  State (Element.init (h, w)) Attribution.init Events.init l.

Definition store (st : state) : list (gmap string Pane.val) :=
  Props.store (element st).

Definition current (st : state) : option (LeafletElement objref) :=
  Element.current (element st).

(** [useDivOverlay(props, setOpen)] *)
Definition useDivOverlay (ambient : option LeafletContextInterface)
    (control : option objref) (props : objref) (st : state)
    : result state :=
  match useLeafletContext ambient with
  | Throw msg => Throw msg
  | Ok context =>
      let h := store st in
      let '(props', h') := Pane.withPane props context h in
      let est :=
        useElement props' context (Props.with_store h' (element st)) in
      match Element.current est with
      | None => Throw "TypeError: elementRef.current is undefined"
      | Some el =>
          let att :=
            Attribution.useAttribution
              {| Attribution.map_ref := map context;
                 Attribution.attributionControl := control |}
              (Props.as_string (Props.field h props "attribution"))
              (attribution st) in
          let ev :=
            Events.useEventHandlers el
              (Props.as_object (Props.field h props "eventHandlers"))
              (events st) in
          let lc := useLifecycle h el context props (lifecycle st) in
          Ok (State est att ev lc)
      end
  end.
End hook.
End DivOverlay.

(** ** generic.ts (src/unnamed/part_001) *)
Module Generic.
Section factories.
Context {W : Type}.
Variable createElement :
  list (gmap string Pane.val) → objref → LeafletContextInterface → W →
  LeafletElement objref * W.
Variable updateElement :
  option (list (gmap string Pane.val) → objref → objref → objref → W → W).

Definition useElement :=
  Element.createElementHook (Props.lift_create createElement)
    (Props.lift_update <$> updateElement).

(** The component [createPathComponent] returns, rendered under the
    context [ambient]. *)
Definition createPathComponent (ambient : option LeafletContextInterface) :=
  Component.ContainerComponent Path.current Path.store
    (Path.usePath useElement ambient).
End factories.

(** The component [createOverlayComponent] returns, rendered under the
    context [ambient]. *)
Definition createOverlayComponent {W L : Type}
    (createElement : list (gmap string Pane.val) → objref →
                     LeafletContextInterface → W → LeafletElement objref * W)
    (useLifecycle : list (gmap string Pane.val) → LeafletElement objref →
                    LeafletContextInterface → objref → L → L)
    (ambient : option LeafletContextInterface) (control : option objref) :=
  Component.OverlayComponent DivOverlay.current DivOverlay.store
    (DivOverlay.useDivOverlay
       (Element.createElementHook (Props.lift_create createElement) None)
       useLifecycle ambient control).

(** An overlay component rendered again and again: the state [isOpen],
    the content node of the instance, the ambient context, the
    attribution control of its map and the props of each render. *)
Fixpoint rerender_overlay {W L : Type}
    (createElement : list (gmap string Pane.val) → objref →
                     LeafletContextInterface → W → LeafletElement objref * W)
    (useLifecycle : list (gmap string Pane.val) → LeafletElement objref →
                    LeafletContextInterface → objref → L → L)
    (inputs : list (bool * option objref * LeafletContextInterface
                    * option objref * objref))
    (st : @Component.overlay_state (@DivOverlay.state W L) objref)
    : result (@Component.overlay_state (@DivOverlay.state W L) objref) :=
  match inputs with
  | [] => Ok st
  | i :: rest =>
      match createOverlayComponent createElement useLifecycle
              (Some i.1.1.2) i.1.2 i.1.1.1.1 i.1.1.1.2 i.2 st with
      | Ok (st', _) => rerender_overlay createElement useLifecycle rest st'
      | Throw msg => Throw msg
      end
  end.
End Generic.

(** ** circle.ts and the Circle component (src/unnamed/part_005) *)
Module Circle.

(** Modelled from the spec: Leaflet's circle (of the consumed backend
    API), as far as [setLatLng] and [setRadius] reach: the center and the
    radius the circle was last given, by its constructor or by a setter,
    and the options it was made from.  Errors raised inside Leaflet are
    not modelled. *)
Record t : Type := Make {
  latlng : Pane.val;
  mRadius : Pane.val;
  options : gmap string Pane.val;
}.

(** The circles made so far, and the identity of the next object. *)
Record world : Type := World {
  circles : gmap objref t;
  next : objref;
}.

Definition setLatLng (layer : objref) (center : Pane.val) (w : world)
    : world :=
  World (alter (λ c, Make center (mRadius c) (options c)) layer (circles w))
        (next w).

Definition setRadius (layer : objref) (radius : Pane.val) (w : world)
    : world :=
  World (alter (λ c, Make (latlng c) radius (options c)) layer (circles w))
        (next w).

(** [updateCircle(layer, props, prevProps)] *)
Definition updateCircle (h : list (gmap string Pane.val)) (layer : objref)
    (props prevProps : objref) (w : world) : world :=
  let w1 :=
    if bool_decide (Props.field h props "center"
                    ≠ Props.field h prevProps "center")
    then setLatLng layer (Props.field h props "center") w
    else w in
  if negb (Props.is_nullish (Props.field h props "radius"))
     && bool_decide (Props.field h props "radius"
                     ≠ Props.field h prevProps "radius")
  then setRadius layer (Props.field h props "radius") w1
  else w1.

(** [createCircle({ center, children: _c, ...options }, ctx)]: the
    circle, the context and the element object are new objects.  A
    circle made from options without a radius has Leaflet's default
    radius, 10.  Leaflet's constructor throws when the radius it is given
    is not a number; the statements on the radius are made for first
    props whose radius, if they have one, is a number. *)
Definition createCircle (h : list (gmap string Pane.val)) (props : objref)
    (ctx : LeafletContextInterface) (w : world)
    : LeafletElement objref * world :=
  let center := Props.field h props "center" in
  let options := delete "children" (delete "center" (Pane.deref h props)) in
  let circle := next w in
  let extended :=
    Context.extendContext (S circle) ctx
      {| Context.p__version := None; Context.p_map := None;
         Context.p_layerContainer := None; Context.p_layersControl := None;
         Context.p_overlayContainer := Some (Some circle);
         Context.p_pane := None |} in
  (createElementObject (S (S circle)) circle extended Undefined,
   World (<[circle := Make center
                         (default (Pane.VNumber 10) (options !! "radius"))
                         options]>
            (circles w))
         (S (S (S circle)))).

(** [Circle = createPathComponent(createCircle, updateCircle)] *)
Definition Circle :=
  Generic.createPathComponent createCircle (Some updateCircle).

Definition init (h : list (gmap string Pane.val)) (next : objref)
    (b : gmap objref (gset objref)) : @Path.hook_state world :=
  Path.hook_init h (World ∅ next) b.

(** The circle of a mounted component. *)
Definition shown (st : @Path.hook_state world) : option t :=
  el ← Path.current st;
  circles (Element.world (Element.st_env (Path.element st))).2
    !! instance el.

(** A mounted circle rendered again and again, under the contexts and
    with the props of [inputs]. *)
Fixpoint rerender (inputs : list (LeafletContextInterface * objref))
    (st : @Path.hook_state world) : result (@Path.hook_state world) :=
  match inputs with
  | [] => Ok st
  | i :: rest =>
      match Circle (Some i.1) i.2 st with
      | Ok (st', _) => rerender rest st'
      | Throw msg => Throw msg
      end
  end.

End Circle.

(** ** updateGridLayer (src/packages/core/src/context.ts) *)
Module GridLayer.

(** Modelled from the spec: [setOpacity]/[setZIndex] of the consumed
    backend API; the options of a Leaflet grid layer that the updater
    sets, as last given. *)
Record t : Type := Make {
  opacity : Pane.val;
  zIndex : Pane.val;
}.

Definition setOpacity (layer : objref) (v : Pane.val) (w : gmap objref t)
    : gmap objref t :=
  alter (λ l, Make v (zIndex l)) layer w.

Definition setZIndex (layer : objref) (v : Pane.val) (w : gmap objref t)
    : gmap objref t :=
  alter (λ l, Make (opacity l) v) layer w.

(** [updateGridLayer(layer, props, prevProps)] *)
Definition updateGridLayer (h : list (gmap string Pane.val)) (layer : objref)
    (props prevProps : objref) (w : gmap objref t) : gmap objref t :=
  let opacity := Props.field h props "opacity" in
  let zIndex := Props.field h props "zIndex" in
  let w1 :=
    if negb (Props.is_nullish opacity)
       && bool_decide (opacity ≠ Props.field h prevProps "opacity")
    then setOpacity layer opacity w
    else w in
  if negb (Props.is_nullish zIndex)
     && bool_decide (zIndex ≠ Props.field h prevProps "zIndex")
  then setZIndex layer zIndex w1
  else w1.

End GridLayer.

(** ** media-overlay.ts (src/unnamed/part_004) *)
Module MediaOverlay.

(** Modelled from the spec: [setBounds]/[setOpacity]/[setZIndex] of the
    consumed backend API; what of a Leaflet image, SVG or video overlay
    the updater sets, as last given. *)
Record t : Type := Make {
  bounds : Pane.val;
  opacity : Pane.val;
  zIndex : Pane.val;
}.

Definition setBounds (overlay : objref) (v : Pane.val) (w : gmap objref t)
    : gmap objref t :=
  alter (λ o, Make v (opacity o) (zIndex o)) overlay w.

Definition setOpacity (overlay : objref) (v : Pane.val) (w : gmap objref t)
    : gmap objref t :=
  alter (λ o, Make (bounds o) v (zIndex o)) overlay w.

Definition setZIndex (overlay : objref) (v : Pane.val) (w : gmap objref t)
    : gmap objref t :=
  alter (λ o, Make (bounds o) (opacity o) v) overlay w.

Section updater.
(** The objects that are instances of Leaflet's [LatLngBounds]. *)
Variable LatLngBounds : objref → bool.

(** [v instanceof LatLngBounds] *)
Definition instanceof_LatLngBounds (v : Pane.val) : bool :=
  match v with
  | Pane.VObject r => LatLngBounds r
  | _ => false
  end.

(** [updateMediaOverlay(overlay, props, prevProps)] *)
Definition updateMediaOverlay (h : list (gmap string Pane.val))
    (overlay : objref) (props prevProps : objref) (w : gmap objref t)
    : gmap objref t :=
  let w1 :=
    if instanceof_LatLngBounds (Props.field h props "bounds")
       && bool_decide (Props.field h props "bounds"
                       ≠ Props.field h prevProps "bounds")
    then setBounds overlay (Props.field h props "bounds") w
    else w in
  let w2 :=
    if negb (Props.is_nullish (Props.field h props "opacity"))
       && bool_decide (Props.field h props "opacity"
                       ≠ Props.field h prevProps "opacity")
    then setOpacity overlay (Props.field h props "opacity") w1
    else w1 in
  if negb (Props.is_nullish (Props.field h props "zIndex"))
     && bool_decide (Props.field h props "zIndex"
                     ≠ Props.field h prevProps "zIndex")
  then setZIndex overlay (Props.field h props "zIndex") w2
  else w2.
End updater.
End MediaOverlay.

(** The updates an element hook makes over the renders of a component:
    each with the props of the render before as previous props. *)
Module Updates.
Fixpoint run {E W : Type}
    (updateElement : list (gmap string Pane.val) → E → objref → objref →
                     W → W)
    (h : list (gmap string Pane.val)) (inst : E) (prevProps : objref)
    (renders : list objref) (w : W) : W :=
  match renders with
  | [] => w
  | props :: rest =>
      run updateElement h inst props rest
        (updateElement h inst props prevProps w)
  end.
End Updates.

(** ** MapContainer (src/packages/react-leaflet/src/AttributionControl.tsx) *)
Module MapContainer.

Inductive call : Type :=
  | NewMap (map node : objref) (options : gmap string Pane.val)
  | SetView (map : objref) (center zoom : Pane.val)
  | FitBounds (map : objref) (bounds boundsOptions : Pane.val)
  | WhenReady (map : objref) (callback : Pane.val)
  | Remove (map : objref).

Definition is_newMap (c : call) : bool :=
  match c with NewMap _ _ _ => true | _ => false end.

Definition is_remove (c : call) : bool :=
  match c with Remove _ => true | _ => false end.

(** What the closures share: the [context] state cell, the identity of
    the next object, the calls made on Leaflet. *)
Record env : Type := Env {
  context : option LeafletContextInterface;
  next : objref;
  calls : list call;
}.

(** The keys the component takes out of its props; [...options] is the
    rest. *)
Definition own_keys : list string :=
  ["bounds"; "boundsOptions"; "center"; "children"; "className"; "id";
   "placeholder"; "style"; "whenReady"; "zoom"].

Definition rest_options (props : gmap string Pane.val)
    : gmap string Pane.val :=
  foldr delete props own_keys.

(** The callback ref [mapRef], closed over the props and the [context]
    of the render that made it. *)
Definition mapRef (props : gmap string Pane.val)
    (captured : option LeafletContextInterface) (node : option objref)
    (s : env) : env :=
  match node, captured with
  | Some n, None =>
      let map := next s in
      let center := Pane.get props "center" in
      let zoom := Pane.get props "zoom" in
      let bounds := Pane.get props "bounds" in
      let whenReady := Pane.get props "whenReady" in
      let view :=
        if negb (Props.is_nullish center) && negb (Props.is_nullish zoom)
        then [SetView map center zoom]
        else if negb (Props.is_nullish bounds)
        then [FitBounds map bounds (Pane.get props "boundsOptions")]
        else [] in
      let ready :=
        if negb (Props.is_nullish whenReady)
        then [WhenReady map whenReady]
        else [] in
      Env (Some (Context.createLeafletContext (S map) map)) (S (S map))
          (calls s ++ [NewMap map n (rest_options props)] ++ view ++ ready)
  | _, _ => s
  end.

(** The effect and the destroy function it returns,
    [context?.map.remove()], closed over the [context] of the render. *)
Definition cleanup (captured : option LeafletContextInterface) (s : env)
    : env :=
  match captured with
  | Some c => Env (context s) (next s) (calls s ++ [Remove (map c)])
  | None => s
  end.

Definition removeMap (captured : option LeafletContextInterface) (s : env)
    : env * option (env → env) :=
  (s, Some (cleanup captured)).

Record state : Type := State {
  st_env : env;
  (** [useState({ className, id, style })] *)
  div_props : option (Pane.val * Pane.val * Pane.val);
  (** [useCallback(..., [])]: what the callback kept is closed over *)
  mapRef_cell : option (gmap string Pane.val * option LeafletContextInterface);
  (** the [div] React made, once the ref is attached *)
  node : option objref;
  removeMap_slot : option (React.effect (option LeafletContextInterface) env);
}.

Definition init (next : objref) : state :=
  State (Env None next []) None None None None.

Inductive content : Type :=
  | Provided (value : LeafletContextInterface) (children : Pane.val)
  | Placeholder (v : Pane.val).

(** A render: what the forwarded ref is given, the props of the [div]
    and what is inside it. *)
Record rendered : Type := Rendered {
  handle : option objref;
  div : Pane.val * Pane.val * Pane.val;
  inside : content;
}.

Definition MapContainer (props : gmap string Pane.val) (st : state)
    : state * rendered :=
  let s := st_env st in
  let cell :=
    React.useState (div_props st)
      (Pane.get props "className", Pane.get props "id",
       Pane.get props "style") in
  let ctx := context s in
  let callback := default (props, ctx) (mapRef_cell st) in
  (* commit: React attaches the ref of a new div, then runs the effects *)
  let '(n, s1) :=
    match node st with
    | Some n => (n, s)
    | None =>
        let n := next s in
        (n, mapRef callback.1 callback.2 (Some n)
              (Env (context s) (S n) (calls s)))
    end in
  let '(slot, s2) :=
    React.useEffect (removeMap_slot st) ctx (removeMap ctx) s1 in
  (State s2 (Some cell) (Some callback) (Some n) slot,
   Rendered (map <$> ctx) cell
     match ctx with
     | Some c => Provided c (Pane.get props "children")
     | None => Placeholder (Pane.nullish (Pane.get props "placeholder")
                                         Pane.VNull)
     end).

(** The component goes away: React calls the ref with [null], then the
    destroy function of the effect. *)
Definition unmount (st : state) : env :=
  let callback := default (∅, None) (mapRef_cell st) in
  React.run_destroy (removeMap_slot st)
    (mapRef callback.1 callback.2 None (st_env st)).

(** A mounted component rendered again and again; the renders, last
    first. *)
Definition rerender (inputs : list (gmap string Pane.val))
    (st : state * list rendered) : state * list rendered :=
  foldl (λ acc props,
           let '(st', out) := MapContainer props acc.1 in
           (st', out :: acc.2))
        st inputs.

End MapContainer.

(** ** Sample inputs *)
Module Sample.

Definition root : LeafletContextInterface :=
  {| ctx_ref := 1; __version := CONTEXT_VERSION; map := 0;
     layerContainer := None; layersControl := None;
     overlayContainer := None; pane := Undefined |}.

(** A context below a layer group (object 5). *)
Definition grouped : LeafletContextInterface :=
  {| ctx_ref := 2; __version := CONTEXT_VERSION; map := 0;
     layerContainer := Some 5; layersControl := None;
     overlayContainer := None; pane := Undefined |}.

(** A context whose pane name is the empty string. *)
Definition unnamed_pane : LeafletContextInterface :=
  {| ctx_ref := 3; __version := CONTEXT_VERSION; map := 0;
     layerContainer := None; layersControl := None;
     overlayContainer := None; pane := Val "" |}.

(** A layer (object 7) and the element holding it. *)
Definition layer (context : LeafletContextInterface) : LeafletElement objref :=
  createElementObject 70 7 context Undefined.

(** An element with classes [a] and [b], no call made on it yet. *)
Definition div_ab : Dom.HTMLElement := Dom.Element None ["a"; "b"] ∅ [].

(** A control component: props are an identity and a position, the
    control created is object 9. *)
Definition createControl (props : objref * nullable string)
    (context : LeafletContextInterface) (w : unit)
    : LeafletElement objref * unit :=
  (createElementObject 90 9 context Undefined, w).

(** A store with one props object, without fields. *)
Definition bare_props : list (gmap string Pane.val) := [∅].

(** A store with one props object whose pane is [overlayPane]. *)
Definition pane_props : list (gmap string Pane.val) :=
  [{["pane" := Pane.VString "overlayPane"]}].

(** A map with its map pane (node 0) and no other pane, and the props of
    a pane named [labels]. *)
Definition bare_map : LMap.t :=
  LMap.Make 0 ∅ ∅ [Dom.Element None ["leaflet-map-pane"] ∅ []].

Definition labels : PaneProps.t :=
  PaneProps.Make (Val 20) (Val "halo") "labels" Undefined
    (Val [("zIndex", "450")]).


(** A store of props objects for a path: none, the same path options in
    two props objects, other path options, none again (twice). *)
Definition styles : list (gmap string Pane.val) :=
  [∅; {["pathOptions" := Pane.VObject 50]};
   {["pathOptions" := Pane.VObject 50]};
   {["pathOptions" := Pane.VObject 51]}; ∅; ∅].

(** A layer component: the layer created is object 7; the callbacks
    count the updates. *)
Definition createLayer (h : list (gmap string Pane.val)) (props : objref)
    (context : LeafletContextInterface) (w : nat)
    : LeafletElement objref * nat :=
  (createElementObject 70 7 context Undefined, w).

Definition updateLayer (h : list (gmap string Pane.val))
    (instance props prevProps : objref) (w : nat) : nat :=
  S w.

(** A store of props objects for a circle: a center and a radius, another
    center without a radius, and that center with another radius and a
    child. *)
Definition circles : list (gmap string Pane.val) :=
  [{["center" := Pane.VObject 30; "radius" := Pane.VNumber 5]};
   {["center" := Pane.VObject 31]};
   {["center" := Pane.VObject 31; "radius" := Pane.VNumber 9;
     "children" := Pane.VObject 40]}].

(** Props objects for a grid layer: an opacity, another opacity with a
    z-index, neither. *)
Definition tiles : list (gmap string Pane.val) :=
  [{["opacity" := Pane.VNumber 1]};
   {["opacity" := Pane.VNumber 2; "zIndex" := Pane.VNumber 3]}; ∅].

(** Props objects for a media overlay: bounds as a [LatLngBounds] (object
    60), then as an array of corners (object 61). *)
Definition LatLngBounds (r : objref) : bool := bool_decide (r = 60).

Definition overlays : list (gmap string Pane.val) :=
  [{["bounds" := Pane.VObject 60]}; {["bounds" := Pane.VObject 61]}].

End Sample.

(** ** Invariants and the statements examined below *)

(** The net-effect statement of layer attach and detach as the
    specification words it: after a mount and an unmount every layer set
    is what it was. *)
Definition mount_unmount_unchanged (b : gmap objref (gset objref))
    (element : LeafletElement objref) (context : LeafletContextInterface)
    : Prop :=
  ∀ c, Leaflet.layersOf
         (Layer.layers (Layer.st_env (Layer.unmount
            (Layer.useLayerLifecycle element context (Layer.init b))))) c
       = Leaflet.layersOf b c.

(** The class strings and names the model of the DOM covers: printable
    ASCII characters, in a class string also blanks.  On a token that
    holds other white space (a tab, a line break) [DomUtil.addClass] adds
    each of its words and [classList.remove] throws, which the model does
    not follow; the statements on class lists are made for plain
    strings. *)
Fixpoint all_chars (P : ascii → bool) (s : string) : bool :=
  match s with
  | EmptyString => true
  | String c rest => P c && all_chars P rest
  end.

Definition printable (c : ascii) : bool :=
  (33 <=? nat_of_ascii c) && (nat_of_ascii c <=? 126).

Definition plain (className : string) : bool :=
  all_chars (λ c, printable c || bool_decide (c = " "%char)) className.

Definition word (name : string) : bool :=
  bool_decide (name ≠ "") && all_chars printable name.

(** The class-sync statement as the specification words it, for an
    element that starts with an empty call log: [a] is removed, [c] is
    added, and [b] is neither removed nor added. *)
Definition class_b_untouched (el : Dom.HTMLElement) : Prop :=
  ∃ el', Dom.updateClassName (Val el) (Val "a b") (Val "b c") = Val el' ∧
    Dom.RemoveClass "a" ∈ Dom.calls el' ∧
    Dom.AddClass "c" ∈ Dom.calls el' ∧
    (Dom.RemoveClass "b" ∉ Dom.calls el') ∧
    (Dom.AddClass "b" ∉ Dom.calls el').

(** The event hook between two activations, last rendered with [element]
    and [eventHandlers]. *)
Record installed (element : LeafletElement objref)
    (eventHandlers : nullable objref) (st : Events.state) : Prop := {
  installed_slot :
    Events.addEventHandlers_slot st
    = Some (React.Effect (element, eventHandlers)
              (Some (Events.removeEventHandlers element)));
  installed_ref : Events.eventHandlersRef (Events.st_env st) = eventHandlers;
  installed_listeners :
    Events.listeners (Events.calls (Events.st_env st))
    = match eventHandlers with
      | Val h => [(instance element, h)]
      | _ => []
      end;
  installed_prefix : ∀ pre,
    pre `prefix_of` Events.calls (Events.st_env st) →
    length (Events.listeners pre) ≤ 1;
}.

(** The attribution hook between two activations, last rendered with
    [attribution] on the map [r]. *)
Record tracking (r : objref) (attribution : nullable string)
    (st : Attribution.state) : Prop := {
  tracking_slot :
    Attribution.updateAttribution_slot st
    = Some (React.Effect (r, attribution) None);
  tracking_ref :
    Attribution.attributionRef (Attribution.st_env st) = Some attribution;
}.

(** [v] is neither [undefined] nor [null]. *)
Definition defined (v : Pane.val) : Prop :=
  v ≠ Pane.VUndefined ∧ v ≠ Pane.VNull.

(** The statement on [withPane] as the specification words it. *)
Definition withPane_as_stated (props : objref)
    (context : LeafletContextInterface) (h : list (gmap string Pane.val))
    : Prop :=
  let r := (Pane.withPane props context h).1 in
  let h' := (Pane.withPane props context h).2 in
  let own := Pane.get (Pane.deref h props) "pane" in
  let ambient := Pane.of_nullable (pane context) in
  (defined own → Pane.get (Pane.deref h' r) "pane" = own) ∧
  (¬ defined own → defined ambient →
   Pane.get (Pane.deref h' r) "pane" = ambient) ∧
  (¬ defined own → ¬ defined ambient → r = props ∧ h' = h) ∧
  (∀ k, k ≠ "pane" →
     Pane.get (Pane.deref h' r) k = Pane.get (Pane.deref h props) k).

(** The pane component between two renders, mounted under [name] with
    the environment [s] its mount left. *)
Record pane_ready (name : string) (s : PaneComponent.env)
    (st : PaneComponent.state) : Prop := {
  ready_name : PaneComponent.paneName st = Some name;
  ready_env : PaneComponent.st_env st = s;
  ready_slot :
    PaneComponent.createPane_slot st
    = Some (React.Effect tt (Some (PaneComponent.removeCreatedPane name)));
  ready_context :
    match PaneComponent.newContext st with
    | Some (_, v) => pane v = Val name
    | None => True
    end;
}.

(** The element hook and the control hook between activations. *)
Section invariants.
Context {E P W : Type}.

(** A mounted mutable element between two activations: the element is in
    its ref, the props last rendered are in [propsRef] and are the ones
    the effect last ran with, and no update was ever called with the
    same object as old and new props. *)
Record mounted (el : LeafletElement E) (applied : P) (st : @Element.state E P W) : Prop := {
  mounted_element : Element.elementRef (Element.st_env st) = Some el;
  mounted_props : Element.propsRef (Element.st_env st) = Some applied;
  mounted_slot : ∃ c,
    Element.updateElementProps st
    = Some (React.Effect (instance el, applied, c) None);
  mounted_distinct : ∀ i q r,
    Element.UpdateElement i q r ∈ Element.calls (Element.st_env st) → q ≠ r;
}.

Variable updateElement : option (E → P → P → W → W).

(** The element hook a control hook wraps, between two activations. *)
Definition element_kept (el : LeafletElement E)
    (est : @Element.state E P W) : Prop :=
  match updateElement with
  | None => Element.elementRef (Element.st_env est) = Some el
  | Some _ => ∃ applied, mounted el applied est
  end.

(** The control hook between two activations: [first] is the call that
    made the element [el] on mount, [current] the position in
    [positionRef], [pos] and [m] the position and the map of the last
    render. *)
Record placed (first : @Element.call E P) (el : LeafletElement E)
    (current pos : nullable string) (m : objref)
    (st : @Control.state E P W) : Prop := {
  placed_element : element_kept el (Control.element st);
  placed_created :
    filter (λ c, Element.is_create c = true)
      (Element.calls (Element.st_env (Control.element st))) = [first];
  placed_ref : Control.positionRef (Control.st_env st) = Some current;
  placed_addControl :
    Control.addControl_slot st
    = Some (React.Effect (m, instance el)
              (Some (Control.removeControl (instance el))));
  placed_updateControl :
    Control.updateControl_slot st = Some (React.Effect (instance el, pos) None);
  placed_applied : is_val pos = true → current = pos;
}.

(** The [setPosition] calls of one activation. *)
Definition position_calls (inst : E) (current pos : nullable string)
    : list (@Control.call E) :=
  match pos with
  | Val p => if decide (pos = current) then [] else [Control.SetPosition inst p]
  | _ => []
  end.

Definition next_position (current pos : nullable string) : nullable string :=
  match pos with Val _ => pos | _ => current end.
End invariants.

(** The calls one activation makes, given the attribution last rendered. *)
Definition attribution_calls (map : Attribution.LeafletMap)
    (previous attribution : nullable string) : list Attribution.call :=
  if decide (attribution = previous) then []
  else match Attribution.attributionControl map with
       | Some control =>
           match previous with
           | Val prev => [Attribution.RemoveAttribution control prev]
           | _ => []
           end ++
           match attribution with
           | Val next => [Attribution.AddAttribution control next]
           | _ => []
           end
       | None => []
       end.

(** The [addTo] and [remove] calls of a mounted control: the log starts
    with the [addTo] of the mount on the map [m0], has one more [addTo]
    than [remove], and every call is on the instance created on mount. *)
Definition on_map {E : Type} (inst : E) (m0 : objref)
    (cs : list (@Control.call E)) : Prop :=
  head cs = Some (Control.AddTo inst m0) ∧
  length (filter (λ c, History.is_addTo c = true) cs)
  = S (length (filter (λ c, History.is_remove c = true) cs)) ∧
  ∀ c, c ∈ cs →
    match c with
    | Control.AddTo i _ | Control.Remove i | Control.SetPosition i _ => i = inst
    end.

(** The context a mounted pane component has memoised, if any, is the
    ambient one it was computed from with the pane replaced by [name]. *)
Definition pane_memo (name : string) (st : PaneComponent.state) : Prop :=
  match PaneComponent.newContext st with
  | Some (d, v) => ∃ r, v = PaneComponent.with_pane d name r
  | None => True
  end.

(** The pane [createPane] puts a new pane under: the one named by the
    props, else the ambient one of the context, if the map has it. *)
Definition parent_pane (props : PaneProps.t)
    (context : LeafletContextInterface) (m : LMap.t) : option objref :=
  match nullish (PaneProps.pane props) (pane context) with
  | Val n => if Dom.truthy n then LMap.getPane n m else None
  | _ => None
  end.

(** The [setStyle] calls of renders whose [pathOptions] is never dropped:
    one for each render whose [pathOptions] is not the value of the
    render before ([prev] at first). *)
Fixpoint style_changes (prev : Pane.val)
    (renders : list (LeafletElement objref * Pane.val)) : list Path.call :=
  match renders with
  | [] => []
  | (el, v) :: rest =>
      (if decide (v = prev) then []
       else [Path.SetStyle (instance el) (Path.FromProps v)])
      ++ style_changes v rest
  end.

(** The path options hook between two activations while no [pathOptions]
    was dropped: [optionsRef] holds the value of the last render. *)
Record styled (h : list (gmap string Pane.val)) (prev : Pane.val)
    (st : Path.state) : Prop := {
  styled_ref : Path.optionsRef (Path.st_env st) = Path.FromProps prev;
  styled_slot :
    match Path.updatePathOptions_slot st with
    | None => True
    | Some e =>
        React.destroy e = None ∧
        Props.field h (React.deps e).2 "pathOptions" = prev
    end;
}.

(** [optionsRef] holds an object: a style was applied. *)
Definition applied (s : Path.env) : Prop :=
  match Path.optionsRef s with
  | Path.FromProps v => Props.is_nullish v = false
  | Path.Literal _ => True
  end.

(** The path options hook between two activations once a style was
    applied, last rendered with the element and props [prev]. *)
Record restyled (prev : LeafletElement objref * objref) (st : Path.state)
    : Prop := {
  restyled_slot :
    Path.updatePathOptions_slot st = Some (React.Effect prev None);
  restyled_applied : applied (Path.st_env st);
}.

(** The element hook of a layer component between two activations, on a
    store that began as [h0]: the store only grew, and the props last
    applied are in it. *)
Record in_store {E W : Type} (h0 : list (gmap string Pane.val))
    (el : LeafletElement E) (applied : objref)
    (est : @Element.state E objref (list (gmap string Pane.val) * W))
    : Prop := {
  in_store_mounted : mounted el applied est;
  in_store_applied : applied < length (Props.store est);
  in_store_prefix : h0 `prefix_of` Props.store est;
}.

(** The layer hook between two activations, last rendered with [element]
    under [context]: the layer is in the layer set [context] names. *)
Record in_container (element : LeafletElement objref)
    (context : LeafletContextInterface) (st : Layer.state) : Prop := {
  in_container_slot :
    Layer.addLayer_slot st
    = Some (React.Effect (context, element)
              (Some (Layer.removeLayer element context)));
  in_container_layer :
    instance element
    ∈ Leaflet.layersOf (Layer.layers (Layer.st_env st))
        (default (map context) (layerContainer context));
}.

(** Every [addLayer] call of a log is followed by a [removeLayer] call on
    the same container for the same layer. *)
Fixpoint paired (cs : list Layer.call) : Prop :=
  match cs with
  | [] => True
  | Layer.AddLayer c l :: rest => Layer.RemoveLayer c l ∈ rest ∧ paired rest
  | Layer.RemoveLayer _ _ :: rest => paired rest
  end.

(** The [removeLayer] calls of the destroy function. *)
Definition removals (element : LeafletElement objref)
    (context : LeafletContextInterface) : list Layer.call :=
  match layerContainer context with
  | Some c => [Layer.RemoveLayer c (instance element)]
  | None => []
  end ++ [Layer.RemoveLayer (map context) (instance element)].

(** The layer hook between two activations, last rendered with [element]
    under [context]: its last call added the layer to what [context]
    names, the calls before are paired, and the layer is there. *)
Record hooked (element : LeafletElement objref)
    (context : LeafletContextInterface) (st : Layer.state) : Prop := {
  hooked_container : in_container element context st;
  hooked_calls : ∃ pre,
    Layer.calls (Layer.st_env st)
    = pre ++ [Layer.AddLayer (default (map context) (layerContainer context))
                (instance element)] ∧
    paired pre;
}.

(** A layer component between two activations on a store of props that
    began as [h0], last rendered under [c]: its element is [el], its
    handlers are installed on it, and its layer hook was last rendered
    with [el] under [c]. *)
Record layer_up {W : Type} (h0 : list (gmap string Pane.val))
    (el : LeafletElement objref) (c : LeafletContextInterface)
    (st : @LayerHook.state W) : Prop := {
  up_element : ∃ applied, in_store h0 el applied (LayerHook.element st);
  up_attribution : ∃ r a, tracking r a (LayerHook.attribution st);
  up_events : ∃ eh, installed el eh (LayerHook.events st);
  up_lifecycle : hooked el c (LayerHook.lifecycle st);
}.

(** A circle component between two activations, on a store of props that
    began as [h0]: [el] is its element, [src] the props of the last
    render, [rad] the radius the circle has. *)
Record circle_up (h0 : list (gmap string Pane.val))
    (el : LeafletElement objref) (src : objref) (rad : Pane.val)
    (st : @Path.hook_state Circle.world) : Prop := {
  circle_element : ∃ applied,
    in_store h0 el applied (Path.element st) ∧
    ∀ k, k ≠ "pane" →
      Props.field (Path.store st) applied k = Props.field h0 src k;
  circle_src : src < length h0;
  circle_shown : ∃ c,
    Circle.circles (Element.world (Element.st_env (Path.element st))).2
      !! instance el = Some c ∧
    Circle.latlng c = Props.field h0 src "center" ∧
    Circle.mRadius c = rad;
  circle_radius :
    Props.is_nullish (Props.field h0 src "radius") = false →
    Props.field h0 src "radius" = rad;
  circle_layer : ∃ c, in_container el c (Path.lifecycle st);
}.

(** A map container between two activations: it was mounted with the
    props [p0] when [n] was the next identity (the [div] is [n], the map
    the object after it, the context the one after that); [seen] tells
    whether a render saw the context yet, [cs] are the calls made. *)
Record map_up (p0 : gmap string Pane.val) (n : objref) (seen : bool)
    (cs : list MapContainer.call) (st : MapContainer.state) : Prop := {
  map_up_context :
    MapContainer.context (MapContainer.st_env st)
    = Some (Context.createLeafletContext (S (S n)) (S n));
  map_up_calls : MapContainer.calls (MapContainer.st_env st) = cs;
  map_up_div :
    MapContainer.div_props st
    = Some (Pane.get p0 "className", Pane.get p0 "id", Pane.get p0 "style");
  map_up_ref : MapContainer.mapRef_cell st = Some (p0, None);
  map_up_node : MapContainer.node st = Some n;
  map_up_slot :
    let c := if seen
             then Some (Context.createLeafletContext (S (S n)) (S n))
             else None in
    MapContainer.removeMap_slot st
    = Some (React.Effect c (Some (MapContainer.cleanup c)));
}.

(** The [update] calls of an overlay component over renders with the
    given [isOpen] and children: one for each render that is open and
    whose [isOpen] or children are not those of the render before. *)
Fixpoint overlay_updates (inst : objref) (prev : bool * Pane.val)
    (renders : list (bool * Pane.val))
    : list (@Component.overlay_call objref) :=
  match renders with
  | [] => []
  | r :: rest =>
      (if r.1 && negb (bool_decide (r = prev)) then [Component.Update inst]
       else [])
      ++ overlay_updates inst r rest
  end.

(** An overlay component between two activations, on a store of props
    that began as [h0]: [el] is its element, [prev] the [isOpen] and the
    children of the last render. *)
Record overlay_up {W L : Type} (h0 : list (gmap string Pane.val))
    (el : LeafletElement objref) (prev : bool * Pane.val)
    (st : @Component.overlay_state (@DivOverlay.state W L) objref)
    : Prop := {
  overlay_element :
    Element.elementRef
      (Element.st_env (DivOverlay.element (Component.hook st))) = Some el;
  overlay_prefix : h0 `prefix_of` DivOverlay.store (Component.hook st);
  overlay_slot :
    Component.updateOverlay_slot st
    = Some (React.Effect (instance el, prev.1, prev.2) None);
}.

(** * Properties *)

Lemma default_last_cons {A} (a x : A) (l : list A) :
  default a (last (x :: l)) = default x (last l).
Proof.
  revert a x. induction l as [|y l IH]; intros a x; [done|].
  change (last (x :: y :: l)) with (last (y :: l)).
  by rewrite (IH a y), (IH x y).
Qed.

(** ** The element hook *)
Section element_facts.
Context {E P W : Type} `{EqDecision E, EqDecision P}.
Variable createElement :
  P → LeafletContextInterface → W → LeafletElement E * W.

Implicit Types (st : @Element.state E P W) (s : @Element.env E P W).
Implicit Types (props p q : P) (context : LeafletContextInterface).

Lemma create_once_mounted props context s el :
  Element.elementRef s = Some el →
  Element.create_once createElement props context s = s.
Proof. intros Hel. unfold Element.create_once. by rewrite Hel. Qed.

Lemma create_once_init props context w :
  Element.create_once createElement props context (Element.Env None None w [])
  = Element.Env (Some (createElement props context w).1) None
      (createElement props context w).2
      [Element.CreateElement props context].
Proof.
  unfold Element.create_once; simpl.
  by destruct (createElement props context w).
Qed.


Lemma mutable_first updateElement props context w :
  let st := Element.useMutableLeafletElement createElement updateElement
              props context (Element.init w) in
  mounted (createElement props context w).1 props st ∧
  Element.calls (Element.st_env st) = [Element.CreateElement props context].
Proof.
  unfold Element.useMutableLeafletElement, Element.init; simpl.
  rewrite create_once_init; simpl.
  unfold React.useEffect, React.commit_create, React.commit_destroy; simpl.
  unfold Element.updateElementProps_body; simpl.
  rewrite bool_decide_eq_false_2 by (intros Hne; by apply Hne).
  simpl. split; [|done].
  split; simpl; [done|done|by eexists|].
  intros i q r Hin. apply list_elem_of_singleton in Hin. discriminate.
Qed.

Lemma mutable_step updateElement el applied st props context :
  mounted el applied st →
  let st' := Element.useMutableLeafletElement createElement updateElement
               props context st in
  mounted el props st' ∧
  Element.calls (Element.st_env st')
  = Element.calls (Element.st_env st)
    ++ (if decide (props = applied) then []
        else [Element.UpdateElement (instance el) props applied]).
Proof.
  intros [Hel Hprops [c Hslot] Hdist].
  destruct st as [[eref pref w cs] slot]; simpl in *; subst.
  unfold Element.useMutableLeafletElement; simpl.
  unfold React.useEffect, React.commit_create, React.commit_destroy; simpl.
  destruct (decide (props = applied)) as [->|Hne].
  - case_bool_decide as Hd; simpl.
    + unfold Element.updateElementProps_body; simpl.
      rewrite bool_decide_eq_false_2 by (intros Hx; by apply Hx).
      simpl. rewrite app_nil_r. split; [|done].
      split; simpl; [done|done|by eexists|done].
    + simpl. rewrite app_nil_r. split; [|done].
      split; simpl; [done|done|by eexists|done].
  - rewrite bool_decide_eq_true_2 by congruence. simpl.
    unfold Element.updateElementProps_body; simpl.
    rewrite bool_decide_eq_true_2 by congruence. simpl.
    split; [|done].
    split; simpl; [done|done|by eexists|].
    intros i q r Hin. apply elem_of_app in Hin as [Hin|Hin]; [by eapply Hdist|].
    apply list_elem_of_singleton in Hin. by simplify_eq.
Qed.

Lemma mutable_rerender updateElement el applied st inputs :
  mounted el applied st →
  mounted el (default applied (last (inputs.*1)))
    (Element.rerender
       (Element.useMutableLeafletElement createElement updateElement)
       inputs st) ∧
  filter (λ c, Element.is_create c = true)
    (Element.calls (Element.st_env
       (Element.rerender
          (Element.useMutableLeafletElement createElement updateElement)
          inputs st)))
  = filter (λ c, Element.is_create c = true)
      (Element.calls (Element.st_env st)).
Proof.
  revert applied st. induction inputs as [|[p c] inputs IH]; intros last0 st Hm.
  - done.
  - simpl.
    destruct (mutable_step updateElement el last0 st p c Hm) as [Hm' Hcalls].
    destruct (IH _ _ Hm') as [IH1 IH2]. split.
    + simpl. by rewrite default_last_cons.
    + rewrite IH2, Hcalls, filter_app.
      destruct (decide (p = last0)); simpl; by rewrite ?app_nil_r.
Qed.

Lemma immutable_rerender el inputs st :
  Element.elementRef (Element.st_env st) = Some el →
  Element.rerender (Element.useImmutableLeafletElement createElement)
    inputs st = st.
Proof.
  intros Hel. induction inputs as [|[p c] inputs IH]; [done|]. simpl.
  unfold Element.useImmutableLeafletElement at 2.
  rewrite (create_once_mounted _ _ _ el Hel). by destruct st.
Qed.

(** C1: on its first activation the activator made by [createElementHook]
    calls [createElement] and keeps the element; however often and with
    whatever props and contexts the component is rendered again, the ref
    still holds that very element (so the same backend instance) and
    [createElement] has been called exactly once, namely on the first
    activation. *)
Theorem createElementHook_creates_once
    (updateElement : option (E → P → P → W → W)) (w : W) props context
    (rest : list (P * LeafletContextInterface)) :
  let useElement := Element.createElementHook createElement updateElement in
  let first := useElement props context (Element.init w) in
  let st := Element.rerender useElement rest first in
  Element.current first = Some (createElement props context w).1 ∧
  Element.current st = Element.current first ∧
  filter (λ c, Element.is_create c = true) (Element.calls (Element.st_env first))
  = [Element.CreateElement props context] ∧
  filter (λ c, Element.is_create c = true) (Element.calls (Element.st_env st))
  = [Element.CreateElement props context].
Proof.
  destruct updateElement as [u|]; simpl.
  - destruct (mutable_first u props context w) as [Hm Hcalls].
    destruct (mutable_rerender u _ _ _ rest Hm) as [Hm' Hfilter].
    unfold Element.current.
    rewrite (mounted_element _ _ _ Hm), (mounted_element _ _ _ Hm').
    rewrite Hfilter, Hcalls. done.
  - assert (Hfirst : Element.useImmutableLeafletElement createElement
              props context (Element.init w)
            = Element.State
                (Element.Env (Some (createElement props context w).1) None
                   (createElement props context w).2
                   [Element.CreateElement props context]) None).
    { unfold Element.useImmutableLeafletElement, Element.init; simpl.
      by rewrite create_once_init. }
    rewrite (immutable_rerender (createElement props context w).1);
      rewrite Hfirst; [|done].
    split_and!; try done. by rewrite create_once_init.
Qed.

End element_facts.


(** ** Layer attach and detach *)

Lemma layersOf_addLayer (c layer k : objref) (b : gmap objref (gset objref)) :
  Leaflet.layersOf (Leaflet.addLayer c layer b) k
  = if decide (c = k) then {[layer]} ∪ Leaflet.layersOf b c
    else Leaflet.layersOf b k.
Proof.
  unfold Leaflet.addLayer. unfold Leaflet.layersOf at 1.
  destruct (decide (c = k)) as [->|Hne].
  - by rewrite lookup_insert_eq.
  - by rewrite lookup_insert_ne.
Qed.

Lemma layersOf_removeLayer (c layer k : objref) (b : gmap objref (gset objref)) :
  Leaflet.layersOf (Leaflet.removeLayer c layer b) k
  = if decide (c = k) then Leaflet.layersOf b c ∖ {[layer]}
    else Leaflet.layersOf b k.
Proof.
  unfold Leaflet.removeLayer. unfold Leaflet.layersOf at 1.
  destruct (decide (c = k)) as [->|Hne].
  - by rewrite lookup_insert_eq.
  - by rewrite lookup_insert_ne.
Qed.

(** What the destroy function does to the layer sets. *)
Lemma layersOf_removeLayer_closure (element : LeafletElement objref)
    (context : LeafletContextInterface) (s : Layer.env) (k : objref) :
  Leaflet.layersOf (Layer.layers (Layer.removeLayer element context s)) k
  = if decide (k = map context ∨ layerContainer context = Some k)
    then Leaflet.layersOf (Layer.layers s) k ∖ {[instance element]}
    else Leaflet.layersOf (Layer.layers s) k.
Proof.
  unfold Layer.removeLayer.
  destruct (layerContainer context) as [c|];
    cbn [Layer.do_removeLayer Layer.layers];
    rewrite !layersOf_removeLayer;
    destruct (decide (k = map context ∨ _)) as [Hd|Hd].
  - destruct (decide (map context = k)) as [<-|Hk].
    + destruct (decide (c = map context)) as [->|Hc]; set_solver.
    + destruct Hd as [?|[= ->]]; [done|]. by rewrite decide_True.
  - rewrite !decide_False; [done| |]; intros Heq; apply Hd; subst; auto.
  - destruct Hd as [->|?]; [|done]. by rewrite decide_True.
  - rewrite !decide_False; [done|]; intros Heq; apply Hd; subst; auto.
Qed.

Lemma useLayerLifecycle_mount (b : gmap objref (gset objref))
    (element : LeafletElement objref) (context : LeafletContextInterface) :
  Layer.useLayerLifecycle element context (Layer.init b)
  = Layer.State
      (Layer.do_addLayer (default (map context) (layerContainer context))
         (instance element) (Layer.Env b []))
      (Some (React.Effect (context, element)
               (Some (Layer.removeLayer element context)))).
Proof. reflexivity. Qed.

(** C3 (as amended): on mount [useLayerLifecycle] adds the layer to the
    context's layerContainer when there is one and to the map otherwise;
    on unmount it removes the layer from the layerContainer (if any) and
    from the map.  Afterwards the layer is in neither of them, also when
    it was in one of them before the mount: the net effect is that the
    layer is absent, not that the layer sets are unchanged.  Detaching
    once more, the layer being already removed, changes no layer set. *)
Theorem useLayerLifecycle_mount_unmount (b : gmap objref (gset objref))
    (element : LeafletElement objref) (context : LeafletContextInterface) :
  let target := default (map context) (layerContainer context) in
  let layer := instance element in
  let mounted := Layer.useLayerLifecycle element context (Layer.init b) in
  let gone := Layer.unmount mounted in
  Layer.calls (Layer.st_env mounted) = [Layer.AddLayer target layer] ∧
  layer ∈ Leaflet.layersOf (Layer.layers (Layer.st_env mounted)) target ∧
  Layer.calls (Layer.st_env gone)
  = Layer.AddLayer target layer
    :: match layerContainer context with
       | Some c => [Layer.RemoveLayer c layer]
       | None => []
       end ++ [Layer.RemoveLayer (map context) layer] ∧
  (layer ∉ Leaflet.layersOf (Layer.layers (Layer.st_env gone)) target) ∧
  (layer ∉ Leaflet.layersOf (Layer.layers (Layer.st_env gone)) (map context)) ∧
  (∀ c, Leaflet.layersOf
          (Layer.layers (Layer.removeLayer element context (Layer.st_env gone))) c
        = Leaflet.layersOf (Layer.layers (Layer.st_env gone)) c).
Proof.
  intros target layer mounted gone.
  assert (Hgone : ∀ c,
    Leaflet.layersOf (Layer.layers (Layer.st_env gone)) c
    = if decide (c = map context ∨ layerContainer context = Some c)
      then (if decide (target = c) then {[layer]} ∪ Leaflet.layersOf b c
            else Leaflet.layersOf b c) ∖ {[layer]}
      else if decide (target = c) then {[layer]} ∪ Leaflet.layersOf b c
           else Leaflet.layersOf b c).
  { intros c.
    change (Layer.st_env gone)
      with (Layer.removeLayer element context
              (Layer.do_addLayer target layer (Layer.Env b []))).
    rewrite layersOf_removeLayer_closure.
    unfold Layer.do_addLayer; cbn [Layer.layers].
    rewrite !layersOf_addLayer.
    by destruct (decide (target = c)) as [Heq|]; [rewrite Heq|]. }
  assert (Htarget : target = map context ∨ layerContainer context = Some target).
  { subst target. destruct (layerContainer context); simpl; auto. }
  split_and!.
  - done.
  - change (Layer.layers (Layer.st_env mounted))
      with (Leaflet.addLayer target layer b).
    rewrite layersOf_addLayer, decide_True by done. set_solver.
  - subst gone mounted target layer. rewrite useLayerLifecycle_mount.
    unfold Layer.unmount, Layer.removeLayer; simpl.
    by destruct (layerContainer context).
  - rewrite Hgone.
    destruct (decide (target = map context ∨ _)) as [_|Hn]; [|done].
    set_solver.
  - rewrite Hgone.
    destruct (decide (map context = map context ∨ _)) as [_|Hn];
      [|exfalso; auto].
    set_solver.
  - intros c. rewrite layersOf_removeLayer_closure.
    destruct (decide (c = map context ∨ _)) as [Hc|Hc]; [|done].
    rewrite Hgone.
    destruct (decide (c = map context ∨ _)) as [_|Hn]; [|done].
    set_solver.
Qed.

(** The layer of the sample is on the map before the component mounts:
    the mount adds nothing, the unmount removes it, and the map's layer
    set has changed. *)
Lemma mount_unmount_changes_present_layer :
  ¬ mount_unmount_unchanged {[0 := {[7]}]} (Sample.layer Sample.root) Sample.root.
Proof.
  intros Hsame. specialize (Hsame 0). revert Hsame.
  change (Layer.st_env (Layer.unmount _))
    with (Layer.removeLayer (Sample.layer Sample.root) Sample.root
            (Layer.do_addLayer 0 7 (Layer.Env {[0 := {[7]}]} []))).
  rewrite layersOf_removeLayer_closure. simpl.
  unfold Leaflet.layersOf at 2. rewrite lookup_singleton_eq. simpl.
  intros Heq. assert (Hin : 7 ∈ ({[7]} : gset objref)) by set_solver.
  rewrite <- Heq in Hin. set_solver.
Qed.


(** ** CSS class sync *)

Lemma elem_of_addClass (x cls : string) (el : Dom.HTMLElement) :
  x ∈ Dom.classList (Dom.addClass cls el) ↔ x = cls ∨ x ∈ Dom.classList el.
Proof.
  unfold Dom.addClass; simpl. case_bool_decide as Hin.
  - split; [auto|]. by intros [->|?].
  - rewrite elem_of_app, list_elem_of_singleton. tauto.
Qed.

Lemma elem_of_removeClass (x cls : string) (el : Dom.HTMLElement) :
  x ∈ Dom.classList (Dom.removeClass cls el) ↔ x ≠ cls ∧ x ∈ Dom.classList el.
Proof. unfold Dom.removeClass; simpl. by rewrite list_elem_of_filter. Qed.

Lemma updateClassName_ab_bc (el : Dom.HTMLElement) :
  Dom.updateClassName (Val el) (Val "a b") (Val "b c")
  = Val (Dom.addClass "c" (Dom.addClass "b"
          (Dom.removeClass "b" (Dom.removeClass "a" el)))).
Proof. reflexivity. Qed.

(** In the sample the call log shows [b] removed and added again. *)
Lemma updateClassName_touches_b : ¬ class_b_untouched Sample.div_ab.
Proof.
  intros (el' & Hrun & _ & _ & Hremove & _).
  rewrite updateClassName_ab_bc in Hrun. injection Hrun as <-.
  apply Hremove. simpl. set_solver.
Qed.

(** C4 (as amended): [updateClassName(el, "a b", "b c")] removes every
    previous token and then adds every next token: the calls are
    removeClass a, removeClass b, addClass b, addClass c, in this order, so
    [b] is removed and added again.  Afterwards the element has the classes
    [b] and [c], not [a], and every other class as before. *)
Theorem updateClassName_removes_all_then_adds_all (el : Dom.HTMLElement) :
  ∃ el', Dom.updateClassName (Val el) (Val "a b") (Val "b c") = Val el' ∧
    Dom.calls el'
    = Dom.calls el ++ [Dom.RemoveClass "a"; Dom.RemoveClass "b";
                       Dom.AddClass "b"; Dom.AddClass "c"] ∧
    ("a" ∉ Dom.classList el') ∧
    ("b" ∈ Dom.classList el') ∧
    ("c" ∈ Dom.classList el') ∧
    (∀ x, x ≠ "a" → x ≠ "b" → x ≠ "c" →
       x ∈ Dom.classList el' ↔ x ∈ Dom.classList el).
Proof.
  eexists. split; [apply updateClassName_ab_bc|]. split_and!.
  - simpl. by rewrite <- !app_assoc.
  - rewrite !elem_of_addClass, !elem_of_removeClass. naive_solver.
  - rewrite !elem_of_addClass. naive_solver.
  - rewrite !elem_of_addClass. naive_solver.
  - intros x Ha Hb Hc.
    rewrite !elem_of_addClass, !elem_of_removeClass. naive_solver.
Qed.


(** ** Event handlers *)

Lemma prefix_snoc_cases {A} (pre l : list A) (x : A) :
  pre `prefix_of` l ++ [x] → pre `prefix_of` l ∨ pre = l ++ [x].
Proof.
  intros [k Hk]. destruct k as [|y k _] using rev_ind.
  - right. by rewrite app_nil_r in Hk.
  - left. rewrite app_assoc in Hk. apply app_inj_tail in Hk as [-> _].
    by apply prefix_app_r.
Qed.

Lemma listeners_snoc (cs : list Events.call) (c : Events.call) :
  Events.listeners (cs ++ [c]) = Events.apply_call (Events.listeners cs) c.
Proof. unfold Events.listeners. by rewrite foldl_snoc. Qed.

Lemma remove_first_head (x : objref * objref) (l : list (objref * objref)) :
  Events.remove_first x (x :: l) = l.
Proof. simpl. by rewrite decide_True. Qed.

(** The destroy function on an installed hook: one [off] for the handler
    map in place (if any), after which nothing is registered. *)
Lemma removeEventHandlers_installed element eventHandlers st :
  installed element eventHandlers st →
  let s := Events.removeEventHandlers element (Events.st_env st) in
  Events.calls s
  = Events.calls (Events.st_env st)
    ++ match eventHandlers with
       | Val h => [Events.Off (instance element) h]
       | _ => []
       end ∧
  Events.eventHandlersRef s = Null ∧
  Events.listeners (Events.calls s) = [] ∧
  ∀ pre, pre `prefix_of` Events.calls s → length (Events.listeners pre) ≤ 1.
Proof.
  intros [Hslot Href Hl Hpre]. unfold Events.removeEventHandlers.
  rewrite Href. destruct eventHandlers as [| |h]; simpl;
    rewrite ?app_nil_r; try done.
  split_and!; try done.
  - by rewrite listeners_snoc, Hl; simpl; rewrite decide_True.
  - intros pre [Hp| ->]%prefix_snoc_cases; [by apply Hpre|].
    rewrite listeners_snoc, Hl; simpl. rewrite decide_True by done. simpl. lia.
Qed.

(** The effect function on a hook with nothing registered. *)
Lemma addEventHandlers_clean element eventHandlers (s : Events.env) :
  Events.listeners (Events.calls s) = [] →
  (∀ pre, pre `prefix_of` Events.calls s → length (Events.listeners pre) ≤ 1) →
  let s' := (Events.addEventHandlers element eventHandlers s).1 in
  Events.calls s'
  = Events.calls s
    ++ match eventHandlers with
       | Val h => [Events.On (instance element) h]
       | _ => []
       end ∧
  installed element eventHandlers
    (Events.State s'
       (Some (React.Effect (element, eventHandlers)
                (Some (Events.removeEventHandlers element))))).
Proof.
  intros Hl Hpre. unfold Events.addEventHandlers.
  destruct eventHandlers as [| |h]; simpl; rewrite ?app_nil_r;
    (split; [done|]); split; simpl; try done.
  - by rewrite listeners_snoc, Hl.
  - intros pre [Hp| ->]%prefix_snoc_cases; [by apply Hpre|].
    by rewrite listeners_snoc, Hl.
Qed.

Lemma useEventHandlers_mount element eventHandlers :
  let st := Events.useEventHandlers element eventHandlers Events.init in
  installed element eventHandlers st ∧
  Events.calls (Events.st_env st)
  = match eventHandlers with
    | Val h => [Events.On (instance element) h]
    | _ => []
    end.
Proof.
  destruct (addEventHandlers_clean element eventHandlers (Events.Env Undefined []))
    as [Hcalls Hinst]; [done| |].
  { intros pre ->%prefix_nil_inv. simpl. lia. }
  split; [exact Hinst|exact Hcalls].
Qed.

Lemma useEventHandlers_step element eventHandlers element' eventHandlers' st :
  installed element eventHandlers st →
  let st' := Events.useEventHandlers element' eventHandlers' st in
  installed element' eventHandlers' st' ∧
  Events.calls (Events.st_env st')
  = Events.calls (Events.st_env st)
    ++ if decide ((element, eventHandlers) = (element', eventHandlers'))
       then []
       else match eventHandlers with
            | Val h => [Events.Off (instance element) h]
            | _ => []
            end ++
            match eventHandlers' with
            | Val h => [Events.On (instance element') h]
            | _ => []
            end.
Proof.
  intros Hinst. pose proof Hinst as [Hslot Href Hl Hpre].
  unfold Events.useEventHandlers. rewrite Hslot.
  unfold React.useEffect, React.commit_create, React.commit_destroy,
    React.deps_changed; cbn [React.deps React.run_destroy].
  destruct (decide ((element, eventHandlers) = (element', eventHandlers')))
    as [Heq|Hne].
  - rewrite bool_decide_eq_false_2 by (intros Hx; by apply Hx).
    injection Heq as <- <-. rewrite app_nil_r.
    split; [|done]. by destruct st.
  - rewrite bool_decide_eq_true_2 by done.
    destruct (removeEventHandlers_installed _ _ _ Hinst)
      as (Hc1 & _ & Hl1 & Hpre1).
    destruct (addEventHandlers_clean element' eventHandlers'
                (Events.removeEventHandlers element (Events.st_env st)) Hl1 Hpre1)
      as [Hc2 Hinst2].
    unfold Events.addEventHandlers in *. simpl in *.
    split; [exact Hinst2|]. by rewrite Hc2, Hc1, <- app_assoc.
Qed.

Lemma useEventHandlers_rerender element eventHandlers inputs st :
  installed element eventHandlers st →
  installed (default (element, eventHandlers) (last inputs)).1
            (default (element, eventHandlers) (last inputs)).2
            (Events.rerender inputs st).
Proof.
  revert element eventHandlers st.
  induction inputs as [|[el eh] inputs IH]; intros element eventHandlers st Hinst;
    [done|].
  simpl. rewrite default_last_cons.
  apply (IH el eh).
  by destruct (useEventHandlers_step _ _ el eh _ Hinst).
Qed.

Lemma unmount_installed element eventHandlers st :
  installed element eventHandlers st →
  Events.calls (Events.st_env (Events.unmount st))
  = Events.calls (Events.st_env st)
    ++ match eventHandlers with
       | Val h => [Events.Off (instance element) h]
       | _ => []
       end ∧
  Events.listeners (Events.calls (Events.st_env (Events.unmount st))) = [] ∧
  ∀ pre, pre `prefix_of` Events.calls (Events.st_env (Events.unmount st)) →
    length (Events.listeners pre) ≤ 1.
Proof.
  intros Hinst. unfold Events.unmount.
  rewrite (installed_slot _ _ _ Hinst). cbn [React.run_destroy Events.st_env].
  destruct (removeEventHandlers_installed _ _ _ Hinst) as (? & _ & ? & ?).
  done.
Qed.

(** C6: however the component was rendered, at every point of the call
    log, up to and including the unmount, at most one handler map is
    registered, and after the unmount none is.  When the handler map
    changes from [map1] to a different [map2], the hook calls [off(map1)]
    and then [on(map2)], nothing else: [map1] alone is registered before,
    nothing between the two calls, [map2] alone after; the unmount then
    removes [map2]. *)
Theorem useEventHandlers_one_generation
    (inputs : list (LeafletElement objref * nullable objref))
    (element : LeafletElement objref) (map1 map2 : objref) :
  map1 ≠ map2 →
  let any := Events.rerender inputs Events.init in
  let st1 := Events.useEventHandlers element (Val map1) any in
  let st2 := Events.useEventHandlers element (Val map2) st1 in
  let i := instance element in
  (∀ pre, pre `prefix_of` Events.calls (Events.st_env (Events.unmount any)) →
     length (Events.listeners pre) ≤ 1) ∧
  Events.listeners (Events.calls (Events.st_env (Events.unmount any))) = [] ∧
  Events.listeners (Events.calls (Events.st_env st1)) = [(i, map1)] ∧
  Events.calls (Events.st_env st2)
  = Events.calls (Events.st_env st1) ++ [Events.Off i map1; Events.On i map2] ∧
  Events.listeners (Events.calls (Events.st_env st1) ++ [Events.Off i map1]) = [] ∧
  Events.listeners (Events.calls (Events.st_env st2)) = [(i, map2)] ∧
  Events.calls (Events.st_env (Events.unmount st2))
  = Events.calls (Events.st_env st2) ++ [Events.Off i map2].
Proof.
  intros Hne any st1 st2 i.
  assert (Hany : any = Events.init ∨ ∃ el eh, installed el eh any).
  { subst any. destruct inputs as [|[el eh] inputs]; [by left|right].
    simpl. destruct (useEventHandlers_mount el eh) as [Hinst _].
    eauto using useEventHandlers_rerender. }
  assert (Hst1 : installed element (Val map1) st1).
  { subst st1. destruct Hany as [->|(el & eh & Hinst)].
    - apply useEventHandlers_mount.
    - by destruct (useEventHandlers_step _ _ element (Val map1) _ Hinst). }
  destruct (useEventHandlers_step _ _ element (Val map2) _ Hst1) as [Hst2 Hc2].
  rewrite decide_False in Hc2 by congruence.
  split_and!.
  - destruct Hany as [->|(el & eh & Hinst)].
    + intros pre ->%prefix_nil_inv. simpl. lia.
    + by apply (unmount_installed el eh).
  - destruct Hany as [->|(el & eh & Hinst)]; [done|].
    by apply (unmount_installed el eh).
  - apply (installed_listeners _ _ _ Hst1).
  - exact Hc2.
  - rewrite listeners_snoc, (installed_listeners _ _ _ Hst1).
    apply remove_first_head.
  - apply (installed_listeners _ _ _ Hst2).
  - by apply (unmount_installed element (Val map2)).
Qed.

(** Handler map 10 replaced by handler map 11 on the sample layer. *)
Lemma useEventHandlers_one_generation_witness :
  Events.calls (Events.st_env
    (Events.rerender [(Sample.layer Sample.root, Val 10);
                      (Sample.layer Sample.root, Val 11)] Events.init))
  = [Events.On 7 10; Events.Off 7 10; Events.On 7 11].
Proof.
  destruct (useEventHandlers_one_generation [] (Sample.layer Sample.root) 10 11)
    as (_ & _ & _ & Hswap & _); [lia|].
  exact Hswap.
Defined.


(** ** Attribution *)


Lemma useAttribution_mount map attribution :
  let st := Attribution.useAttribution map attribution Attribution.init in
  tracking (Attribution.map_ref map) attribution st ∧
  Attribution.calls (Attribution.st_env st) = [].
Proof.
  unfold Attribution.useAttribution, Attribution.init; simpl.
  unfold React.useEffect, React.commit_create, React.commit_destroy; simpl.
  unfold Attribution.updateAttribution; simpl.
  rewrite bool_decide_eq_false_2 by (intros Hx; by apply Hx).
  by split.
Qed.

Lemma useAttribution_step r previous map attribution st :
  tracking r previous st →
  let st' := Attribution.useAttribution map attribution st in
  tracking (Attribution.map_ref map) attribution st' ∧
  Attribution.calls (Attribution.st_env st')
  = Attribution.calls (Attribution.st_env st)
    ++ attribution_calls map previous attribution.
Proof.
  intros [Hslot Href]. destruct st as [[cell cs] slot]; simpl in *; subst.
  unfold Attribution.useAttribution; simpl.
  unfold React.useEffect, React.commit_create, React.commit_destroy; simpl.
  unfold attribution_calls.
  case_bool_decide as Hd; simpl.
  - unfold Attribution.updateAttribution; simpl.
    destruct (decide (attribution = previous)) as [->|Hne].
    + rewrite bool_decide_eq_false_2 by (intros Hx; by apply Hx).
      by split.
    + rewrite bool_decide_eq_true_2 by done. by split.
  - injection Hd as -> ->.
    rewrite decide_True by done. rewrite app_nil_r. by split.
Qed.

Lemma useAttribution_rerender r previous inputs st :
  tracking r previous st →
  ∃ r', tracking r' (default previous (last (inputs.*2)))
          (Attribution.rerender inputs st).
Proof.
  revert r previous st.
  induction inputs as [|[m a] inputs IH]; intros r previous st Htr; [by eexists|].
  simpl. rewrite default_last_cons.
  destruct (useAttribution_step _ _ m a _ Htr) as [Htr' _].
  apply (IH _ _ _ Htr').
Qed.

Lemma count_removeAttribution (text : string) (a : gmap string nat) :
  text ≠ "" →
  Attribution.count (Attribution.removeAttribution text a) text
  = pred (Attribution.count a text).
Proof.
  intros Hne. unfold Attribution.removeAttribution.
  rewrite bool_decide_eq_false_2 by done.
  destruct (Attribution.count a text) as [|n] eqn:Hc; simpl; [done|].
  unfold Attribution.count. by rewrite lookup_insert_eq.
Qed.

Lemma count_addAttribution_ne (text other : string) (a : gmap string nat) :
  text ≠ other →
  Attribution.count (Attribution.addAttribution text a) other
  = Attribution.count a other.
Proof.
  intros Hne. unfold Attribution.addAttribution.
  case_bool_decide; [done|].
  unfold Attribution.count at 1. by rewrite lookup_insert_ne.
Qed.




(** ** Controls *)
Section control_facts.
Context {E P W : Type} `{EqDecision E, EqDecision P}.
Variable createElement :
  P → LeafletContextInterface → W → LeafletElement E * W.
Variable updateElement : option (E → P → P → W → W).
Variable position : P → nullable string.

Implicit Types (st : @Control.state E P W) (props : P).
Implicit Types (context : LeafletContextInterface).


Lemma element_kept_current el est :
  element_kept updateElement el est → Element.current est = Some el.
Proof.
  unfold element_kept, Element.current.
  destruct updateElement; [|done]. intros [applied Hm].
  apply (mounted_element _ _ _ Hm).
Qed.

Lemma createElementHook_first props context w :
  let est := Element.createElementHook createElement updateElement
               props context (Element.init w) in
  element_kept updateElement (createElement props context w).1 est ∧
  filter (λ c, Element.is_create c = true) (Element.calls (Element.st_env est))
  = [Element.CreateElement props context].
Proof.
  unfold element_kept. destruct updateElement as [u|]; simpl.
  - destruct (mutable_first createElement u props context w) as [Hm ->].
    split; [by eexists|done].
  - by rewrite create_once_init.
Qed.

Lemma createElementHook_step el est props context :
  element_kept updateElement el est →
  let est' := Element.createElementHook createElement updateElement
                props context est in
  element_kept updateElement el est' ∧
  filter (λ c, Element.is_create c = true) (Element.calls (Element.st_env est'))
  = filter (λ c, Element.is_create c = true) (Element.calls (Element.st_env est)).
Proof.
  unfold element_kept. destruct updateElement as [u|]; simpl.
  - intros [applied Hm].
    destruct (mutable_step createElement u _ _ _ props context Hm)
      as [Hm' Hcalls].
    split; [by eexists|]. rewrite Hcalls, filter_app.
    case_decide; simpl; by rewrite ?app_nil_r.
  - intros Hel. unfold Element.useImmutableLeafletElement.
    by rewrite (create_once_mounted createElement _ _ _ el Hel).
Qed.



Local Abbreviation useLeafletControl :=
  (Control.useLeafletControl position
     (Element.createElementHook createElement updateElement)).

Lemma position_calls_same (inst : E) (pos : nullable string) :
  position_calls inst pos pos = [].
Proof. unfold position_calls. destruct pos; [done|done|]. by rewrite decide_True. Qed.

Lemma next_position_same (pos : nullable string) : next_position pos pos = pos.
Proof. by destruct pos. Qed.

Lemma updateControl_spec (inst : E) (pos current : nullable string)
    (s : @Control.env E) :
  Control.positionRef s = Some current →
  Control.updateControl inst pos s
  = (Control.Env (Some (next_position current pos))
       (Control.calls s ++ position_calls inst current pos), None).
Proof.
  intros Href. unfold Control.updateControl, position_calls, next_position.
  rewrite Href. destruct s as [cell cs]; simpl in *; subst.
  destruct pos as [| |p]; rewrite ?app_nil_r; try done.
  destruct (decide (Val p = current)) as [<-|Hne].
  - rewrite bool_decide_eq_false_2 by (intros Hx; by apply Hx).
    by rewrite app_nil_r.
  - by rewrite bool_decide_eq_true_2.
Qed.

Lemma useLeafletControl_mount props context w :
  ∃ st, useLeafletControl props (Some context) (Control.init w) = Ok st ∧
    placed updateElement (Element.CreateElement props context)
      (createElement props context w).1 (position props) (position props)
      (map context) st ∧
    Control.calls (Control.st_env st)
    = [Control.AddTo (instance (createElement props context w).1) (map context)].
Proof.
  destruct (createElementHook_first props context w) as [Hkept Hcreate].
  unfold Control.useLeafletControl; simpl.
  rewrite (element_kept_current _ _ Hkept).
  unfold React.commit_create, React.commit_destroy; simpl.
  rewrite (updateControl_spec _ _ (position props)) by done.
  rewrite position_calls_same, next_position_same. simpl.
  eexists. split; [done|]. split; [|done].
  split; simpl; done.
Qed.

Lemma commit_addControl (inst : E) (m : objref) context (s : @Control.env E) :
  let slot := Some (React.Effect (m, inst) (Some (Control.removeControl inst))) in
  React.commit_create slot (map context, inst)
    (Control.addControl inst context)
    (React.commit_destroy slot (map context, inst) s)
  = (Some (React.Effect (map context, inst)
             (Some (Control.removeControl inst))),
     Control.Env (Control.positionRef s)
       (Control.calls s
        ++ if decide (m = map context) then []
           else [Control.Remove inst; Control.AddTo inst (map context)])).
Proof.
  unfold React.commit_create, React.commit_destroy, React.deps_changed;
    cbn [React.deps React.run_destroy].
  destruct s as [cell cs].
  destruct (decide (m = map context)) as [->|Hm].
  - rewrite bool_decide_eq_false_2 by (intros Hx; by apply Hx).
    by rewrite app_nil_r.
  - rewrite bool_decide_eq_true_2 by congruence. simpl.
    by rewrite <- app_assoc.
Qed.

Lemma commit_updateControl (inst : E) (current pos pos' : nullable string)
    (s : @Control.env E) :
  Control.positionRef s = Some current →
  (is_val pos = true → current = pos) →
  React.commit_create (Some (React.Effect (inst, pos) None)) (inst, pos')
    (Control.updateControl inst pos') s
  = (Some (React.Effect (inst, pos') None),
     Control.Env (Some (next_position current pos'))
       (Control.calls s ++ position_calls inst current pos')).
Proof.
  intros Href Happlied.
  unfold React.commit_create, React.deps_changed; cbn [React.deps].
  destruct (decide (pos = pos')) as [<-|Hp].
  - rewrite bool_decide_eq_false_2 by (intros Hx; by apply Hx).
    destruct s as [cell cs]; simpl in *; subst.
    destruct pos as [| |p]; simpl; rewrite ?app_nil_r; try done.
    rewrite Happlied by done. unfold position_calls.
    by rewrite decide_True, app_nil_r.
  - rewrite bool_decide_eq_true_2 by congruence.
    by rewrite (updateControl_spec _ _ current).
Qed.

Lemma next_position_applied (current pos : nullable string) :
  is_val pos = true → next_position current pos = pos.
Proof. by destruct pos. Qed.

Lemma useLeafletControl_step first el current pos m st props context :
  placed updateElement first el current pos m st →
  ∃ st', useLeafletControl props (Some context) st = Ok st' ∧
    placed updateElement first el (next_position current (position props)) (position props)
      (map context) st' ∧
    Control.calls (Control.st_env st')
    = (Control.calls (Control.st_env st)
       ++ if decide (m = map context) then []
          else [Control.Remove (instance el);
                Control.AddTo (instance el) (map context)])
      ++ position_calls (instance el) current (position props) ∧
    Element.current (Control.element st') = Element.current (Control.element st).
Proof.
  intros [Hkept Hcreated Href Hslot1 Hslot2 Happlied].
  destruct (createElementHook_step _ _ props context Hkept) as [Hkept' Hcreate'].
  unfold Control.useLeafletControl; cbn [useLeafletContext].
  rewrite (element_kept_current _ _ Hkept'), (element_kept_current _ _ Hkept).
  rewrite Hslot1, Hslot2, Href. cbn [React.useRef default].
  rewrite commit_addControl.
  rewrite (commit_updateControl _ current) by done.
  eexists. split; [done|].
  split_and!;
    [|by simpl
     |by cbn [Control.element];
         rewrite (element_kept_current _ _ Hkept')].
  split; cbn [Control.element Control.st_env Control.positionRef
              Control.addControl_slot Control.updateControl_slot];
    try done.
  - by rewrite Hcreate'.
  - intros Hv. by rewrite next_position_applied.
Qed.



End control_facts.



(** ** The ambient pane *)

Lemma deref_alloc_new (o : gmap string Pane.val) (h : list (gmap string Pane.val)) :
  Pane.deref (Pane.alloc o h).2 (Pane.alloc o h).1 = o.
Proof.
  unfold Pane.alloc, Pane.deref; simpl.
  by rewrite lookup_app_r, Nat.sub_diag by lia.
Qed.

Lemma deref_alloc_old (o : gmap string Pane.val) (h : list (gmap string Pane.val))
    (r : objref) :
  r < length h → Pane.deref (Pane.alloc o h).2 r = Pane.deref h r.
Proof.
  intros Hr. unfold Pane.alloc, Pane.deref; simpl. by rewrite lookup_app_l.
Qed.

(** In the sample the props have no pane and the context's pane is the
    empty string, which is defined: the props come back as they are,
    without a pane. *)
Lemma withPane_ignores_empty_context_pane :
  ¬ withPane_as_stated 0 Sample.unnamed_pane Sample.bare_props.
Proof.
  intros (_ & Hctx & _). simpl in Hctx.
  assert (Hundef : ¬ defined Pane.VUndefined) by (by intros [? _]).
  assert (Hdef : defined (Pane.VString "")) by done.
  by specialize (Hctx Hundef Hdef).
Qed.

(** C10 (as amended): [withPane(props, context)] resolves the pane to
    [props.pane] when that is neither undefined nor null and to
    [context.pane] otherwise.  When the resolved pane is truthy (for a pane
    name: defined and not the empty string) the result is a new object
    with that pane and with every other field of [props]; otherwise the
    result is the props object itself and nothing is allocated.  In both
    cases a pane of [props] that is neither undefined nor null is the pane
    of the result, every field other than [pane] reads as in [props], and
    the props object is left as it was. *)
Theorem withPane_resolves (props : objref) (context : LeafletContextInterface)
    (h : list (gmap string Pane.val)) :
  let r := (Pane.withPane props context h).1 in
  let h' := (Pane.withPane props context h).2 in
  let own := Pane.get (Pane.deref h props) "pane" in
  let resolved := Pane.nullish own (Pane.of_nullable (pane context)) in
  (defined own → resolved = own) ∧
  (¬ defined own → resolved = Pane.of_nullable (pane context)) ∧
  (Pane.truthy resolved = true →
     r = length h ∧
     h' = h ++ [<["pane" := resolved]> (Pane.deref h props)] ∧
     Pane.get (Pane.deref h' r) "pane" = resolved) ∧
  (Pane.truthy resolved = false → r = props ∧ h' = h) ∧
  (defined own → Pane.get (Pane.deref h' r) "pane" = own) ∧
  (∀ k, k ≠ "pane" →
     Pane.get (Pane.deref h' r) k = Pane.get (Pane.deref h props) k) ∧
  (props < length h → Pane.deref h' props = Pane.deref h props).
Proof.
  intros r h' own resolved. subst r h'. unfold Pane.withPane.
  fold own. fold resolved.
  assert (Hown : defined own → resolved = own).
  { intros [H1 H2]. subst resolved. by destruct own. }
  assert (Hctx : ¬ defined own → resolved = Pane.of_nullable (pane context)).
  { intros Hn. subst resolved. destruct own; try done; exfalso; by apply Hn. }
  split_and!; try done.
  - intros Ht. rewrite Ht. split_and!; try done.
    rewrite deref_alloc_new. unfold Pane.get. by rewrite lookup_insert_eq.
  - intros Hf. by rewrite Hf.
  - intros Hd. destruct (Pane.truthy resolved) eqn:Ht.
    + rewrite deref_alloc_new. unfold Pane.get.
      by rewrite lookup_insert_eq, Hown.
    + done.
  - intros k Hk. destruct (Pane.truthy resolved) eqn:Ht; [|done].
    rewrite deref_alloc_new. unfold Pane.get. by rewrite lookup_insert_ne.
  - intros Hlive. destruct (Pane.truthy resolved) eqn:Ht; [|done].
    by rewrite deref_alloc_old.
Qed.

(** A pane of the props is copied into a new object; an empty pane of
    the context gives the props back. *)
Lemma withPane_resolves_witness :
  Pane.withPane 0 Sample.root Sample.pane_props
  = (1, Sample.pane_props ++ [{["pane" := Pane.VString "overlayPane"]}]) ∧
  Pane.withPane 0 Sample.unnamed_pane Sample.bare_props = (0, Sample.bare_props).
Proof.
  split.
  - destruct (withPane_resolves 0 Sample.root Sample.pane_props)
      as (_ & _ & Hnew & _).
    destruct (Hnew eq_refl) as (Hr & Hh & _).
    apply injective_projections; [exact Hr|exact Hh].
  - destruct (withPane_resolves 0 Sample.unnamed_pane Sample.bare_props)
      as (_ & _ & _ & Hsame & _).
    destruct (Hsame eq_refl) as (Hr & Hh).
    apply injective_projections; [exact Hr|exact Hh].
Defined.


(** ** Panes *)

Lemma indexOf_from_elem (i : Z) (xs : list string) (x : string) :
  (0 ≤ i)%Z → x ∈ xs → PaneComponent.indexOf_from i xs x ≠ (-1)%Z.
Proof.
  revert i. induction xs as [|y xs IH]; intros i Hi Hin.
  - by apply elem_of_nil in Hin.
  - simpl. case_decide as Hy; [lia|].
    apply elem_of_cons in Hin as [->|Hin]; [done|]. apply IH; [lia|done].
Qed.

Lemma indexOf_from_not_elem (i : Z) (xs : list string) (x : string) :
  x ∉ xs → PaneComponent.indexOf_from i xs x = (-1)%Z.
Proof.
  revert i. induction xs as [|y xs IH]; intros i Hin; [done|].
  simpl. apply not_elem_of_cons in Hin as [Hne Hin].
  rewrite decide_False by done. by apply IH.
Qed.

Lemma createPane_reserved name props context m :
  name ∈ PaneComponent.DEFAULT_PANES →
  PaneComponent.createPane name props context m
  = Throw ("You must use a unique name for a pane that is not a default Leaflet pane: "
           +:+ name).
Proof.
  intros Hin. unfold PaneComponent.createPane.
  rewrite bool_decide_eq_true_2; [done|].
  by apply indexOf_from_elem.
Qed.

Lemma createPane_existing name props context m :
  name ∉ PaneComponent.DEFAULT_PANES →
  is_Some (LMap.getPane name m) →
  PaneComponent.createPane name props context m
  = Throw ("A pane with this name already exists: " +:+ name).
Proof.
  intros Hnot Hsome. unfold PaneComponent.createPane.
  rewrite bool_decide_eq_false_2.
  - by rewrite bool_decide_eq_true_2.
  - intros Hne. apply Hne. by apply indexOf_from_not_elem.
Qed.

(** [createPane] succeeds exactly on a name that is free and not
    reserved. *)
Lemma createPane_ok_iff name props context m :
  (∃ r, PaneComponent.createPane name props context m = Ok r)
  ↔ (name ∉ PaneComponent.DEFAULT_PANES) ∧ LMap.getPane name m = None.
Proof.
  split.
  - intros [r Hok]. split.
    + intros Hin. by rewrite createPane_reserved in Hok.
    + destruct (decide (name ∈ PaneComponent.DEFAULT_PANES)) as [Hin|Hnot].
      { by rewrite createPane_reserved in Hok. }
      destruct (LMap.getPane name m) eqn:Hget; [|done].
      rewrite createPane_existing in Hok; [done|done|].
      by rewrite Hget.
  - intros [Hnot Hfree]. unfold PaneComponent.createPane.
    rewrite bool_decide_eq_false_2
      by (intros Hne; apply Hne; by apply indexOf_from_not_elem).
    rewrite bool_decide_eq_false_2 by (rewrite Hfree; by intros [? ?]).
    destruct (LMap.createPane name _ m). eauto.
Qed.

Lemma removeCreatedPane_registries name (s : PaneComponent.env) :
  let m := PaneComponent.leaflet s in
  let m' := PaneComponent.leaflet (PaneComponent.removeCreatedPane name s) in
  LMap._panes m' = delete name (LMap._panes m) ∧
  LMap._paneRenderers m' = delete name (LMap._paneRenderers m).
Proof.
  unfold PaneComponent.removeCreatedPane; simpl.
  by destruct (LMap.getPane name (PaneComponent.leaflet s)).
Qed.

(** The mount of a pane component. *)
Lemma PaneComponent_mount props context m next st out :
  PaneComponent.PaneComponent props (Some context)
    (PaneComponent.init m next) = Ok (st, out) →
  ∃ el m',
    PaneComponent.createPane (PaneProps.name props) props context m
    = Ok (el, m') ∧
    pane_ready (PaneProps.name props) (PaneComponent.Env (Val el) m' None) st.
Proof.
  unfold PaneComponent.PaneComponent, PaneComponent.init; simpl.
  unfold React.useEffect, React.commit_create, React.commit_destroy; simpl.
  unfold PaneComponent.createPane_effect; simpl.
  destruct (PaneComponent.createPane (PaneProps.name props) props context m)
    as [[el m']|msg]; simpl; [|done].
  intros [= <- <-]. exists el, m'. split; [done|]. by split.
Qed.

(** A render of a mounted pane component, whatever the props say. *)
Lemma PaneComponent_rerender_step name s st props context :
  pane_ready name s st →
  PaneComponent.thrown s = None →
  ∃ st' out,
    PaneComponent.PaneComponent props (Some context) st = Ok (st', out) ∧
    pane_ready name s st' ∧
    match out with
    | Some (_, provided, _) => pane provided = Val name
    | None => True
    end.
Proof.
  intros [Hname Henv Hslot Hctx] Hthrown.
  unfold PaneComponent.PaneComponent. rewrite Hname, Hslot, Henv.
  cbn [useLeafletContext React.useState default].
  unfold React.useEffect, React.commit_create, React.commit_destroy,
    React.deps_changed; cbn [React.deps].
  rewrite bool_decide_eq_false_2 by (intros Hx; by apply Hx).
  rewrite Hthrown.
  destruct (PaneComponent.newContext st) as [[d v]|] eqn:Hmemo;
    [case_bool_decide|]; eexists _, _; (split; [reflexivity|]);
    (split; [by split|]);
    by destruct (PaneProps.children props), (PaneComponent.paneElement s).
Qed.

Lemma PaneComponent_rerender name s st inputs st' :
  pane_ready name s st →
  PaneComponent.thrown s = None →
  PaneComponent.rerender inputs st = Ok st' →
  pane_ready name s st'.
Proof.
  intros Hready Hthrown. revert st Hready.
  induction inputs as [|[props [context|]] inputs IH]; intros st Hready Hrun;
    simpl in Hrun.
  - by injection Hrun as <-.
  - destruct (PaneComponent_rerender_step _ _ _ props context Hready Hthrown)
      as (st1 & out & Hst1 & Hready1 & _).
    rewrite Hst1 in Hrun. by apply (IH st1).
  - done.
Qed.

Lemma createPane_registers name props context m el m' :
  PaneComponent.createPane name props context m = Ok (el, m') →
  LMap._panes m'
  = (if Dom.truthy name then <[name := el]> (LMap._panes m) else LMap._panes m) ∧
  LMap._paneRenderers m' = LMap._paneRenderers m.
Proof.
  unfold PaneComponent.createPane.
  repeat case_bool_decide; try done.
  unfold LMap.createPane. intros [= <- <-].
  by destruct (PaneProps.className props), (PaneProps.style props).
Qed.

(** C5: [createPane] throws the usage error for a reserved name, [tilePane]
    among them, and throws for a name the map already has a pane for.  A
    mounted pane component has its pane registered under its name, so a
    second pane of that name fails; its teardown takes the entry out of
    [_panes] and [_paneRenderers], leaving the other entries, and after it
    [createPane] with the same name succeeds. *)
Theorem createPane_names (name : string) (props props' : PaneProps.t)
    (context context' : LeafletContextInterface) (m : LMap.t) (next : objref) :
  (name ∈ PaneComponent.DEFAULT_PANES →
   PaneComponent.createPane name props context m
   = Throw ("You must use a unique name for a pane that is not a default Leaflet pane: "
            +:+ name)) ∧
  PaneComponent.createPane "tilePane" props context m
  = Throw "You must use a unique name for a pane that is not a default Leaflet pane: tilePane" ∧
  (name ∉ PaneComponent.DEFAULT_PANES → is_Some (LMap.getPane name m) →
   PaneComponent.createPane name props context m
   = Throw ("A pane with this name already exists: " +:+ name)) ∧
  (∀ st out,
     PaneProps.name props = name →
     PaneComponent.PaneComponent props (Some context)
       (PaneComponent.init m next) = Ok (st, out) →
     let mounted := PaneComponent.leaflet (PaneComponent.st_env st) in
     let gone :=
       PaneComponent.leaflet (PaneComponent.st_env (PaneComponent.unmount st)) in
     (name ≠ "" →
      is_Some (LMap.getPane name mounted) ∧
      PaneComponent.createPane name props' context' mounted
      = Throw ("A pane with this name already exists: " +:+ name)) ∧
     LMap._panes gone = delete name (LMap._panes mounted) ∧
     LMap._paneRenderers gone = delete name (LMap._paneRenderers mounted) ∧
     LMap._panes gone !! name = None ∧
     LMap._paneRenderers gone !! name = None ∧
     ∃ el m', PaneComponent.createPane name props' context' gone = Ok (el, m')).
Proof.
  split_and!.
  - apply createPane_reserved.
  - apply createPane_reserved. unfold PaneComponent.DEFAULT_PANES. set_solver.
  - apply createPane_existing.
  - intros st out Hname Hmount mounted gone.
    destruct (PaneComponent_mount _ _ _ _ _ _ Hmount)
      as (el & m' & Hcreate & [_ Henv Hslot _]).
    rewrite Hname in *.
    assert (Hfree : (name ∉ PaneComponent.DEFAULT_PANES)
                    ∧ LMap.getPane name m = None).
    { apply (createPane_ok_iff name props context m). eauto. }
    destruct (createPane_registers _ _ _ _ _ _ Hcreate) as [Hpanes _].
    assert (Hgone : LMap._panes gone = delete name (LMap._panes mounted)
                    ∧ LMap._paneRenderers gone
                      = delete name (LMap._paneRenderers mounted)).
    { subst gone mounted. unfold PaneComponent.unmount. rewrite Hslot.
      cbn [React.run_destroy PaneComponent.st_env].
      apply removeCreatedPane_registries. }
    destruct Hgone as [Hgone1 Hgone2].
    split_and!.
    + intros Hne.
      assert (Hreg : is_Some (LMap.getPane name mounted)).
      { subst mounted. rewrite Henv. cbn [PaneComponent.leaflet].
        unfold LMap.getPane. rewrite Hpanes. unfold Dom.truthy.
        rewrite bool_decide_eq_true_2 by done.
        rewrite lookup_insert_eq. eauto. }
      split; [exact Hreg|].
      apply createPane_existing; [apply Hfree|exact Hreg].
    + exact Hgone1.
    + exact Hgone2.
    + rewrite Hgone1. apply lookup_delete_eq.
    + rewrite Hgone2. apply lookup_delete_eq.
    + assert (Hok : ∃ r, PaneComponent.createPane name props' context' gone = Ok r).
      { apply createPane_ok_iff. split; [apply Hfree|].
        unfold LMap.getPane. rewrite Hgone1. apply lookup_delete_eq. }
      destruct Hok as [[el' m''] Hok]. eauto.
Qed.

(** The pane [labels] is mounted and unmounted; [createPane] then
    succeeds for [labels] again. *)
Lemma createPane_names_witness :
  ∃ st out el m',
    PaneComponent.PaneComponent Sample.labels (Some Sample.root)
      (PaneComponent.init Sample.bare_map 100) = Ok (st, out) ∧
    PaneComponent.createPane "labels" Sample.labels Sample.root
      (PaneComponent.leaflet (PaneComponent.st_env (PaneComponent.unmount st)))
    = Ok (el, m').
Proof.
  destruct (createPane_names "labels" Sample.labels Sample.labels
              Sample.root Sample.root Sample.bare_map 100)
    as (_ & _ & _ & Hmounted).
  destruct (Hmounted _ _ eq_refl eq_refl) as (_ & _ & _ & _ & _ & el & m' & Hok).
  eexists _, _, el, m'. split; [reflexivity|exact Hok].
Defined.

(** C9: a pane component that mounted under the name of its first render
    keeps that name however it is rendered afterwards: the name in its
    state, the teardown it has registered and the pane of the context it
    provides to its children are those of the first render; no render
    after the first touches the map (no pane is created, renamed or
    removed), and the unmount removes the pane of the first name. *)
Theorem PaneComponent_name_is_fixed (m : LMap.t) (next : objref)
    (first : PaneProps.t) (context : LeafletContextInterface)
    (st : PaneComponent.state) (out : PaneComponent.output)
    (rest : list (PaneProps.t * option LeafletContextInterface))
    (st' : PaneComponent.state)
    (props : PaneProps.t) (context' : LeafletContextInterface) :
  PaneComponent.PaneComponent first (Some context)
    (PaneComponent.init m next) = Ok (st, out) →
  PaneComponent.rerender rest st = Ok st' →
  let name := PaneProps.name first in
  (∃ el m', PaneComponent.createPane name first context m = Ok (el, m') ∧
            PaneComponent.leaflet (PaneComponent.st_env st) = m') ∧
  PaneComponent.paneName st' = Some name ∧
  PaneComponent.st_env st' = PaneComponent.st_env st ∧
  PaneComponent.createPane_slot st'
  = Some (React.Effect tt (Some (PaneComponent.removeCreatedPane name))) ∧
  PaneComponent.st_env (PaneComponent.unmount st')
  = PaneComponent.removeCreatedPane name (PaneComponent.st_env st) ∧
  ∃ st'' out',
    PaneComponent.PaneComponent props (Some context') st' = Ok (st'', out') ∧
    PaneComponent.paneName st'' = Some name ∧
    PaneComponent.st_env st'' = PaneComponent.st_env st ∧
    match out' with
    | Some (_, provided, _) => pane provided = Val name
    | None => True
    end.
Proof.
  intros Hmount Hrun name.
  destruct (PaneComponent_mount _ _ _ _ _ _ Hmount)
    as (el & m' & Hcreate & Hready).
  pose proof (PaneComponent_rerender _ _ _ _ _ Hready eq_refl Hrun) as Hready'.
  destruct (PaneComponent_rerender_step _ _ _ props context' Hready' eq_refl)
    as (st'' & out' & Hst'' & Hready'' & Hout).
  pose proof (ready_env _ _ _ Hready) as Henv.
  split_and!.
  - exists el, m'. split; [exact Hcreate|]. by rewrite Henv.
  - apply (ready_name _ _ _ Hready').
  - by rewrite (ready_env _ _ _ Hready'), Henv.
  - apply (ready_slot _ _ _ Hready').
  - unfold PaneComponent.unmount. rewrite (ready_slot _ _ _ Hready').
    cbn [React.run_destroy PaneComponent.st_env].
    by rewrite (ready_env _ _ _ Hready'), Henv.
  - exists st'', out'. split_and!; [exact Hst''| | |exact Hout].
    + apply (ready_name _ _ _ Hready'').
    + by rewrite (ready_env _ _ _ Hready''), Henv.
Qed.

(** The pane [labels] rendered again under the name [renamed]: it is
    still [labels], in the state and on the map. *)
Lemma PaneComponent_name_is_fixed_witness :
  ∃ st' : PaneComponent.state,
    PaneComponent.paneName st' = Some "labels" ∧
    LMap._panes (PaneComponent.leaflet (PaneComponent.st_env st'))
    = {["labels" := 1]}.
Proof.
  destruct (PaneComponent_name_is_fixed Sample.bare_map 100 Sample.labels
              Sample.root _ _
              [(PaneProps.Make Undefined Undefined "renamed" Undefined Undefined,
                Some Sample.root)] _
              Sample.labels Sample.root eq_refl eq_refl)
    as (_ & Hname & Henv & _).
  eexists. split; [exact Hname|]. rewrite Henv. reflexivity.
Defined.


(** ** More on CSS class names *)

Lemma split_no_separator (sep : ascii) (s t : string) :
  t ∈ Dom.split sep s → ∀ pre post, t ≠ pre +:+ String sep post.
Proof.
  revert t. induction s as [|c s IH]; intros t Hin pre post Heq.
  - apply list_elem_of_singleton in Hin. subst t. by destruct pre.
  - simpl in Hin. destruct (decide (c = sep)) as [->|Hc].
    + apply elem_of_cons in Hin as [->|Hin]; [by destruct pre|].
      by apply (IH t Hin pre post).
    + destruct (Dom.split sep s) as [|w ws] eqn:Hsplit.
      * apply list_elem_of_singleton in Hin. subst t.
        destruct pre as [|a [|b pre]]; cbv [String.append] in Heq; congruence.
      * apply elem_of_cons in Hin as [->|Hin].
        -- destruct pre as [|a pre];
             [cbv [String.append] in Heq; congruence|].
           change (String c w = String a (pre +:+ String sep post)) in Heq.
           injection Heq as _ Heq.
           apply (IH w ltac:(left) pre post Heq).
        -- apply (IH t ltac:(by right) pre post Heq).
Qed.

(** X1: the tokens [splitClassName] returns are never empty and contain
    no space, whatever spaces the class string starts with, ends with or
    repeats. *)
Theorem splitClassName_tokens (className t : string) :
  t ∈ Dom.splitClassName className →
  t ≠ "" ∧ ∀ pre post, t ≠ pre +:+ " " +:+ post.
Proof.
  unfold Dom.splitClassName. rewrite list_elem_of_filter.
  intros [Htruthy Hin]. split.
  - unfold Dom.truthy in Htruthy. by apply bool_decide_eq_true in Htruthy.
  - intros pre post. apply (split_no_separator " " className t Hin pre post).
Qed.

Lemma splitClassName_tokens_witness :
  Dom.splitClassName "  leaflet-pane   halo " = ["leaflet-pane"; "halo"] ∧
  "halo" ≠ "".
Proof.
  split; [reflexivity|].
  apply (splitClassName_tokens "  leaflet-pane   halo " "halo").
  apply list_elem_of_In. vm_compute. right. left. reflexivity.
Defined.

Lemma forEach_cons {A S} (f : A → S → S) (x : A) (xs : list A) (s : S) :
  Dom.forEach f (x :: xs) s = Dom.forEach f xs (f x s).
Proof. reflexivity. Qed.

Lemma calls_forEach_addClass (ts : list string) (el : Dom.HTMLElement) :
  Dom.calls (Dom.forEach Dom.addClass ts el)
  = Dom.calls el ++ (Dom.AddClass <$> ts).
Proof.
  revert el. induction ts as [|t ts IH]; intros el.
  - by rewrite app_nil_r.
  - rewrite forEach_cons, IH. simpl. by rewrite <- app_assoc.
Qed.

Lemma calls_forEach_removeClass (ts : list string) (el : Dom.HTMLElement) :
  Dom.calls (Dom.forEach Dom.removeClass ts el)
  = Dom.calls el ++ (Dom.RemoveClass <$> ts).
Proof.
  revert el. induction ts as [|t ts IH]; intros el.
  - by rewrite app_nil_r.
  - rewrite forEach_cons, IH. simpl. by rewrite <- app_assoc.
Qed.

Lemma elem_of_forEach_addClass (x : string) (ts : list string)
    (el : Dom.HTMLElement) :
  x ∈ Dom.classList (Dom.forEach Dom.addClass ts el)
  ↔ x ∈ ts ∨ x ∈ Dom.classList el.
Proof.
  revert el. induction ts as [|t ts IH]; intros el.
  - simpl. rewrite elem_of_nil. tauto.
  - rewrite forEach_cons, IH, elem_of_addClass, elem_of_cons. tauto.
Qed.

Lemma classList_forEach_removeClass (ts : list string) (el : Dom.HTMLElement) :
  Dom.classList (Dom.forEach Dom.removeClass ts el)
  = filter (λ x, x ∉ ts) (Dom.classList el).
Proof.
  revert el. induction ts as [|t ts IH]; intros el.
  - simpl. induction (Dom.classList el) as [|y l IHl]; [done|].
    rewrite filter_cons_True by apply not_elem_of_nil. by rewrite <- IHl.
  - rewrite forEach_cons, IH. simpl. rewrite list_filter_filter.
    apply list_filter_iff. intros x. rewrite not_elem_of_cons. tauto.
Qed.

Lemma elem_of_forEach_removeClass (x : string) (ts : list string)
    (el : Dom.HTMLElement) :
  x ∈ Dom.classList (Dom.forEach Dom.removeClass ts el)
  ↔ (x ∉ ts) ∧ x ∈ Dom.classList el.
Proof. by rewrite classList_forEach_removeClass, list_elem_of_filter. Qed.

Lemma splitClassName_empty_length (s : string) :
  ¬ 0 < String.length s → Dom.splitClassName s = [].
Proof. destruct s; [done|]. simpl. lia. Qed.

(** X2: for two different plain class strings [updateClassName] calls
    removeClass for every previous token and then addClass for every next
    token, in their order; afterwards the element has exactly the next
    tokens and those of its former classes that are no previous token. *)
Theorem updateClassName_classes (el : Dom.HTMLElement) (prev next : string) :
  prev ≠ next →
  plain prev = true →
  plain next = true →
  ∃ el', Dom.updateClassName (Val el) (Val prev) (Val next) = Val el' ∧
    Dom.calls el'
    = Dom.calls el ++ (Dom.RemoveClass <$> Dom.splitClassName prev)
                   ++ (Dom.AddClass <$> Dom.splitClassName next) ∧
    ∀ x, x ∈ Dom.classList el'
         ↔ x ∈ Dom.splitClassName next
           ∨ (x ∈ Dom.classList el ∧ (x ∉ Dom.splitClassName prev)).
Proof.
  intros Hne _ _. unfold Dom.updateClassName.
  rewrite bool_decide_eq_true_2 by congruence.
  set (el1 := if bool_decide (0 < String.length prev)
              then Dom.removeClassName prev el else el).
  assert (Hel1 : Dom.calls el1
                 = Dom.calls el ++ (Dom.RemoveClass <$> Dom.splitClassName prev)
                 ∧ ∀ x, x ∈ Dom.classList el1
                        ↔ (x ∉ Dom.splitClassName prev) ∧ x ∈ Dom.classList el).
  { subst el1. case_bool_decide as Hlen.
    - unfold Dom.removeClassName. split.
      + apply calls_forEach_removeClass.
      + intros x. apply elem_of_forEach_removeClass.
    - rewrite (splitClassName_empty_length prev Hlen). simpl.
      rewrite app_nil_r. split; [done|]. intros x. rewrite elem_of_nil. tauto. }
  destruct Hel1 as [Hcalls1 Hclasses1].
  eexists. split; [reflexivity|].
  case_bool_decide as Hlen.
  - unfold Dom.addClassName. split.
    + by rewrite calls_forEach_addClass, Hcalls1, <- app_assoc.
    + intros x. rewrite elem_of_forEach_addClass, Hclasses1. tauto.
  - rewrite (splitClassName_empty_length next Hlen). simpl.
    rewrite app_nil_r. split; [done|].
    intros x. rewrite Hclasses1, elem_of_nil. tauto.
Qed.

Lemma updateClassName_classes_witness :
  ∃ el', Dom.updateClassName (Val Sample.div_ab) (Val "a  b") (Val "") = Val el' ∧
    Dom.calls el' = [Dom.RemoveClass "a"; Dom.RemoveClass "b"].
Proof.
  destruct (updateClassName_classes Sample.div_ab "a  b" "")
    as (el' & Hrun & Hcalls & _); [discriminate|reflexivity|reflexivity|].
  exists el'. split; [exact Hrun|exact Hcalls].
Defined.

Lemma NoDup_addClass (cls : string) (el : Dom.HTMLElement) :
  NoDup (Dom.classList el) → NoDup (Dom.classList (Dom.addClass cls el)).
Proof.
  intros Hnd. unfold Dom.addClass; simpl. case_bool_decide as Hin; [done|].
  apply NoDup_app. split_and!; [done| |apply NoDup_singleton].
  intros x Hx ->%list_elem_of_singleton. done.
Qed.

Lemma NoDup_forEach_addClass (ts : list string) (el : Dom.HTMLElement) :
  NoDup (Dom.classList el) →
  NoDup (Dom.classList (Dom.forEach Dom.addClass ts el)).
Proof.
  revert el. induction ts as [|t ts IH]; intros el Hnd; [done|].
  rewrite forEach_cons. by apply IH, NoDup_addClass.
Qed.

(** X3: on an element without repeated classes, [addClassName],
    [removeClassName] and [updateClassName] leave no class repeated,
    however often a token occurs in the strings they are given. *)
Theorem class_names_stay_distinct (el : Dom.HTMLElement)
    (className : string) (prev next : nullable string) :
  NoDup (Dom.classList el) →
  NoDup (Dom.classList (Dom.addClassName className el)) ∧
  NoDup (Dom.classList (Dom.removeClassName className el)) ∧
  ∀ el', Dom.updateClassName (Val el) prev next = Val el' →
         NoDup (Dom.classList el').
Proof.
  intros Hnd.
  assert (Hremove : ∀ c, NoDup (Dom.classList (Dom.removeClassName c el))).
  { intros c. unfold Dom.removeClassName.
    rewrite classList_forEach_removeClass. by apply NoDup_filter. }
  split_and!.
  - by apply NoDup_forEach_addClass.
  - apply Hremove.
  - intros el'. unfold Dom.updateClassName.
    case_bool_decide; [|by intros [= <-]].
    intros [= <-].
    assert (Hnd1 : NoDup (Dom.classList
              match prev with
              | Val p => if bool_decide (0 < String.length p)
                         then Dom.removeClassName p el else el
              | _ => el
              end)).
    { destruct prev as [| |p]; try done. by case_bool_decide. }
    destruct next as [| |n]; try done.
    case_bool_decide; [|done]. by apply NoDup_forEach_addClass.
Qed.

Lemma class_names_stay_distinct_witness :
  NoDup (Dom.classList (Dom.addClassName "b c b c" Sample.div_ab)).
Proof.
  assert (Hnd : NoDup (Dom.classList Sample.div_ab)).
  { apply NoDup_cons. split; [|apply NoDup_singleton].
    intros Hin%list_elem_of_singleton. discriminate. }
  destruct (class_names_stay_distinct Sample.div_ab "b c b c"
              Undefined Undefined Hnd) as [Hadd _].
  exact Hadd.
Defined.

Lemma classList_forEach_addClass_fresh (ts : list string)
    (el : Dom.HTMLElement) :
  ∃ added, Dom.classList (Dom.forEach Dom.addClass ts el)
           = Dom.classList el ++ added ∧ ∀ x, x ∈ added → x ∈ ts.
Proof.
  revert el. induction ts as [|t ts IH]; intros el.
  - exists []. split; [by rewrite app_nil_r|]. by intros x ?%elem_of_nil.
  - rewrite forEach_cons. destruct (IH (Dom.addClass t el)) as (added & -> & Hin).
    unfold Dom.addClass at 1; simpl. case_bool_decide.
    + exists added. split; [done|]. intros x Hx. right. by apply Hin.
    + exists (t :: added). split; [by rewrite <- app_assoc|].
      intros x [->|Hx]%elem_of_cons; [by left|right; by apply Hin].
Qed.

(** X4: adding a plain class string and removing it again gives the
    element its class list back, in the same order, when none of the
    tokens was a class of the element before. *)
Theorem addClassName_removeClassName (el : Dom.HTMLElement) (className : string) :
  plain className = true →
  (∀ t, t ∈ Dom.splitClassName className → t ∉ Dom.classList el) →
  Dom.classList (Dom.removeClassName className (Dom.addClassName className el))
  = Dom.classList el.
Proof.
  intros _ Hfresh. unfold Dom.removeClassName, Dom.addClassName.
  rewrite classList_forEach_removeClass.
  destruct (classList_forEach_addClass_fresh (Dom.splitClassName className) el)
    as (added & -> & Hadded).
  rewrite filter_app.
  assert (filter (λ x, x ∉ Dom.splitClassName className) added = []) as ->.
  { induction added as [|a added IH]; [done|].
    rewrite filter_cons_False.
    - apply IH. intros x Hx. apply Hadded. by right.
    - intros Hn. apply Hn, Hadded. by left. }
  rewrite app_nil_r.
  induction (Dom.classList el) as [|y l IH]; [done|].
  rewrite filter_cons_True.
  - f_equal. apply IH. intros t Ht Hin. apply (Hfresh t Ht). by right.
  - intros Hy. apply (Hfresh y Hy). by left.
Qed.

Lemma addClassName_removeClassName_witness :
  Dom.classList (Dom.removeClassName "c d" (Dom.addClassName "c d" Sample.div_ab))
  = ["a"; "b"].
Proof.
  apply (addClassName_removeClassName Sample.div_ab "c d"); [reflexivity|].
  intros t Ht%list_elem_of_In Hin%list_elem_of_In.
  vm_compute in Ht, Hin.
  destruct Ht as [<-|[<-|[]]], Hin as [Hin|[Hin|[]]]; discriminate Hin.
Defined.


(** ** More on the element, layer, attribution and control hooks *)

(** X5: an element hook made without [updateElement] ignores every render
    after the first: whatever props and contexts follow, the element, the
    call log and everything the user callbacks can see stay exactly as the
    first activation left them. *)
Theorem useImmutableLeafletElement_ignores_rerenders {E P W : Type}
    `{EqDecision E, EqDecision P}
    (createElement : P → LeafletContextInterface → W → LeafletElement E * W)
    (w : W) (props : P) (context : LeafletContextInterface)
    (rest : list (P * LeafletContextInterface)) :
  let useElement := Element.createElementHook createElement None in
  let first := useElement props context (Element.init w) in
  Element.rerender useElement rest first = first ∧
  Element.st_env first
  = Element.Env (Some (createElement props context w).1) None
      (createElement props context w).2
      [Element.CreateElement props context].
Proof.
  intros useElement first. subst useElement first.
  cbn [Element.createElementHook].
  assert (Hfirst : Element.useImmutableLeafletElement createElement
            props context (Element.init w)
          = Element.State
              (Element.Env (Some (createElement props context w).1) None
                 (createElement props context w).2
                 [Element.CreateElement props context]) None).
  { unfold Element.useImmutableLeafletElement, Element.init; simpl.
    by rewrite create_once_init. }
  rewrite Hfirst. split; [|done].
  by apply (immutable_rerender createElement (createElement props context w).1).
Qed.

Lemma useLayerLifecycle_in_container_first b element context :
  in_container element context
    (Layer.useLayerLifecycle element context (Layer.init b)).
Proof.
  rewrite useLayerLifecycle_mount. split; [done|]. simpl.
  rewrite layersOf_addLayer, decide_True by done. set_solver.
Qed.

Lemma useLayerLifecycle_in_container element context element' context' st :
  in_container element context st →
  in_container element' context'
    (Layer.useLayerLifecycle element' context' st).
Proof.
  intros [Hslot Hin]. unfold Layer.useLayerLifecycle. rewrite Hslot.
  unfold React.useEffect, React.commit_create, React.commit_destroy,
    React.deps_changed; cbn [React.deps React.run_destroy].
  case_bool_decide as Hd.
  - cbn [Layer.addLayer]. split; cbn [Layer.addLayer_slot Layer.st_env];
      [done|].
    unfold Layer.do_addLayer; cbn [Layer.layers].
    rewrite layersOf_addLayer, decide_True by done. set_solver.
  - assert (Heq : (context, element) = (context', element')).
    { by destruct (decide ((context, element) = (context', element'))). }
    injection Heq as <- <-. by split.
Qed.

Lemma paired_app (a b : list Layer.call) :
  paired a → paired b → paired (a ++ b).
Proof.
  induction a as [|[c l|c l] a IH]; intros Ha Hb; simpl in *; [done| |auto].
  destruct Ha as [Hin Ha]. split; [|auto]. apply elem_of_app. by left.
Qed.

Lemma paired_removals element context : paired (removals element context).
Proof. unfold removals. by destruct (layerContainer context). Qed.

Lemma paired_generation element context :
  paired (Layer.AddLayer (default (map context) (layerContainer context))
            (instance element) :: removals element context).
Proof.
  split; [|apply paired_removals].
  unfold removals. destruct (layerContainer context); simpl; set_solver.
Qed.

Lemma calls_removeLayer element context (s : Layer.env) :
  Layer.calls (Layer.removeLayer element context s)
  = Layer.calls s ++ removals element context.
Proof.
  unfold Layer.removeLayer, removals.
  destruct (layerContainer context); simpl; [|done].
  by rewrite <- app_assoc.
Qed.

Lemma useLayerLifecycle_hooked_first b element context :
  hooked element context
    (Layer.useLayerLifecycle element context (Layer.init b)).
Proof.
  split; [apply useLayerLifecycle_in_container_first|].
  exists []. by rewrite useLayerLifecycle_mount.
Qed.

Lemma useLayerLifecycle_hooked element context element' context' st :
  hooked element context st →
  hooked element' context' (Layer.useLayerLifecycle element' context' st).
Proof.
  intros [Hin (pre & Hcalls & Hpre)].
  split; [by eapply useLayerLifecycle_in_container|].
  destruct Hin as [Hslot _].
  unfold Layer.useLayerLifecycle. rewrite Hslot.
  unfold React.useEffect, React.commit_create, React.commit_destroy,
    React.deps_changed; cbn [React.deps React.run_destroy].
  case_bool_decide as Hd.
  - cbn [Layer.addLayer Layer.st_env]. unfold Layer.do_addLayer.
    cbn [Layer.calls]. rewrite calls_removeLayer, Hcalls.
    eexists. split; [done|].
    rewrite <- app_assoc. apply paired_app; [done|]. apply paired_generation.
  - assert (Heq : (context, element) = (context', element')).
    { by destruct (decide ((context, element) = (context', element'))). }
    injection Heq as <- <-. by exists pre.
Qed.

Lemma history_layer_hooked element context st inputs :
  hooked element context st →
  hooked (default (element, context) (last inputs)).1
         (default (element, context) (last inputs)).2
         (History.layer inputs st).
Proof.
  revert element context st.
  induction inputs as [|[e c] inputs IH]; intros element context st Hst;
    [done|].
  rewrite default_last_cons. apply (IH e c).
  by eapply useLayerLifecycle_hooked.
Qed.

Lemma unmount_hooked element context st :
  hooked element context st →
  paired (Layer.calls (Layer.st_env (Layer.unmount st))) ∧
  (instance element
   ∉ Leaflet.layersOf (Layer.layers (Layer.st_env (Layer.unmount st)))
       (default (map context) (layerContainer context))) ∧
  (instance element
   ∉ Leaflet.layersOf (Layer.layers (Layer.st_env (Layer.unmount st)))
       (map context)).
Proof.
  intros [[Hslot _] (pre & Hcalls & Hpre)].
  unfold Layer.unmount. rewrite Hslot. cbn [React.run_destroy Layer.st_env].
  split_and!.
  - rewrite calls_removeLayer, Hcalls, <- app_assoc.
    apply paired_app; [done|]. apply paired_generation.
  - rewrite layersOf_removeLayer_closure.
    rewrite decide_True; [set_solver|].
    destruct (layerContainer context); simpl; auto.
  - rewrite layersOf_removeLayer_closure.
    rewrite decide_True by auto. set_solver.
Qed.

(** X6: however a layer hook was rendered, with whatever elements and
    contexts, its last call while mounted is the [addLayer] that put the
    layer of the last render into what the last context names, and the
    layer is there; every earlier [addLayer] is followed by a
    [removeLayer] on the same container for the same layer.  After the
    unmount every [addLayer] is so followed, and the layer of the last
    render is neither in that container nor in the map of the last
    context. *)
Theorem layer_history_removes_what_it_added (b : gmap objref (gset objref))
    (first : LeafletElement objref * LeafletContextInterface)
    (rest : list (LeafletElement objref * LeafletContextInterface)) :
  let st := History.layer (first :: rest) (Layer.init b) in
  let final := default first (last rest) in
  let target := default (map final.2) (layerContainer final.2) in
  (∃ pre, Layer.calls (Layer.st_env st)
          = pre ++ [Layer.AddLayer target (instance final.1)] ∧
          paired pre) ∧
  instance final.1 ∈ Leaflet.layersOf (Layer.layers (Layer.st_env st)) target ∧
  paired (Layer.calls (Layer.st_env (Layer.unmount st))) ∧
  (instance final.1
   ∉ Leaflet.layersOf (Layer.layers (Layer.st_env (Layer.unmount st)))
       target) ∧
  (instance final.1
   ∉ Leaflet.layersOf (Layer.layers (Layer.st_env (Layer.unmount st)))
       (map final.2)).
Proof.
  intros st final target.
  assert (Hst : hooked final.1 final.2 st).
  { subst st final. destruct first as [e c].
    apply (history_layer_hooked e c _ rest).
    apply useLayerLifecycle_hooked_first. }
  destruct (unmount_hooked _ _ _ Hst) as (Hpaired & Ht & Hm).
  destruct Hst as [[_ Hin] Hcalls]. by split_and!.
Qed.

Lemma useEffect_twice {D S : Type} `{EqDecision D}
    (slot : option (React.effect D S)) (d : D)
    (create : S → S * option (S → S)) (s : S) :
  React.useEffect (React.useEffect slot d create s).1 d create
    (React.useEffect slot d create s).2
  = React.useEffect slot d create s.
Proof.
  assert (Hquiet : React.deps_changed (React.useEffect slot d create s).1 d
                   = false).
  { unfold React.useEffect, React.commit_create, React.commit_destroy.
    destruct (React.deps_changed slot d) eqn:Hd; [|done].
    destruct (create (React.run_destroy slot s)) as [s' f]. simpl.
    by rewrite bool_decide_eq_false_2 by (intros Hx; by apply Hx). }
  destruct (React.useEffect slot d create s) as [slot1 s1]. simpl in *.
  unfold React.useEffect, React.commit_create, React.commit_destroy.
  by rewrite Hquiet.
Qed.

(** X7: rendering a layer hook or an event hook a second time with the
    same objects changes nothing: no layer is added or removed and no
    handler map is installed or uninstalled, whatever state the hook was
    in before the first of the two renders. *)
Theorem rerender_with_same_objects_is_silent (element : LeafletElement objref)
    (context : LeafletContextInterface) (eventHandlers : nullable objref)
    (layers : Layer.state) (events : Events.state) :
  Layer.useLayerLifecycle element context
    (Layer.useLayerLifecycle element context layers)
  = Layer.useLayerLifecycle element context layers ∧
  Events.useEventHandlers element eventHandlers
    (Events.useEventHandlers element eventHandlers events)
  = Events.useEventHandlers element eventHandlers events.
Proof.
  split.
  - unfold Layer.useLayerLifecycle.
    pose proof (useEffect_twice (Layer.addLayer_slot layers) (context, element)
                  (Layer.addLayer element context) (Layer.st_env layers)) as Htwice.
    destruct (React.useEffect (Layer.addLayer_slot layers) (context, element)
                (Layer.addLayer element context) (Layer.st_env layers))
      as [slot s]. simpl in *. by rewrite Htwice.
  - unfold Events.useEventHandlers.
    pose proof (useEffect_twice (Events.addEventHandlers_slot events)
                  (element, eventHandlers)
                  (Events.addEventHandlers element eventHandlers)
                  (Events.st_env events)) as Htwice.
    destruct (React.useEffect (Events.addEventHandlers_slot events)
                (element, eventHandlers)
                (Events.addEventHandlers element eventHandlers)
                (Events.st_env events)) as [slot s]. simpl in *.
    by rewrite Htwice.
Qed.

Lemma attribution_calls_silent (map : Attribution.LeafletMap)
    (previous attribution : nullable string) :
  attribution = previous ∨ Attribution.attributionControl map = None →
  attribution_calls map previous attribution = [].
Proof.
  unfold attribution_calls. intros [->|Hnone].
  - by rewrite decide_True.
  - rewrite Hnone. by case_decide.
Qed.

(** X8: [useAttribution] makes no call on mount, whatever the attribution;
    it makes no call when it is rendered with the attribution of the
    render before, even on another map; and it makes no call at all while
    the maps it is rendered with have no attribution control. *)
Theorem useAttribution_silent
    (inputs : list (Attribution.LeafletMap * nullable string))
    (map map' : Attribution.LeafletMap) (attribution : nullable string) :
  Attribution.calls (Attribution.st_env
    (Attribution.useAttribution map attribution Attribution.init)) = [] ∧
  (let st := Attribution.useAttribution map attribution
               (Attribution.rerender inputs Attribution.init) in
   Attribution.calls (Attribution.st_env
     (Attribution.useAttribution map' attribution st))
   = Attribution.calls (Attribution.st_env st)) ∧
  ((∀ i, i ∈ inputs → Attribution.attributionControl i.1 = None) →
   Attribution.calls (Attribution.st_env
     (Attribution.rerender inputs Attribution.init)) = []).
Proof.
  split_and!.
  - apply useAttribution_mount.
  - intros st.
    assert (Hst : ∃ r, tracking r attribution st).
    { subst st. destruct inputs as [|[m a] inputs].
      - eexists. apply useAttribution_mount.
      - simpl. destruct (useAttribution_mount m a) as [Htr _].
        destruct (useAttribution_rerender _ _ inputs _ Htr) as [r Htr'].
        destruct (useAttribution_step _ _ map attribution _ Htr') as [Htr2 _].
        eauto. }
    destruct Hst as [r Hst].
    destruct (useAttribution_step _ _ map' attribution _ Hst) as [_ Hcalls].
    rewrite attribution_calls_silent in Hcalls by auto.
    by rewrite app_nil_r in Hcalls.
  - intros Hnone. destruct inputs as [|[m a] inputs]; [done|]. simpl.
    destruct (useAttribution_mount m a) as [Htr Hcalls].
    assert (Hrest : ∀ i, i ∈ inputs → Attribution.attributionControl i.1 = None).
    { intros i Hi. apply Hnone. by right. }
    clear Hnone. revert Htr Hcalls Hrest.
    generalize (Attribution.useAttribution m a Attribution.init).
    generalize (Attribution.map_ref m). revert a.
    induction inputs as [|[m1 a1] inputs IH]; intros a r st Htr Hcalls Hrest;
      [done|].
    simpl. destruct (useAttribution_step _ _ m1 a1 _ Htr) as [Htr1 Hcalls1].
    rewrite attribution_calls_silent, Hcalls in Hcalls1
      by (right; apply (Hrest (m1, a1)); by left).
    apply (IH a1 _ _ Htr1 Hcalls1). intros i Hi. apply Hrest. by right.
Qed.

Lemma useAttribution_silent_witness :
  Attribution.calls (Attribution.st_env
    (Attribution.rerender
       [({| Attribution.map_ref := 0; Attribution.attributionControl := None |},
         Val "A");
        ({| Attribution.map_ref := 0; Attribution.attributionControl := None |},
         Val "B")] Attribution.init)) = [].
Proof.
  destruct (useAttribution_silent
              [({| Attribution.map_ref := 0;
                   Attribution.attributionControl := None |}, Val "A");
               ({| Attribution.map_ref := 0;
                   Attribution.attributionControl := None |}, Val "B")]
              {| Attribution.map_ref := 0; Attribution.attributionControl := None |}
              {| Attribution.map_ref := 0; Attribution.attributionControl := None |}
              Undefined) as (_ & _ & Hnone).
  apply Hnone. intros i Hi.
  repeat (apply elem_of_cons in Hi as [->|Hi]; [reflexivity|]).
  by apply elem_of_nil in Hi.
Defined.

Lemma count_removeAttribution_ne (text other : string) (a : gmap string nat) :
  text ≠ other →
  Attribution.count (Attribution.removeAttribution text a) other
  = Attribution.count a other.
Proof.
  intros Hne. unfold Attribution.removeAttribution.
  case_bool_decide; [done|].
  destruct (Attribution.count a text); [done|].
  unfold Attribution.count at 1. by rewrite lookup_insert_ne.
Qed.

Lemma count_addAttribution (text : string) (a : gmap string nat) :
  text ≠ "" →
  Attribution.count (Attribution.addAttribution text a) text
  = S (Attribution.count a text).
Proof.
  intros Hne. unfold Attribution.addAttribution.
  rewrite bool_decide_eq_false_2 by done.
  unfold Attribution.count at 1. by rewrite lookup_insert_eq.
Qed.

Lemma display_app (cs cs' : list Attribution.call) (d : gmap string nat) :
  Attribution.display (cs ++ cs') d
  = Attribution.display cs' (Attribution.display cs d).
Proof. unfold Attribution.display. by rewrite foldl_app. Qed.

Lemma useAttribution_display_step (d : gmap string nat) (control : objref)
    (first current : string) (r : objref) (st : Attribution.state)
    (rest : list (Attribution.LeafletMap * string)) :
  Attribution.shown d first →
  current ≠ "" →
  (∀ i, i ∈ rest →
     i.2 ≠ "" ∧ Attribution.attributionControl i.1 = Some control) →
  tracking r (Val current) st →
  (∀ text,
     Attribution.count
       (Attribution.display (Attribution.calls (Attribution.st_env st)) d) text
     + (if decide (text = first) then 1 else 0)
     = Attribution.count d text + (if decide (text = current) then 1 else 0)) →
  ∀ text,
    Attribution.count
      (Attribution.display
         (Attribution.calls (Attribution.st_env
            (Attribution.rerender ((λ i, (i.1, Val i.2)) <$> rest) st))) d)
      text
    + (if decide (text = first) then 1 else 0)
    = Attribution.count d text
      + (if decide (text = default current (last (rest.*2))) then 1 else 0).
Proof.
  intros Hshown. revert current r st.
  induction rest as [|[m a] rest IH]; intros current r st Hcur Hrest Htr Hinv;
    [apply Hinv|].
  cbn [fmap list_fmap]. simpl. rewrite default_last_cons.
  destruct (Hrest (m, a) ltac:(by left)) as [Ha Hcontrol]. simpl in *.
  destruct (useAttribution_step _ _ m (Val a) _ Htr) as [Htr1 Hcalls1].
  apply (IH a _ _ Ha ltac:(intros i Hi; apply Hrest; by right) Htr1).
  intros x. rewrite Hcalls1, display_app. unfold attribution_calls.
  destruct (decide (Val a = Val current)) as [[= ->]|Hne]; [apply Hinv|].
  rewrite Hcontrol. simpl.
  set (D := Attribution.display (Attribution.calls (Attribution.st_env st)) d)
    in *.
  assert (Hac : a ≠ current) by congruence.
  assert (Hpos : 1 ≤ Attribution.count D current).
  { specialize (Hinv current). rewrite (decide_True (P := current = current))
      in Hinv by done.
    unfold Attribution.shown in Hshown.
    destruct (decide (current = first)) as [->|]; lia. }
  destruct (decide (x = a)) as [->|Hxa].
  - rewrite count_addAttribution by done.
    rewrite count_removeAttribution_ne by done.
    specialize (Hinv a). rewrite (decide_False (P := a = current)) in Hinv by done.
    lia.
  - rewrite count_addAttribution_ne by done.
    destruct (decide (x = current)) as [->|Hxc].
    + rewrite count_removeAttribution by done.
      specialize (Hinv current).
      rewrite (decide_True (P := current = current)) in Hinv by done. lia.
    + rewrite count_removeAttribution_ne by done.
      specialize (Hinv x). rewrite (decide_False (P := x = current)) in Hinv by done.
      lia.
Qed.

(** X9: on a map with an attribution control whose display shows the
    first attribution, after any sequence of renders with non-empty
    attribution strings the display counts the first attribution once less
    and the last one once more (the same count when they are equal), and
    every other text as before. *)
Theorem useAttribution_display_follows (d : gmap string nat) (control : objref)
    (map0 : Attribution.LeafletMap) (first : string)
    (rest : list (Attribution.LeafletMap * string)) :
  Attribution.shown d first →
  first ≠ "" →
  (∀ i, i ∈ rest →
     i.2 ≠ "" ∧ Attribution.attributionControl i.1 = Some control) →
  let st := Attribution.rerender ((λ i, (i.1, Val i.2)) <$> rest)
              (Attribution.useAttribution map0 (Val first) Attribution.init) in
  let final := default first (last (rest.*2)) in
  ∀ text,
    Attribution.count
      (Attribution.display (Attribution.calls (Attribution.st_env st)) d) text
    + (if decide (text = first) then 1 else 0)
    = Attribution.count d text + (if decide (text = final) then 1 else 0).
Proof.
  intros Hshown Hfirst Hrest st final. subst st final.
  destruct (useAttribution_mount map0 (Val first)) as [Htr Hcalls].
  apply (useAttribution_display_step d control first first _ _ rest
           Hshown Hfirst Hrest Htr).
  intros text. by rewrite Hcalls.
Qed.

Lemma useAttribution_display_follows_witness :
  Attribution.count
    (Attribution.display
       (Attribution.calls (Attribution.st_env
          (Attribution.rerender
             ((λ i, (i.1, Val i.2)) <$>
              [({| Attribution.map_ref := 0;
                   Attribution.attributionControl := Some 4 |}, "B");
               ({| Attribution.map_ref := 0;
                   Attribution.attributionControl := Some 4 |}, "C")])
             (Attribution.useAttribution
                {| Attribution.map_ref := 0;
                   Attribution.attributionControl := Some 4 |}
                (Val "A") Attribution.init))))
       {["A" := 1]}) "C"
  = 1.
Proof.
  assert (Hrest : ∀ i : Attribution.LeafletMap * string,
            i ∈ [({| Attribution.map_ref := 0;
                     Attribution.attributionControl := Some 4 |}, "B");
                 ({| Attribution.map_ref := 0;
                     Attribution.attributionControl := Some 4 |}, "C")] →
            i.2 ≠ "" ∧ Attribution.attributionControl i.1 = Some 4).
  { intros i Hi.
    repeat (apply elem_of_cons in Hi as [->|Hi]; [by split|]).
    by apply elem_of_nil in Hi. }
  assert (Hshown : Attribution.shown {["A" := 1]} "A") by (vm_compute; lia).
  pose proof (useAttribution_display_follows {["A" := 1]} 4
                {| Attribution.map_ref := 0;
                   Attribution.attributionControl := Some 4 |}
                "A" _ Hshown ltac:(discriminate) Hrest "C") as Hcount.
  cbv zeta in Hcount.
  remember (Attribution.count _ "C") as n eqn:Hn in Hcount.
  vm_compute in Hcount. change (n + 0 = 1) in Hcount. rewrite <- Hn. lia.
Defined.

Section control_balance.
Context {E P W : Type} `{EqDecision E, EqDecision P}.
Variable createElement :
  P → LeafletContextInterface → W → LeafletElement E * W.
Variable updateElement : option (E → P → P → W → W).
Variable position : P → nullable string.

Implicit Types (st : @Control.state E P W) (props : P).

Lemma on_map_step (inst : E) (current pos : nullable string) (m0 m m' : objref)
    (cs : list (@Control.call E)) :
  on_map inst m0 cs →
  on_map inst m0
    ((cs ++ if decide (m = m') then []
            else [Control.Remove inst; Control.AddTo inst m'])
     ++ position_calls inst current pos).
Proof.
  intros (Hhead & Hcount & Hinst). split_and!.
  - by destruct cs.
  - rewrite !filter_app, !length_app.
    assert (∀ f : @Control.call E → bool,
              (f = History.is_addTo ∨ f = History.is_remove) →
              filter (λ c, f c = true) (position_calls inst current pos) = [])
      as Hpos.
    { intros f Hf. unfold position_calls.
      destruct pos as [| |p]; try done. case_decide; [done|].
      by destruct Hf as [-> | ->]. }
    rewrite !Hpos by auto. simpl.
    destruct (decide (m = m')); simpl; lia.
  - intros c [[Hc|Hc]%elem_of_app|Hc]%elem_of_app.
    + by apply Hinst.
    + destruct (decide (m = m')); [by apply elem_of_nil in Hc|].
      apply elem_of_cons in Hc as [->|Hc]; [done|].
      apply list_elem_of_singleton in Hc. by subst c.
    + unfold position_calls in Hc. destruct pos as [| |p];
        try by apply elem_of_nil in Hc.
      case_decide; [by apply elem_of_nil in Hc|].
      apply list_elem_of_singleton in Hc. by subst c.
Qed.

Lemma rerender_on_map first el m0 current pos m st inputs st' :
  placed updateElement first el current pos m st →
  on_map (instance el) m0 (Control.calls (Control.st_env st)) →
  Control.rerender position
    (Element.createElementHook createElement updateElement) inputs st = Ok st' →
  on_map (instance el) m0 (Control.calls (Control.st_env st')) ∧
  ∃ current' pos' m', placed updateElement first el current' pos' m' st'.
Proof.
  revert current pos m st.
  induction inputs as [|[props [context|]] inputs IH];
    intros current pos m st Hplaced Hon Hrun; simpl in Hrun.
  - injection Hrun as <-. eauto.
  - destruct (useLeafletControl_step createElement updateElement position
                _ _ _ _ _ _ props context Hplaced)
      as (st1 & Hst1 & Hplaced1 & Hcalls1 & _).
    rewrite Hst1 in Hrun. apply (IH _ _ _ _ Hplaced1); [|done].
    rewrite Hcalls1. by apply on_map_step.
  - done.
Qed.

(** X10: a control hook adds its control to the map on mount and, however
    it is rendered afterwards, has called [addTo] exactly once more than
    [remove]; the unmount calls [remove] once, so that after it every
    [addTo] is matched by a [remove].  All of these calls, and every
    [setPosition], are made on the control created on mount. *)
Theorem control_is_added_and_removed_in_pairs (w : W) (p0 : P)
    (c0 : LeafletContextInterface)
    (rest : list (P * option LeafletContextInterface)) st :
  Control.rerender position
    (Element.createElementHook createElement updateElement)
    ((p0, Some c0) :: rest) (Control.init w) = Ok st →
  let inst := instance (createElement p0 c0 w).1 in
  let mounted := Control.calls (Control.st_env st) in
  let gone := Control.calls (History.unmount_control st) in
  head mounted = Some (Control.AddTo inst (map c0)) ∧
  length (filter (λ c, History.is_addTo c = true) mounted)
  = S (length (filter (λ c, History.is_remove c = true) mounted)) ∧
  gone = mounted ++ [Control.Remove inst] ∧
  length (filter (λ c, History.is_addTo c = true) gone)
  = length (filter (λ c, History.is_remove c = true) gone) ∧
  ∀ c, c ∈ gone →
    match c with
    | Control.AddTo i _ | Control.Remove i | Control.SetPosition i _ => i = inst
    end.
Proof.
  intros Hrun inst mounted gone. simpl in Hrun.
  destruct (useLeafletControl_mount createElement updateElement position p0 c0 w)
    as (st0 & Hst0 & Hplaced0 & Hcalls0).
  rewrite Hst0 in Hrun.
  assert (Hon0 : on_map inst (map c0) (Control.calls (Control.st_env st0))).
  { rewrite Hcalls0. split_and!; [done|done|].
    by intros c ->%list_elem_of_singleton. }
  destruct (rerender_on_map _ _ _ _ _ _ _ _ _ Hplaced0 Hon0 Hrun)
    as ((Hhead & Hcount & Hinst) & current & pos & m & Hplaced).
  assert (Hgone : gone = mounted ++ [Control.Remove inst]).
  { subst gone mounted. unfold History.unmount_control.
    by rewrite (placed_addControl _ _ _ _ _ _ _ Hplaced). }
  split_and!; [done|done|done| |].
  - rewrite Hgone, !filter_app, !length_app. subst mounted. simpl. lia.
  - rewrite Hgone. intros c [Hc|Hc]%elem_of_app; [by apply Hinst|].
    apply list_elem_of_singleton in Hc. by subst c.
Qed.
End control_balance.

(** A control mounted at [topleft], moved to [topright] and unmounted. *)
Lemma control_is_added_and_removed_in_pairs_witness :
  ∃ st : @Control.state objref (objref * nullable string) unit,
    Control.calls (History.unmount_control st)
    = [Control.AddTo 9 0; Control.SetPosition 9 "topright"; Control.Remove 9].
Proof.
  assert (Hrun : ∃ st,
            Control.rerender snd
              (Element.createElementHook Sample.createControl None)
              [((1, Val "topleft"), Some Sample.root);
               ((2, Val "topright"), Some Sample.root)] (Control.init tt)
            = Ok st) by (vm_compute; eexists; reflexivity).
  destruct Hrun as [st Hrun].
  destruct (control_is_added_and_removed_in_pairs Sample.createControl None snd
              tt (1, Val "topleft") Sample.root
              [((2, Val "topright"), Some Sample.root)] st Hrun)
    as (Hhead & Hcount & Hgone & _).
  exists st. rewrite Hgone. clear Hgone Hhead Hcount.
  vm_compute in Hrun. injection Hrun as <-. reflexivity.
Defined.


(** ** More on panes *)

Lemma alter_snoc {A} (f : A → A) (l : list A) (x : A) :
  alter f (length l) (l ++ [x]) = l ++ [f x].
Proof. induction l as [|y l IH]; [done|]. simpl. f_equal. exact IH. Qed.

Lemma style_forEach_set_style (kvs : list (string * string))
    (el : Dom.HTMLElement) :
  Dom.parentNode (Dom.forEach PaneComponent.set_style kvs el) = Dom.parentNode el ∧
  Dom.classList (Dom.forEach PaneComponent.set_style kvs el) = Dom.classList el ∧
  (∀ k, k ∉ kvs.*1 →
     Dom.style (Dom.forEach PaneComponent.set_style kvs el) !! k
     = Dom.style el !! k) ∧
  (NoDup (kvs.*1) → ∀ k v, (k, v) ∈ kvs →
     Dom.style (Dom.forEach PaneComponent.set_style kvs el) !! k = Some v).
Proof.
  revert el. induction kvs as [|[k0 v0] kvs IH]; intros el.
  - split_and!; try done. by intros _ k v ?%elem_of_nil.
  - rewrite forEach_cons. destruct (IH (PaneComponent.set_style (k0, v0) el))
      as (Hparent & Hclasses & Hother & Hset).
    split_and!; [done|done| |].
    + intros k [Hk0 Hk]%not_elem_of_cons. rewrite (Hother k Hk). simpl.
      by rewrite lookup_insert_ne.
    + intros [Hk0 Hnd]%NoDup_cons k v [[= -> ->]|Hin]%elem_of_cons.
      * rewrite (Hother k0 Hk0). simpl. by rewrite lookup_insert_eq.
      * by apply Hset.
Qed.

Lemma parentNode_forEach_addClass (ts : list string) (el : Dom.HTMLElement) :
  Dom.parentNode (Dom.forEach Dom.addClass ts el) = Dom.parentNode el ∧
  Dom.style (Dom.forEach Dom.addClass ts el) = Dom.style el.
Proof.
  revert el. induction ts as [|t ts IH]; intros el; [done|].
  rewrite forEach_cons. by destruct (IH (Dom.addClass t el)) as [-> ->].
Qed.

Lemma all_chars_app P (a b : string) :
  all_chars P (a +:+ b) = all_chars P a && all_chars P b.
Proof.
  induction a as [|c a IH]; [done|].
  change (String c a +:+ b) with (String c (a +:+ b)). simpl.
  by rewrite IH, andb_assoc.
Qed.

Lemma all_chars_substring P (n m : nat) (s : string) :
  all_chars P s = true → all_chars P (String.substring n m s) = true.
Proof.
  revert n m. induction s as [|c s IH]; intros n m Hs.
  - by destruct n, m.
  - simpl in Hs. apply andb_true_iff in Hs as [Hc Hs].
    destruct n as [|n]; [destruct m as [|m]|]; simpl; [done| |by apply IH].
    by rewrite Hc, IH.
Qed.

Lemma all_chars_replace P (s : string) :
  all_chars P s = true → all_chars P (LMap.replace "Pane" "" s) = true.
Proof.
  induction s as [|c s IH]; intros Hs.
  - done.
  - unfold LMap.replace; fold LMap.replace.
    destruct (String.prefix "Pane" (String c s)).
    + change ("" +:+ ?x) with x. by apply all_chars_substring.
    + simpl in *. apply andb_true_iff in Hs as [Hc Hs].
      by rewrite Hc, IH.
Qed.

Lemma split_printable (s : string) :
  all_chars printable s = true → Dom.split " " s = [s].
Proof.
  induction s as [|c s IH]; intros Hs; [done|].
  simpl in Hs. apply andb_true_iff in Hs as [Hc Hs]. simpl.
  destruct (decide (c = " "%char)) as [->|_]; [done|].
  by rewrite IH.
Qed.

Lemma leaflet_pane_classes (name : string) :
  word name = true →
  Dom.splitClassName
    ("leaflet-pane" +:+
     (if Dom.truthy name
      then " leaflet-" +:+ LMap.replace "Pane" "" name +:+ "-pane" else ""))
  = ["leaflet-pane"; "leaflet-" +:+ LMap.replace "Pane" "" name +:+ "-pane"].
Proof.
  intros Hw. apply andb_true_iff in Hw as [Hne Hall].
  apply bool_decide_eq_true in Hne.
  unfold Dom.truthy. rewrite bool_decide_eq_true_2 by done.
  assert (Hrest : all_chars printable
                    ("leaflet-" +:+ LMap.replace "Pane" "" name +:+ "-pane")
                  = true).
  { rewrite !all_chars_app, (all_chars_replace _ _ Hall). done. }
  unfold Dom.splitClassName.
  change ("leaflet-pane" +:+ " leaflet-" +:+ ?x)
    with (String "l" (String "e" (String "a" (String "f" (String "l"
            (String "e" (String "t" (String "-" (String "p" (String "a"
            (String "n" (String "e" (String " " ("leaflet-" +:+ x)))))))))))))).
  cbn [Dom.split]. rewrite (split_printable _ Hrest).
  repeat (rewrite decide_False by done).
  rewrite decide_True by done.
  rewrite filter_cons_True by done.
  rewrite filter_cons_True; [done|].
  unfold Dom.truthy. apply bool_decide_eq_true_2.
  by change ("leaflet-" +:+ ?x) with (String "l" ("eaflet-" +:+ x)).
Qed.

(** X11: when [createPane] succeeds for a name of printable characters
    and a plain [className], the map's existing nodes are as they were and
    one node is new: the pane.  It sits under the pane named by
    [props.pane], else under the ambient pane of the context, and under the
    map pane when no such name is given or the map has no pane of that
    name; its classes are [leaflet-pane], [leaflet-<name>-pane] with the
    first [Pane] taken out of the name, and the tokens of [className]. *)
Theorem createPane_builds_the_pane (name : string) (props : PaneProps.t)
    (context : LeafletContextInterface) (m : LMap.t) (el : objref)
    (m' : LMap.t) :
  PaneComponent.createPane name props context m = Ok (el, m') →
  word name = true →
  (∀ cls, PaneProps.className props = Val cls → plain cls = true) →
  el = length (LMap.nodes m) ∧
  LMap._mapPane m' = LMap._mapPane m ∧
  ∃ node, LMap.nodes m' = LMap.nodes m ++ [node] ∧
    Dom.parentNode node
    = Some (default (LMap._mapPane m) (parent_pane props context m)) ∧
    ∀ x, x ∈ Dom.classList node
         ↔ x = "leaflet-pane"
           ∨ x = "leaflet-" +:+ LMap.replace "Pane" "" name +:+ "-pane"
           ∨ ∃ cls, PaneProps.className props = Val cls ∧
                    x ∈ Dom.splitClassName cls.
Proof.
  unfold PaneComponent.createPane. repeat case_bool_decide; try done.
  fold (parent_pane props context m). unfold LMap.createPane.
  intros Hok Hword _. rewrite (leaflet_pane_classes name Hword) in Hok.
  set (node0 := Dom.Element _ _ _ _) in Hok.
  set (node1 := match PaneProps.className props with
                | Val cls => Dom.addClassName cls node0
                | _ => node0
                end).
  set (node2 := match PaneProps.style props with
                | Val kvs => Dom.forEach PaneComponent.set_style kvs node1
                | _ => node1
                end).
  assert (Hm' : el = length (LMap.nodes m) ∧ LMap._mapPane m' = LMap._mapPane m
                ∧ LMap.nodes m' = LMap.nodes m ++ [node2]).
  { injection Hok as <- <-. subst node2 node1.
    destruct (PaneProps.className props), (PaneProps.style props);
      unfold LMap.alter_node; cbn [LMap.nodes LMap._mapPane];
      by rewrite ?alter_snoc. }
  destruct Hm' as (-> & Hmap & Hnodes). split_and!; [done|done|].
  exists node2. split; [done|].
  assert (H1 : Dom.parentNode node1 = Dom.parentNode node0 ∧
               ∀ x, x ∈ Dom.classList node1
                    ↔ x = "leaflet-pane"
                      ∨ x = "leaflet-" +:+ LMap.replace "Pane" "" name
                            +:+ "-pane"
                      ∨ ∃ cls, PaneProps.className props = Val cls ∧
                               x ∈ Dom.splitClassName cls).
  { assert (Hbase : ∀ x, x ∈ Dom.classList node0
                         ↔ x = "leaflet-pane"
                           ∨ x = "leaflet-" +:+ LMap.replace "Pane" "" name
                                 +:+ "-pane").
    { intros x. subst node0. cbn [Dom.classList].
      rewrite !elem_of_cons, elem_of_nil. tauto. }
    subst node1. destruct (PaneProps.className props) as [| |cls].
    1,2: split; [done|]; intros x; rewrite Hbase;
         split; [tauto|intros [?|[?|(? & [=] & _)]]; tauto].
    unfold Dom.addClassName.
    destruct (parentNode_forEach_addClass (Dom.splitClassName cls) node0)
      as [-> _].
    split; [done|]. intros x. rewrite elem_of_forEach_addClass, Hbase.
    split.
    - intros [?|[?|?]]; eauto.
    - intros [?|[?|(? & [= <-] & ?)]]; auto. }
  destruct H1 as [Hparent1 Hcls1].
  subst node2. destruct (PaneProps.style props) as [| |kvs].
  1,2: by rewrite Hparent1.
  destruct (style_forEach_set_style kvs node1)
    as (Hparent2 & Hclasses2 & _).
  rewrite Hparent2, Hparent1, Hclasses2. done.
Qed.

Lemma createPane_builds_the_pane_witness :
  ∃ el m' node,
    PaneComponent.createPane "labels" Sample.labels Sample.root Sample.bare_map
    = Ok (el, m') ∧
    LMap.nodes m' = LMap.nodes Sample.bare_map ++ [node] ∧
    Dom.parentNode node = Some 0 ∧
    "leaflet-labels-pane" ∈ Dom.classList node ∧
    "halo" ∈ Dom.classList node.
Proof.
  destruct (PaneComponent.createPane "labels" Sample.labels Sample.root
              Sample.bare_map) as [[el m']|msg] eqn:Hok;
    [|by vm_compute in Hok].
  destruct (createPane_builds_the_pane _ _ _ _ _ _ Hok)
    as (_ & _ & node & Hnodes & Hparent & Hclasses).
  { reflexivity. }
  { by intros cls [= <-]. }
  exists el, m', node. split_and!; [done|exact Hnodes|exact Hparent|..].
  - apply Hclasses. right. left. reflexivity.
  - apply Hclasses. right. right. exists "halo". split; [done|].
    by apply list_elem_of_In; left.
Defined.

Lemma PaneComponent_mount_output props context m next st out :
  PaneComponent.PaneComponent props (Some context)
    (PaneComponent.init m next) = Ok (st, out) →
  out = None ∧ pane_memo (PaneProps.name props) st.
Proof.
  unfold PaneComponent.PaneComponent, PaneComponent.init; simpl.
  unfold React.useEffect, React.commit_create, React.commit_destroy; simpl.
  unfold PaneComponent.createPane_effect; simpl.
  destruct (PaneComponent.createPane (PaneProps.name props) props context m)
    as [[el m']|msg]; simpl; [|done].
  intros [= <- <-]. split; [by destruct (PaneProps.children props)|].
  unfold pane_memo; simpl. eauto.
Qed.

(** A render of a mounted pane component: what it returns and what it
    memoises. *)
Lemma PaneComponent_render name s st props context :
  pane_ready name s st →
  PaneComponent.thrown s = None →
  pane_memo name st →
  ∃ st' provided,
    PaneComponent.PaneComponent props (Some context) st
    = Ok (st', match PaneProps.children props, PaneComponent.paneElement s with
               | Val ch, Val el => Some (ch, provided, el)
               | _, _ => None
               end) ∧
    pane_ready name s st' ∧
    pane_memo name st' ∧
    PaneComponent.newContext st' = Some (context, provided) ∧
    (∃ r, provided = PaneComponent.with_pane context name r) ∧
    (∀ v, PaneComponent.newContext st = Some (context, v) → provided = v).
Proof.
  intros [Hname Henv Hslot Hctx] Hthrown Hmemo.
  unfold PaneComponent.PaneComponent. rewrite Hname, Hslot, Henv.
  cbn [useLeafletContext React.useState default].
  unfold React.useEffect, React.commit_create, React.commit_destroy,
    React.deps_changed; cbn [React.deps].
  rewrite bool_decide_eq_false_2 by (intros Hx; by apply Hx).
  rewrite Hthrown. unfold pane_memo in Hmemo.
  destruct (PaneComponent.newContext st) as [[d v]|] eqn:Hnew.
  - case_bool_decide as Hd.
    + subst d. destruct Hmemo as [r ->].
      eexists _, _. split; [reflexivity|].
      split_and!; [by split|unfold pane_memo; simpl; eauto|done|eauto|].
      by intros v [= <-].
    + eexists _, _. split; [reflexivity|].
      split_and!; [by split|unfold pane_memo; simpl; eauto|done|eauto|].
      intros v' [= Hdc _]. done.
  - eexists _, _. split; [reflexivity|].
    split_and!; [by split|unfold pane_memo; simpl; eauto|done|eauto|done].
Qed.

Lemma PaneComponent_rerender_memo name s st inputs st' :
  pane_ready name s st →
  PaneComponent.thrown s = None →
  pane_memo name st →
  PaneComponent.rerender inputs st = Ok st' →
  pane_ready name s st' ∧ pane_memo name st'.
Proof.
  intros Hready Hthrown. revert st Hready.
  induction inputs as [|[props [context|]] inputs IH];
    intros st Hready Hmemo Hrun; simpl in Hrun.
  - by injection Hrun as <-.
  - destruct (PaneComponent_render _ _ _ props context Hready Hthrown Hmemo)
      as (st1 & provided & Hst1 & Hready1 & Hmemo1 & _).
    rewrite Hst1 in Hrun. by apply (IH st1).
  - done.
Qed.

(** X12: the first render of a pane component returns nothing.  Once it
    is mounted, every render with children returns the portal into the
    pane element created on mount, with a context that is the ambient
    context with only its pane replaced by the pane's name; a render
    without children returns nothing.  Rendered again under the same
    ambient context object it provides the very same context object. *)
Theorem PaneComponent_provides_pane_context (m : LMap.t) (next : objref)
    (first : PaneProps.t) (context0 : LeafletContextInterface)
    (st : PaneComponent.state) (out : PaneComponent.output)
    (rest : list (PaneProps.t * option LeafletContextInterface))
    (st1 : PaneComponent.state)
    (props props' : PaneProps.t) (context : LeafletContextInterface) :
  PaneComponent.PaneComponent first (Some context0)
    (PaneComponent.init m next) = Ok (st, out) →
  PaneComponent.rerender rest st = Ok st1 →
  out = None ∧
  ∃ el st2 st3 provided,
    PaneComponent.paneElement (PaneComponent.st_env st) = Val el ∧
    PaneComponent.PaneComponent props (Some context) st1
    = Ok (st2, match PaneProps.children props with
               | Val ch => Some (ch, provided, el)
               | _ => None
               end) ∧
    PaneComponent.PaneComponent props' (Some context) st2
    = Ok (st3, match PaneProps.children props' with
               | Val ch => Some (ch, provided, el)
               | _ => None
               end) ∧
    pane provided = Val (PaneProps.name first) ∧
    map provided = map context ∧
    __version provided = __version context ∧
    layerContainer provided = layerContainer context ∧
    layersControl provided = layersControl context ∧
    overlayContainer provided = overlayContainer context.
Proof.
  intros Hmount Hrun.
  destruct (PaneComponent_mount_output _ _ _ _ _ _ Hmount) as [Hout Hmemo].
  destruct (PaneComponent_mount _ _ _ _ _ _ Hmount)
    as (el & m' & Hcreate & Hready).
  destruct (PaneComponent_rerender_memo _ _ _ _ _ Hready eq_refl Hmemo Hrun)
    as [Hready1 Hmemo1].
  destruct (PaneComponent_render _ _ _ props context Hready1 eq_refl Hmemo1)
    as (st2 & provided & Hst2 & Hready2 & Hmemo2 & Hnew2 & [r ->] & _).
  destruct (PaneComponent_render _ _ _ props' context Hready2 eq_refl Hmemo2)
    as (st3 & provided' & Hst3 & _ & _ & _ & _ & Hsame).
  rewrite (Hsame _ Hnew2) in Hst3.
  split; [done|].
  exists el, st2, st3, (PaneComponent.with_pane context (PaneProps.name first) r).
  split_and!; try done.
  by rewrite (ready_env _ _ _ Hready).
Qed.

(** The pane [labels] rendered again with children 21 under the root
    context. *)
Lemma PaneComponent_provides_pane_context_witness :
  ∃ st out st2 provided,
    PaneComponent.PaneComponent Sample.labels (Some Sample.root)
      (PaneComponent.init Sample.bare_map 100) = Ok (st, out) ∧
    PaneComponent.PaneComponent
      (PaneProps.Make (Val 21) Undefined "renamed" Undefined Undefined)
      (Some Sample.root) st
    = Ok (st2, Some (21, provided, 1)) ∧
    pane provided = Val "labels".
Proof.
  destruct (PaneComponent.PaneComponent Sample.labels (Some Sample.root)
              (PaneComponent.init Sample.bare_map 100))
    as [[st out]|msg] eqn:Hmount; [|by vm_compute in Hmount].
  destruct (PaneComponent_provides_pane_context Sample.bare_map 100
              Sample.labels Sample.root st out [] st
              (PaneProps.Make (Val 21) Undefined "renamed" Undefined Undefined)
              Sample.labels Sample.root Hmount eq_refl)
    as (_ & el & st2 & st3 & provided & Hel & Hst2 & _ & Hpane & _).
  exists st, out, st2, provided. split_and!; [done| |exact Hpane].
  rewrite Hst2. simpl. do 4 f_equal.
  vm_compute in Hmount. injection Hmount as <- _.
  simpl in Hel. by injection Hel as <-.
Defined.

Lemma createPane_builds_the_pane_nodes name props context m el m' :
  PaneComponent.createPane name props context m = Ok (el, m') →
  el = length (LMap.nodes m) ∧
  ∃ node, LMap.nodes m' = LMap.nodes m ++ [node].
Proof.
  unfold PaneComponent.createPane. repeat case_bool_decide; try done.
  unfold LMap.createPane. intros [= <- <-]. split; [done|].
  destruct (PaneProps.className props), (PaneProps.style props);
    unfold LMap.alter_node; cbn [LMap.nodes];
    rewrite ?alter_snoc; eauto.
Qed.

(** X13: the unmount of a mounted pane component with a non-empty name
    detaches the pane's element from the document: afterwards the node has
    no parent, while its classes and style and every other node are as
    they were, and the map has lost no node. *)
Theorem PaneComponent_unmount_detaches (m : LMap.t) (next : objref)
    (props : PaneProps.t) (context : LeafletContextInterface)
    (st : PaneComponent.state) (out : PaneComponent.output) :
  PaneComponent.PaneComponent props (Some context)
    (PaneComponent.init m next) = Ok (st, out) →
  PaneProps.name props ≠ "" →
  let before := LMap.nodes (PaneComponent.leaflet (PaneComponent.st_env st)) in
  let after :=
    LMap.nodes (PaneComponent.leaflet
      (PaneComponent.st_env (PaneComponent.unmount st))) in
  ∃ el node,
    PaneComponent.paneElement (PaneComponent.st_env st) = Val el ∧
    before !! el = Some node ∧
    after !! el = Some (LMap.remove node) ∧
    Dom.parentNode (LMap.remove node) = None ∧
    Dom.classList (LMap.remove node) = Dom.classList node ∧
    Dom.style (LMap.remove node) = Dom.style node ∧
    length after = length before ∧
    ∀ r, r ≠ el → after !! r = before !! r.
Proof.
  intros Hmount Hname before after.
  destruct (PaneComponent_mount _ _ _ _ _ _ Hmount)
    as (el & m' & Hcreate & [_ Henv Hslot _]).
  destruct (createPane_registers _ _ _ _ _ _ Hcreate) as [Hpanes _].
  destruct (createPane_builds_the_pane_nodes _ _ _ _ _ _ Hcreate)
    as (Hel & node & Hnodes).
  assert (Hbefore : before = LMap.nodes m') by (subst before; by rewrite Henv).
  assert (Hafter : after = alter LMap.remove el (LMap.nodes m')).
  { subst after. unfold PaneComponent.unmount. rewrite Hslot, Henv.
    cbn [React.run_destroy PaneComponent.st_env].
    unfold PaneComponent.removeCreatedPane, LMap.getPane.
    cbn [PaneComponent.leaflet]. rewrite Hpanes. unfold Dom.truthy.
    rewrite bool_decide_eq_true_2 by done. by rewrite lookup_insert_eq. }
  assert (Hnode : LMap.nodes m' !! el = Some node).
  { rewrite Hnodes, Hel. by rewrite lookup_app_r, Nat.sub_diag by lia. }
  exists el, node. rewrite Hbefore, Hafter. split_and!; try done.
  - by rewrite Henv.
  - by rewrite list_lookup_alter_eq, Hnode.
  - apply length_alter.
  - intros r Hr. by rewrite list_lookup_alter_ne.
Qed.

Lemma PaneComponent_unmount_detaches_witness :
  ∃ st out node,
    PaneComponent.PaneComponent Sample.labels (Some Sample.root)
      (PaneComponent.init Sample.bare_map 100) = Ok (st, out) ∧
    LMap.nodes (PaneComponent.leaflet
      (PaneComponent.st_env (PaneComponent.unmount st))) !! 1
    = Some node ∧
    Dom.parentNode node = None.
Proof.
  destruct (PaneComponent.PaneComponent Sample.labels (Some Sample.root)
              (PaneComponent.init Sample.bare_map 100))
    as [[st out]|msg] eqn:Hmount; [|by vm_compute in Hmount].
  destruct (PaneComponent_unmount_detaches Sample.bare_map 100 Sample.labels
              Sample.root st out Hmount ltac:(discriminate))
    as (el & node & Hel & _ & Hafter & Hparent & _).
  exists st, out, (LMap.remove node). split_and!; [done| |exact Hparent].
  rewrite <- Hafter. f_equal.
  vm_compute in Hmount. injection Hmount as <- _.
  simpl in Hel. by injection Hel as <-.
Defined.

(** ** Path options *)
Lemma usePathOptions_styled h prev st el p :
  styled h prev st →
  (Props.is_nullish (Props.field h p "pathOptions") = false
   ∨ Props.field h p "pathOptions" = prev) →
  let st' := Path.usePathOptions h el p st in
  styled h (Props.field h p "pathOptions") st' ∧
  Path.calls (Path.st_env st')
  = Path.calls (Path.st_env st)
    ++ style_changes prev [(el, Props.field h p "pathOptions")].
Proof.
  intros [Href Hslot] Hv.
  unfold Path.usePathOptions, React.useEffect, React.commit_create,
    React.commit_destroy.
  destruct st as [[oref n cs] slot]; simpl in *. subst oref.
  destruct (React.deps_changed slot (el, p)) eqn:Hd.
  - assert (Hrun : ∀ s : Path.env, React.run_destroy slot s = s).
    { intros s. destruct slot as [[d [f|]]|]; simpl in *; [|done..].
      by destruct Hslot. }
    rewrite Hrun.
    unfold Path.updatePathOptions; simpl.
    destruct (decide (Props.field h p "pathOptions" = prev)) as [Heq|Hne].
    + rewrite bool_decide_eq_false_2 by (intros Hx; apply Hx; by rewrite Heq).
      simpl. rewrite app_nil_r. split; [|done]. split; simpl; by rewrite ?Heq.
    + rewrite bool_decide_eq_true_2 by congruence.
      destruct Hv as [Hv|Hv]; [|done]. rewrite Hv. simpl.
      split; [|done]. by split.
  - destruct slot as [[[e q] f]|]; [|done]. simpl in *.
    apply bool_decide_eq_false in Hd. apply dec_stable in Hd.
    injection Hd as -> ->. destruct Hslot as [-> Hq].
    rewrite decide_True by done. simpl. rewrite app_nil_r.
    split; [|done]. split; simpl; by rewrite ?Hq.
Qed.

Lemma style_changes_app prev a b :
  style_changes prev (a ++ b)
  = style_changes prev a ++ style_changes (default prev (last (a.*2))) b.
Proof.
  revert prev. induction a as [|[el v] a IH]; intros prev; [done|].
  simpl. rewrite IH, <- app_assoc. do 3 f_equal.
  destruct a as [|[el' v'] a]; [done|]. simpl.
  by rewrite !default_last_cons.
Qed.

Lemma rerender_styled h prev st inputs :
  styled h prev st →
  Forall (λ i, Props.is_nullish (Props.field h i.2 "pathOptions") = false)
    inputs →
  Path.calls (Path.st_env (Path.rerender h inputs st))
  = Path.calls (Path.st_env st)
    ++ style_changes prev
         ((λ i, (i.1, Props.field h i.2 "pathOptions")) <$> inputs).
Proof.
  intros Hst Hin. revert prev st Hst.
  induction Hin as [|[el p] inputs Hp _ IH]; intros prev st Hst.
  { simpl. by rewrite app_nil_r. }
  destruct (usePathOptions_styled h prev st el p Hst (or_introl Hp))
    as [Hst' Hcalls].
  cbn [Path.rerender foldl fmap list_fmap fst snd style_changes].
  unfold Path.rerender in IH. rewrite (IH _ _ Hst'), Hcalls.
  cbn [style_changes]. by rewrite app_nil_r, <- app_assoc.
Qed.

Lemma rerender_quiet h st inputs :
  styled h Pane.VUndefined st →
  Forall (λ i, Props.field h i.2 "pathOptions" = Pane.VUndefined) inputs →
  styled h Pane.VUndefined (Path.rerender h inputs st) ∧
  Path.calls (Path.st_env (Path.rerender h inputs st))
  = Path.calls (Path.st_env st).
Proof.
  intros Hst Hin. revert st Hst.
  induction Hin as [|[el p] inputs Hp _ IH]; intros st Hst; [done|].
  destruct (usePathOptions_styled h _ st el p Hst (or_intror Hp))
    as [Hst' Hcalls].
  simpl in Hp. rewrite Hp in Hst', Hcalls. simpl in Hcalls.
  rewrite app_nil_r in Hcalls.
  destruct (IH _ Hst') as [? Hc]. split; [done|].
  unfold Path.rerender in *. simpl. by rewrite Hc.
Qed.

(** X14: while [pathOptions] is given, [setStyle] is called exactly when
    its value is not the one of the render before, with that value and on
    the instance of the element of that render; the renders before the
    first [pathOptions] make no call. *)
Theorem setStyle_follows_pathOptions (h : list (gmap string Pane.val))
    (quiet changing : list (LeafletElement objref * objref)) :
  Forall (λ i, Props.field h i.2 "pathOptions" = Pane.VUndefined) quiet →
  Forall (λ i, Props.is_nullish (Props.field h i.2 "pathOptions") = false)
    changing →
  Path.calls (Path.st_env (Path.rerender h (quiet ++ changing) Path.init))
  = style_changes Pane.VUndefined
      ((λ i, (i.1, Props.field h i.2 "pathOptions")) <$> changing).
Proof.
  intros Hquiet Hchanging.
  assert (Hinit : styled h Pane.VUndefined Path.init) by (by split).
  destruct (rerender_quiet h _ quiet Hinit Hquiet) as [Hst Hcalls].
  pose proof (rerender_styled h _ _ changing Hst Hchanging) as Hc.
  unfold Path.rerender in *. rewrite foldl_app, Hc. by rewrite Hcalls.
Qed.

Lemma usePathOptions_restyled_mount h el p :
  Props.field h p "pathOptions" ≠ Pane.VUndefined →
  restyled (el, p) (Path.usePathOptions h el p Path.init).
Proof.
  intros Hp. unfold Path.usePathOptions, React.useEffect, React.commit_create,
    React.commit_destroy, Path.updatePathOptions; simpl.
  rewrite bool_decide_eq_true_2 by congruence.
  destruct (Props.is_nullish _) eqn:Hn; simpl; (split; [done|]);
    unfold applied; simpl; done.
Qed.

Lemma usePathOptions_restyled h prev st el p :
  restyled prev st →
  restyled (el, p) (Path.usePathOptions h el p st).
Proof.
  intros [Hslot Happ]. destruct st as [[oref n cs] slot]; simpl in *.
  subst slot.
  unfold Path.usePathOptions, React.useEffect, React.commit_create,
    React.commit_destroy, React.deps_changed; simpl.
  case_bool_decide as Hd; simpl.
  - unfold Path.updatePathOptions; simpl.
    case_bool_decide as Hne; simpl; [|by split].
    destruct (Props.is_nullish _) eqn:Hn; simpl; (split; [done|]);
      unfold applied; simpl; done.
  - subst prev. by split.
Qed.

Lemma usePathOptions_reset h prev st el p :
  restyled prev st →
  prev ≠ (el, p) →
  Props.is_nullish (Props.field h p "pathOptions") = true →
  let st' := Path.usePathOptions h el p st in
  Path.calls (Path.st_env st')
  = Path.calls (Path.st_env st)
    ++ [Path.SetStyle (instance el)
          (Path.Literal (Path.literals (Path.st_env st)))] ∧
  Path.literals (Path.st_env st') = S (Path.literals (Path.st_env st)).
Proof.
  intros [Hslot Happ] Hprev Hn. destruct st as [[oref n cs] slot]; simpl in *.
  subst slot.
  unfold Path.usePathOptions, React.useEffect, React.commit_create,
    React.commit_destroy, React.deps_changed; simpl.
  rewrite bool_decide_eq_true_2 by done. simpl.
  unfold Path.updatePathOptions; simpl. rewrite Hn.
  rewrite bool_decide_eq_true_2; [done|].
  intros <-. unfold applied in Happ; simpl in Happ. congruence.
Qed.

Lemma rerender_restyled h prev st inputs :
  restyled prev st →
  restyled (default prev (last inputs)) (Path.rerender h inputs st).
Proof.
  revert prev st. induction inputs as [|[el p] inputs IH]; intros l st Hst;
    [done|].
  rewrite default_last_cons. apply IH.
  by eapply usePathOptions_restyled.
Qed.

Lemma rerender_reset h el0 p0 st news :
  restyled (el0, p0) st →
  NoDup (p0 :: news.*2) →
  Forall (λ i, Props.is_nullish (Props.field h i.2 "pathOptions") = true)
    news →
  Path.calls (Path.st_env (Path.rerender h news st))
  = Path.calls (Path.st_env st)
    ++ imap (λ i e, Path.SetStyle (instance e.1)
                      (Path.Literal (Path.literals (Path.st_env st) + i)))
         news.
Proof.
  intros Hst Hdup Hnews. revert el0 p0 st Hst Hdup.
  induction Hnews as [|[el p] news Hp _ IH]; intros el0 p0 st Hst Hdup.
  { simpl. by rewrite app_nil_r. }
  simpl in Hp.
  assert (Hne : (el0, p0) ≠ (el, p)).
  { intros [= -> ->]. apply NoDup_cons in Hdup as [Hin _]. set_solver. }
  destruct (usePathOptions_reset h _ st el p Hst Hne Hp) as [Hcalls Hlit].
  pose proof (usePathOptions_restyled h _ st el p Hst) as Hst'.
  unfold Path.rerender in *. cbn [foldl fst snd].
  rewrite (IH el p _ Hst'); [|by apply NoDup_cons in Hdup as [_ ?]].
  rewrite Hcalls, Hlit, <- app_assoc. f_equal. cbn [imap]. simpl.
  rewrite Nat.add_0_r. f_equal. apply imap_ext. intros i x _. simpl.
  do 2 f_equal. lia.
Qed.

(** X15: once a path was mounted with [pathOptions], every later render
    without them that comes with a new props object calls [setStyle]
    again, each time with a new empty object. *)
Theorem dropped_pathOptions_reset_on_every_render
    (h : list (gmap string Pane.val)) (el0 : LeafletElement objref)
    (p0 : objref) (history news : list (LeafletElement objref * objref)) :
  Props.field h p0 "pathOptions" ≠ Pane.VUndefined →
  NoDup (default p0 (last (history.*2)) :: news.*2) →
  Forall (λ i, Props.is_nullish (Props.field h i.2 "pathOptions") = true)
    news →
  let st := Path.rerender h history
              (Path.usePathOptions h el0 p0 Path.init) in
  Path.calls (Path.st_env (Path.rerender h news st))
  = Path.calls (Path.st_env st)
    ++ imap (λ i e, Path.SetStyle (instance e.1)
                      (Path.Literal (Path.literals (Path.st_env st) + i)))
         news.
Proof.
  intros Hp0 Hdup Hnews st.
  pose proof (rerender_restyled h _ _ history
                (usePathOptions_restyled_mount h el0 p0 Hp0)) as Hst.
  fold st in Hst.
  destruct (default (el0, p0) (last history)) as [el p] eqn:Hlast.
  apply (rerender_reset h el p st news Hst); [|done].
  replace p with (default p0 (last history.*2)); [done|].
  rewrite fmap_last. destruct (last history) as [[e q]|]; simpl in *; congruence.
Qed.

Lemma setStyle_follows_pathOptions_witness :
  Path.calls (Path.st_env
    (Path.rerender Sample.styles
       ([(Sample.layer Sample.root, 0)]
        ++ [(Sample.layer Sample.root, 1); (Sample.layer Sample.root, 2);
            (Sample.layer Sample.root, 3)])
       Path.init))
  = [Path.SetStyle 7 (Path.FromProps (Pane.VObject 50));
     Path.SetStyle 7 (Path.FromProps (Pane.VObject 51))].
Proof.
  rewrite setStyle_follows_pathOptions; [reflexivity|..];
    repeat first [apply Forall_nil_2 | apply Forall_cons_2; [reflexivity|]].
Defined.

Lemma dropped_pathOptions_reset_on_every_render_witness :
  Path.calls (Path.st_env
    (Path.rerender Sample.styles
       [(Sample.layer Sample.root, 4); (Sample.layer Sample.root, 5)]
       (Path.rerender Sample.styles [(Sample.layer Sample.root, 3)]
          (Path.usePathOptions Sample.styles (Sample.layer Sample.root) 1
             Path.init))))
  = [Path.SetStyle 7 (Path.FromProps (Pane.VObject 50));
     Path.SetStyle 7 (Path.FromProps (Pane.VObject 51));
     Path.SetStyle 7 (Path.Literal 0); Path.SetStyle 7 (Path.Literal 1)].
Proof.
  rewrite dropped_pathOptions_reset_on_every_render; [reflexivity|..].
  - discriminate.
  - vm_compute. repeat constructor; set_solver.
  - repeat first [apply Forall_nil_2 | apply Forall_cons_2; [reflexivity|]].
Defined.

(** ** Layer components *)
Section store_facts.
Context {E W : Type} `{EqDecision E}.
Variable createElement :
  list (gmap string Pane.val) → objref → LeafletContextInterface → W →
  LeafletElement E * W.
Variable updateElement :
  list (gmap string Pane.val) → E → objref → objref → W → W.

Local Abbreviation useElement :=
  (Element.useMutableLeafletElement (Props.lift_create createElement)
     (Props.lift_update updateElement)).

Lemma deref_prefix (h0 h : list (gmap string Pane.val)) (r : objref) :
  h0 `prefix_of` h → r < length h0 → Pane.deref h r = Pane.deref h0 r.
Proof.
  intros [k ->] Hr. unfold Pane.deref. by rewrite lookup_app_l.
Qed.

Lemma with_store_mounted el applied h'
    (est : @Element.state E objref (list (gmap string Pane.val) * W)) :
  mounted el applied est → mounted el applied (Props.with_store h' est).
Proof. intros [? ? ? ?]. by split. Qed.

Lemma useElement_store el applied p context
    (est : @Element.state E objref (list (gmap string Pane.val) * W)) :
  mounted el applied est →
  Props.store (useElement p context est) = Props.store est.
Proof.
  intros [Hel Hprops [c Hslot] _].
  destruct est as [[eref pref [h w] cs] slot]; simpl in *; subst.
  unfold Props.store, Element.useMutableLeafletElement; simpl.
  unfold React.useEffect, React.commit_create, React.commit_destroy,
    React.deps_changed; simpl.
  case_bool_decide; simpl; [|done].
  unfold Element.updateElementProps_body; simpl.
  by case_bool_decide.
Qed.

Lemma useElement_first_store p context h w :
  Props.store (useElement p context (Element.init (h, w))) = h.
Proof.
  unfold Props.store, Element.useMutableLeafletElement, Element.init; simpl.
  rewrite create_once_init; simpl.
  unfold React.useEffect, React.commit_create, React.commit_destroy; simpl.
  unfold Element.updateElementProps_body; simpl.
  rewrite bool_decide_eq_false_2 by (intros Hne; by apply Hne).
  simpl. unfold Props.lift_create; simpl.
  by destruct (createElement h p context w).
Qed.

Lemma in_store_first h0 p context w :
  p < length h0 →
  in_store h0 (createElement h0 p context w).1 p
    (useElement p context (Element.init (h0, w))).
Proof.
  intros Hp.
  destruct (mutable_first (Props.lift_create createElement)
              (Props.lift_update updateElement) p context (h0, w))
    as [Hm _].
  assert (Hel : (Props.lift_create createElement p context (h0, w)).1
                = (createElement h0 p context w).1).
  { unfold Props.lift_create; simpl. by destruct (createElement _ _ _ _). }
  rewrite Hel in Hm. split; [done|..]; by rewrite useElement_first_store.
Qed.

Lemma in_store_step h0 el applied h' p context
    (est : @Element.state E objref (list (gmap string Pane.val) * W)) :
  in_store h0 el applied est →
  Props.store est `prefix_of` h' →
  p < length h' →
  let est' := useElement p context (Props.with_store h' est) in
  in_store h0 el p est' ∧
  Props.store est' = h' ∧
  Element.calls (Element.st_env est')
  = Element.calls (Element.st_env est)
    ++ (if decide (p = applied) then []
        else [Element.UpdateElement (instance el) p applied]).
Proof.
  intros [Hm Happ Hpre] Hh' Hp est'.
  pose proof (with_store_mounted _ _ h' _ Hm) as Hm'.
  destruct (mutable_step (Props.lift_create createElement)
              (Props.lift_update updateElement) _ _ _ p context Hm')
    as [Hm'' Hcalls].
  assert (Hstore : Props.store est' = h').
  { subst est'. by rewrite (useElement_store _ _ _ _ _ Hm'). }
  split; [|done]. split; [done|by rewrite Hstore|].
  rewrite Hstore. by etrans.
Qed.
End store_facts.

Lemma withPane_store props context (h : list (gmap string Pane.val)) :
  props < length h →
  let resolved := Pane.nullish (Props.field h props "pane")
                    (Pane.of_nullable (pane context)) in
  let r := Pane.withPane props context h in
  h `prefix_of` r.2 ∧ r.1 < length r.2 ∧
  r = (if Pane.truthy resolved
       then (length h, h ++ [<["pane" := resolved]> (Pane.deref h props)])
       else (props, h)) ∧
  ∀ k, k ≠ "pane" → Props.field r.2 r.1 k = Props.field h props k.
Proof.
  intros Hp resolved r. subst r. unfold Pane.withPane.
  fold (Props.field h props "pane"). fold resolved.
  destruct (Pane.truthy resolved); simpl.
  - split_and!; [by apply prefix_app_r|rewrite length_app; simpl; lia|done|].
    intros k Hk. unfold Props.field, Pane.deref.
    rewrite lookup_app_r, Nat.sub_diag by lia. simpl.
    unfold Pane.get. by rewrite lookup_insert_ne.
  - by split_and!.
Qed.

Lemma withPane_lookup props context (h : list (gmap string Pane.val)) k :
  props < length h →
  k ≠ "pane" →
  Pane.deref (Pane.withPane props context h).2
    (Pane.withPane props context h).1 !! k
  = Pane.deref h props !! k.
Proof.
  intros Hp Hk. unfold Pane.withPane.
  destruct (Pane.truthy _); simpl; [|done].
  unfold Pane.deref. rewrite lookup_app_r, Nat.sub_diag by lia. simpl.
  by rewrite lookup_insert_ne.
Qed.

Section layer_hook_facts.
Context {W : Type}.
Variable createElement :
  list (gmap string Pane.val) → objref → LeafletContextInterface → W →
  LeafletElement objref * W.
Variable updateElement :
  list (gmap string Pane.val) → objref → objref → objref → W → W.

Local Abbreviation useLayer :=
  (LayerHook.useLayer (Generic.useElement createElement (Some updateElement))).

Lemma useLayer_in_store h0 el applied st context control p :
  in_store h0 el applied (LayerHook.element st) →
  p < length h0 →
  let r := Pane.withPane p context (LayerHook.store st) in
  ∃ st',
    useLayer (Some context) control p st = Ok st' ∧
    in_store h0 el r.1 (LayerHook.element st') ∧
    LayerHook.store st' = r.2 ∧
    Element.calls (Element.st_env (LayerHook.element st'))
    = Element.calls (Element.st_env (LayerHook.element st))
      ++ (if decide (r.1 = applied) then []
          else [Element.UpdateElement (instance el) r.1 applied]) ∧
    LayerHook.events st'
    = Events.useEventHandlers el
        (Props.as_object (Props.field (LayerHook.store st) p "eventHandlers"))
        (LayerHook.events st) ∧
    LayerHook.lifecycle st'
    = Layer.useLayerLifecycle el context (LayerHook.lifecycle st) ∧
    LayerHook.attribution st'
    = Attribution.useAttribution
        {| Attribution.map_ref := map context;
           Attribution.attributionControl := control |}
        (Props.as_string (Props.field (LayerHook.store st) p "attribution"))
        (LayerHook.attribution st).
Proof.
  intros Hin Hp r.
  assert (Hp' : p < length (LayerHook.store st)).
  { eapply Nat.lt_le_trans; [done|].
    apply prefix_length, (in_store_prefix _ _ _ _ Hin). }
  destruct (withPane_store p context _ Hp') as (Hpre & Hr & _ & _).
  fold r in Hpre, Hr.
  destruct (in_store_step createElement updateElement h0 el applied r.2 r.1
              context _ Hin Hpre Hr) as (Hin' & Hstore & Hcalls).
  unfold LayerHook.useLayer; simpl. fold r. destruct r as [p' h'] eqn:Hreq.
  simpl in *. unfold Generic.useElement; simpl.
  pose proof (mounted_element _ _ _ (in_store_mounted _ _ _ _ Hin')) as Hel.
  unfold Element.current. rewrite Hel.
  eexists. split; [done|]. by split_and!.
Qed.

Lemma useLayer_first h0 w b context control p :
  p < length h0 →
  let r := Pane.withPane p context h0 in
  let el := (createElement r.2 r.1 context w).1 in
  ∃ st,
    useLayer (Some context) control p (LayerHook.init h0 w b) = Ok st ∧
    layer_up h0 el context st ∧
    LayerHook.store st = r.2 ∧
    Element.calls (Element.st_env (LayerHook.element st))
    = [Element.CreateElement r.1 context].
Proof.
  intros Hp r el.
  destruct (withPane_store p context _ Hp) as (Hpre & Hr & _ & _).
  fold r in Hpre, Hr.
  pose proof (in_store_first createElement updateElement r.2 r.1 context w Hr)
    as Hin.
  destruct (mutable_first (Props.lift_create createElement)
              (Props.lift_update updateElement) r.1 context (r.2, w))
    as [_ Hcalls].
  fold el in Hin.
  unfold LayerHook.useLayer, LayerHook.init, LayerHook.store; simpl.
  unfold Props.store at 1; simpl.
  fold r. destruct r as [p' h'] eqn:Hreq. simpl in *.
  unfold Generic.useElement; simpl.
  change (Props.with_store h' (Element.init (h0, w)))
    with (Element.init (W := list (gmap string Pane.val) * W)
            (E := objref) (P := objref) (h', w)).
  pose proof (mounted_element _ _ _ (in_store_mounted _ _ _ _ Hin)) as Hel.
  unfold Element.current. rewrite Hel.
  eexists. split; [done|].
  split_and!; [|apply (useElement_first_store createElement updateElement)|done].
  split; simpl.
  - exists p'. destruct Hin as [Hm Ha Hp']. split; [done|done|].
    rewrite (useElement_first_store createElement updateElement). done.
  - do 2 eexists. apply (proj1 (useAttribution_mount _ _)).
  - eexists. apply (proj1 (useEventHandlers_mount _ _)).
  - apply useLayerLifecycle_hooked_first.
Qed.

Lemma useLayer_step h0 el c st context control p :
  layer_up h0 el c st →
  p < length h0 →
  ∃ st', useLayer (Some context) control p st = Ok st' ∧
         layer_up h0 el context st'.
Proof.
  intros [[applied Hin] (r & a & Htr) [eh Hev] Hlc] Hp.
  destruct (useLayer_in_store h0 el applied st context control p Hin Hp)
    as (st' & Hok & Hin' & _ & _ & Hev' & Hlc' & Hat').
  exists st'. split; [done|]. split.
  - by eexists.
  - rewrite Hat'. do 2 eexists.
    by eapply (proj1 (useAttribution_step _ _ _ _ _ Htr)).
  - rewrite Hev'. eexists. by eapply (proj1 (useEventHandlers_step _ _ _ _ _ Hev)).
  - rewrite Hlc'. by eapply useLayerLifecycle_hooked.
Qed.

Lemma rerender_layer_up h0 el c0 st inputs :
  layer_up h0 el c0 st →
  Forall (λ i, i.2 < length h0) inputs →
  ∃ st', LayerHook.rerender
           (Generic.useElement createElement (Some updateElement)) inputs st
         = Ok st' ∧
         layer_up h0 el (default c0 (last (inputs.*1.*1))) st'.
Proof.
  intros Hup Hin. revert c0 st Hup.
  induction Hin as [|[[c k] p] inputs Hp _ IH]; intros c0 st Hup.
  { by exists st. }
  destruct (useLayer_step h0 el c0 st c k p Hup Hp) as (st' & Hok & Hup').
  destruct (IH _ _ Hup') as (st'' & Hok' & Hup'').
  exists st''. split; [simpl; by rewrite Hok|].
  cbn [fmap list_fmap fst]. by rewrite default_last_cons.
Qed.

Lemma rerender_from_init h0 w b first rest :
  Forall (λ i, i.2 < length h0) (first :: rest) →
  ∃ st el,
    LayerHook.rerender
      (Generic.useElement createElement (Some updateElement))
      (first :: rest) (LayerHook.init h0 w b) = Ok st ∧
    layer_up h0 el (default first (last rest)).1.1 st.
Proof.
  intros Hin. apply Forall_cons in Hin as [Hfirst Hrest].
  destruct first as [[c k] p]. simpl in Hfirst.
  destruct (useLayer_first h0 w b c k p Hfirst) as (st1 & Hok & Hup & _).
  destruct (rerender_layer_up h0 _ _ st1 rest Hup Hrest) as (st & Hok' & Hup').
  exists st. eexists. split; [simpl; by rewrite Hok|].
  replace (default (c, k, p) (last rest)).1.1
    with (default c (last (rest.*1.*1))); [done|].
  rewrite !fmap_last. by destruct (last rest) as [[[? ?] ?]|].
Qed.

(** X16: a layer component whose pane resolves to a truthy value calls
    [updateElement] on every render, also a render with the props object
    of the render before: the props it hands on are a new copy of the
    props with [pane] set.  Without such a pane, the call is made exactly
    when the props object is not the one applied last. *)
Theorem pane_makes_every_render_an_update
    (h0 : list (gmap string Pane.val)) (w : W)
    (b : gmap objref (gset objref))
    (first : LeafletContextInterface * option objref * objref)
    (rest : list (LeafletContextInterface * option objref * objref))
    (context : LeafletContextInterface) (control : option objref)
    (p : objref) :
  Forall (λ i, i.2 < length h0) (first :: rest) →
  p < length h0 →
  let resolved := Pane.nullish (Props.field h0 p "pane")
                    (Pane.of_nullable (pane context)) in
  ∃ st st' el applied,
    LayerHook.rerender
      (Generic.useElement createElement (Some updateElement))
      (first :: rest) (LayerHook.init h0 w b) = Ok st ∧
    useLayer (Some context) control p st = Ok st' ∧
    LayerHook.current st = Some el ∧
    Element.propsRef (Element.st_env (LayerHook.element st)) = Some applied ∧
    Element.calls (Element.st_env (LayerHook.element st'))
    = Element.calls (Element.st_env (LayerHook.element st))
      ++ (if Pane.truthy resolved
          then [Element.UpdateElement (instance el)
                  (length (LayerHook.store st)) applied]
          else if decide (p = applied) then []
               else [Element.UpdateElement (instance el) p applied]) ∧
    (Pane.truthy resolved = true →
     Pane.deref (LayerHook.store st') (length (LayerHook.store st))
     = <["pane" := resolved]> (Pane.deref h0 p)).
Proof.
  intros Hin Hp resolved.
  destruct (rerender_from_init h0 w b first rest Hin)
    as (st & el & Hok & [[applied Hst] _ _ _]).
  destruct (useLayer_in_store h0 el applied st context control p Hst Hp)
    as (st' & Hok' & _ & Hstore & Hcalls & _).
  pose proof Hst as [Hm Happ Hpre].
  assert (Hp' : p < length (LayerHook.store st)).
  { eapply Nat.lt_le_trans; [done|]. by apply prefix_length. }
  destruct (withPane_store p context _ Hp') as (_ & _ & Hr & _).
  assert (Hfield : Props.field (LayerHook.store st) p "pane"
                   = Props.field h0 p "pane").
  { unfold Props.field. by rewrite (deref_prefix h0). }
  rewrite Hfield in Hr. fold resolved in Hr.
  exists st, st', el, applied. split_and!; [done|done|..].
  - apply (mounted_element _ _ _ Hm).
  - apply (mounted_props _ _ _ Hm).
  - rewrite Hcalls, Hr. destruct (Pane.truthy resolved); simpl; [|done].
    rewrite decide_False; [done|]. unfold LayerHook.store. lia.
  - intros Htruthy. rewrite Hstore, Hr, Htruthy. simpl.
    unfold Pane.deref. rewrite lookup_app_r, Nat.sub_diag by lia. simpl.
    f_equal. by apply deref_prefix.
Qed.


End layer_hook_facts.

Lemma pane_makes_every_render_an_update_witness :
  ∃ st st' el applied,
    LayerHook.rerender
      (Generic.useElement Sample.createLayer (Some Sample.updateLayer))
      [(Sample.root, None, 0)] (LayerHook.init Sample.pane_props 0 ∅) = Ok st ∧
    LayerHook.useLayer
      (Generic.useElement Sample.createLayer (Some Sample.updateLayer))
      (Some Sample.root) None 0 st = Ok st' ∧
    LayerHook.current st = Some el ∧
    Element.propsRef (Element.st_env (LayerHook.element st)) = Some applied ∧
    Element.calls (Element.st_env (LayerHook.element st'))
    = Element.calls (Element.st_env (LayerHook.element st))
      ++ [Element.UpdateElement (instance el) (length (LayerHook.store st))
            applied].
Proof.
  destruct (pane_makes_every_render_an_update Sample.createLayer
              Sample.updateLayer Sample.pane_props 0 ∅
              (Sample.root, None, 0) [] Sample.root None 0)
    as (st & st' & el & applied & Hst & Hst' & Hel & Happlied & Hcalls & _).
  { repeat constructor. }
  { simpl. lia. }
  exists st, st', el, applied. split_and!; [done..|].
  rewrite Hcalls. reflexivity.
Defined.


(** ** The Circle component *)
Section world_facts.
Context {E W : Type} `{EqDecision E}.
Variable createElement :
  list (gmap string Pane.val) → objref → LeafletContextInterface → W →
  LeafletElement E * W.
Variable updateElement :
  list (gmap string Pane.val) → E → objref → objref → W → W.

Lemma useElement_world el applied p context
    (est : @Element.state E objref (list (gmap string Pane.val) * W)) :
  mounted el applied est →
  (Element.world (Element.st_env
     (Element.useMutableLeafletElement (Props.lift_create createElement)
        (Props.lift_update updateElement) p context est))).2
  = if decide (p = applied) then (Element.world (Element.st_env est)).2
    else updateElement (Props.store est) (instance el) p applied
           (Element.world (Element.st_env est)).2.
Proof.
  intros [Hel Hprops [c Hslot] _].
  destruct est as [[eref pref [h w] cs] slot]; simpl in *; subst.
  unfold Element.useMutableLeafletElement; simpl.
  unfold React.useEffect, React.commit_create, React.commit_destroy,
    React.deps_changed; simpl.
  destruct (decide (p = applied)) as [->|Hne].
  - case_bool_decide; simpl; [|done].
    unfold Element.updateElementProps_body; simpl.
    by rewrite bool_decide_eq_false_2 by (intros Hx; by apply Hx).
  - rewrite bool_decide_eq_true_2 by congruence. simpl.
    unfold Element.updateElementProps_body; simpl.
    by rewrite bool_decide_eq_true_2 by congruence.
Qed.

Lemma useElement_first_world p context h w :
  (Element.world (Element.st_env
     (Element.useMutableLeafletElement (Props.lift_create createElement)
        (Props.lift_update updateElement) p context (Element.init (h, w))))).2
  = (createElement h p context w).2.
Proof.
  unfold Element.useMutableLeafletElement, Element.init; simpl.
  rewrite create_once_init; simpl.
  unfold React.useEffect, React.commit_create, React.commit_destroy; simpl.
  unfold Element.updateElementProps_body; simpl.
  rewrite bool_decide_eq_false_2 by (intros Hne; by apply Hne).
  simpl. unfold Props.lift_create; simpl.
  by destruct (createElement h p context w).
Qed.
End world_facts.

Section path_hook_facts.
Context {W : Type}.
Variable createElement :
  list (gmap string Pane.val) → objref → LeafletContextInterface → W →
  LeafletElement objref * W.
Variable updateElement :
  list (gmap string Pane.val) → objref → objref → objref → W → W.

Local Abbreviation usePath :=
  (Path.usePath (Generic.useElement createElement (Some updateElement))).

Lemma usePath_in_store h0 el applied st context p :
  in_store h0 el applied (Path.element st) →
  p < length h0 →
  let r := Pane.withPane p context (Path.store st) in
  ∃ st',
    usePath (Some context) p st = Ok st' ∧
    in_store h0 el r.1 (Path.element st') ∧
    Path.store st' = r.2 ∧
    (Element.world (Element.st_env (Path.element st'))).2
    = (if decide (r.1 = applied)
       then (Element.world (Element.st_env (Path.element st))).2
       else updateElement r.2 (instance el) r.1 applied
              (Element.world (Element.st_env (Path.element st))).2) ∧
    Path.events st'
    = Events.useEventHandlers el
        (Props.as_object (Props.field (Path.store st) p "eventHandlers"))
        (Path.events st) ∧
    Path.lifecycle st'
    = Layer.useLayerLifecycle el context (Path.lifecycle st) ∧
    Path.pathOptions st'
    = Path.usePathOptions (Path.store st) el p (Path.pathOptions st).
Proof.
  intros Hin Hp r.
  assert (Hp' : p < length (Path.store st)).
  { eapply Nat.lt_le_trans; [done|].
    apply prefix_length, (in_store_prefix _ _ _ _ Hin). }
  destruct (withPane_store p context _ Hp') as (Hpre & Hr & _ & _).
  fold r in Hpre, Hr.
  destruct (in_store_step createElement updateElement h0 el applied r.2 r.1
              context _ Hin Hpre Hr) as (Hin' & Hstore & Hcalls).
  pose proof (useElement_world createElement updateElement el applied r.1
                context _
                (with_store_mounted _ _ r.2 _ (in_store_mounted _ _ _ _ Hin)))
    as Hworld.
  unfold Path.usePath; simpl. fold r. destruct r as [p' h'] eqn:Hreq.
  simpl in *. unfold Generic.useElement; simpl.
  pose proof (mounted_element _ _ _ (in_store_mounted _ _ _ _ Hin')) as Hel.
  unfold Element.current. rewrite Hel.
  eexists. split; [done|]. by split_and!.
Qed.

Lemma usePath_first h0 w b context p :
  p < length h0 →
  let r := Pane.withPane p context h0 in
  let el := (createElement r.2 r.1 context w).1 in
  ∃ st,
    usePath (Some context) p (Path.hook_init h0 w b) = Ok st ∧
    in_store h0 el r.1 (Path.element st) ∧
    Path.store st = r.2 ∧
    (Element.world (Element.st_env (Path.element st))).2
    = (createElement r.2 r.1 context w).2 ∧
    Path.events st
    = Events.useEventHandlers el
        (Props.as_object (Props.field h0 p "eventHandlers")) Events.init ∧
    Path.lifecycle st = Layer.useLayerLifecycle el context (Layer.init b) ∧
    Path.pathOptions st = Path.usePathOptions h0 el p Path.init.
Proof.
  intros Hp r el.
  destruct (withPane_store p context _ Hp) as (Hpre & Hr & _ & _).
  fold r in Hpre, Hr.
  pose proof (in_store_first createElement updateElement r.2 r.1 context w Hr)
    as Hin.
  fold el in Hin.
  unfold Path.usePath, Path.hook_init, Path.store; simpl.
  unfold Props.store at 1; simpl.
  fold r. destruct r as [p' h'] eqn:Hreq. simpl in *.
  unfold Generic.useElement; simpl.
  change (Props.with_store h' (Element.init (h0, w)))
    with (Element.init (W := list (gmap string Pane.val) * W)
            (E := objref) (P := objref) (h', w)).
  pose proof (mounted_element _ _ _ (in_store_mounted _ _ _ _ Hin)) as Hel.
  unfold Element.current. rewrite Hel.
  eexists. split; [done|]. simpl.
  split_and!; try done.
  - destruct Hin as [Hm Ha Hp']. split; [done|done|].
    rewrite (useElement_first_store createElement updateElement).
    by apply prefix_of_refl || done.
  - apply (useElement_first_store createElement updateElement).
  - apply (useElement_first_world createElement updateElement).
Qed.
End path_hook_facts.

Lemma field_prefix (h0 h : list (gmap string Pane.val)) (r : objref) k :
  h0 `prefix_of` h → r < length h0 → Props.field h r k = Props.field h0 r k.
Proof. intros ??. unfold Props.field. by rewrite (deref_prefix h0). Qed.

Lemma updateCircle_shown h layer props prevProps w c :
  Circle.circles w !! layer = Some c →
  Circle.latlng c = Props.field h prevProps "center" →
  (Props.is_nullish (Props.field h prevProps "radius") = false →
   Props.field h prevProps "radius" = Circle.mRadius c) →
  ∃ c',
    Circle.circles (Circle.updateCircle h layer props prevProps w) !! layer
    = Some c' ∧
    Circle.latlng c' = Props.field h props "center" ∧
    Circle.mRadius c'
    = (if Props.is_nullish (Props.field h props "radius")
       then Circle.mRadius c else Props.field h props "radius").
Proof.
  intros Hc Hlat Hrad. unfold Circle.updateCircle.
  set (w1 := if bool_decide _ then _ else w).
  assert (H1 : ∃ c1, Circle.circles w1 !! layer = Some c1 ∧
                     Circle.latlng c1 = Props.field h props "center" ∧
                     Circle.mRadius c1 = Circle.mRadius c).
  { subst w1. case_bool_decide as Hd.
    - eexists. unfold Circle.setLatLng; simpl.
      rewrite lookup_alter_eq, Hc. simpl. done.
    - exists c. split_and!; [done| |done]. rewrite Hlat.
      symmetry. by destruct (decide (Props.field h props "center"
                                     = Props.field h prevProps "center")). }
  destruct H1 as (c1 & Hc1 & Hlat1 & Hrad1).
  destruct (Props.is_nullish (Props.field h props "radius")) eqn:Hn; simpl.
  { exists c1. by split_and!. }
  case_bool_decide as Hd.
  - eexists. unfold Circle.setRadius; simpl.
    rewrite lookup_alter_eq, Hc1. simpl. done.
  - exists c1. split_and!; [done..|].
    assert (Heq : Props.field h props "radius"
                  = Props.field h prevProps "radius").
    { by destruct (decide (Props.field h props "radius"
                           = Props.field h prevProps "radius")). }
    rewrite Hrad1, <- Hrad; [done|]. by rewrite <- Heq.
Qed.

Local Abbreviation usePathCircle :=
  (Path.usePath (Generic.useElement Circle.createCircle
                   (Some Circle.updateCircle))).

Lemma usePath_circle_up h0 el src rad st context p :
  circle_up h0 el src rad st →
  p < length h0 →
  ∃ st',
    usePathCircle (Some context) p st = Ok st' ∧
    Path.current st' = Some el ∧
    circle_up h0 el p
      (if Props.is_nullish (Props.field h0 p "radius") then rad
       else Props.field h0 p "radius") st' ∧
    in_container el context (Path.lifecycle st').
Proof.
  intros [(applied & Hin & Hsrc) Hlt (c & Hc & Hlat & Hrad) Hradius
            [c0 Hlayer]] Hp.
  destruct (usePath_in_store Circle.createCircle Circle.updateCircle
              h0 el applied st context p Hin Hp)
    as (st' & Hok & Hin' & Hstore & Hworld & _ & Hlc & _).
  pose proof Hin as [Hm Happ Hpre].
  assert (Hp' : p < length (Path.store st)).
  { eapply Nat.lt_le_trans; [done|]. by apply prefix_length. }
  destruct (withPane_store p context _ Hp') as (Hpre' & Hr & _ & Hfields).
  set (r := Pane.withPane p context (Path.store st)) in *.
  assert (F1 : ∀ k, k ≠ "pane" → Props.field r.2 r.1 k = Props.field h0 p k).
  { intros k Hk. rewrite Hfields by done. by apply field_prefix. }
  assert (F2 : ∀ k, k ≠ "pane" →
                 Props.field r.2 applied k = Props.field h0 src k).
  { intros k Hk. rewrite <- Hsrc by done. by apply field_prefix. }
  assert (Hlc' : in_container el context (Path.lifecycle st')).
  { rewrite Hlc. by eapply useLayerLifecycle_in_container. }
  exists st'. split_and!; [done| |split|done].
  - apply (mounted_element _ _ _ (in_store_mounted _ _ _ _ Hin')).
  - exists r.1. split; [done|]. intros k Hk. rewrite Hstore. by apply F1.
  - done.
  - rewrite Hworld. destruct (decide (r.1 = applied)) as [Heq|Hne].
    + exists c. split_and!; [done|..].
      * rewrite Hlat, <- F2, <- Heq by done. by apply F1.
      * assert (Hsame : Props.field h0 p "radius"
                        = Props.field h0 src "radius").
        { rewrite <- F2, <- Heq by done. symmetry. by apply F1. }
        rewrite Hsame.
        destruct (Props.is_nullish (Props.field h0 src "radius")) eqn:Hn;
          [done|]. rewrite Hrad. symmetry. by apply Hradius.
    + destruct (updateCircle_shown r.2 (instance el) r.1 applied _ c Hc)
        as (c' & Hc' & Hlat' & Hrad').
      { rewrite F2 by done. done. }
      { rewrite F2 by done. intros Hn. rewrite Hrad. by apply Hradius. }
      exists c'. split_and!; [done|..].
      * rewrite Hlat'. by apply F1.
      * rewrite Hrad', F1, Hrad by done. done.
  - intros Hn. by rewrite Hn.
  - by exists context.
Qed.

Lemma usePath_circle_first h0 n b ambient p :
  p < length h0 →
  ∃ st el,
    usePathCircle (Some ambient) p (Circle.init h0 n b) = Ok st ∧
    circle_up h0 el p
      (default (Pane.VNumber 10) (Pane.deref h0 p !! "radius")) st ∧
    instance el = n ∧
    context el
    = Context.extendContext (S n) ambient
        {| Context.p__version := None; Context.p_map := None;
           Context.p_layerContainer := None; Context.p_layersControl := None;
           Context.p_overlayContainer := Some (Some n);
           Context.p_pane := None |}.
Proof.
  intros Hp.
  destruct (usePath_first Circle.createCircle Circle.updateCircle h0
              (Circle.World ∅ n) b ambient p Hp)
    as (st & Hok & Hin & Hstore & Hworld & _ & Hlc & _).
  destruct (withPane_store p ambient _ Hp) as (Hpre' & Hr & _ & Hfields).
  set (r := Pane.withPane p ambient h0) in *.
  exists st, (Circle.createCircle r.2 r.1 ambient (Circle.World ∅ n)).1.
  split; [exact Hok|]. split_and!; [split|done|done].
  - exists r.1. split; [done|]. intros k Hk. rewrite Hstore. by apply Hfields.
  - done.
  - rewrite Hworld. unfold Circle.createCircle; simpl.
    eexists. rewrite lookup_insert_eq. split_and!; [done|..]; simpl.
    + by apply Hfields.
    + rewrite !lookup_delete_ne by done. subst r.
      by rewrite withPane_lookup.
  - unfold Props.field, Pane.get.
    by destruct (Pane.deref h0 p !! "radius") as [v|].
  - eexists. rewrite Hlc. apply useLayerLifecycle_in_container_first.
Qed.

Lemma Circle_render h0 el src rad st ambient p :
  circle_up h0 el src rad st →
  p < length h0 →
  ∃ st',
    Circle.Circle (Some ambient) p st
    = Ok (st', Component.Rendered (instance el)
                 (if Props.is_nullish (Props.field h0 p "children")
                  then Component.Nothing
                  else Component.Provider (context el)
                         (Props.field h0 p "children"))) ∧
    circle_up h0 el p
      (if Props.is_nullish (Props.field h0 p "radius") then rad
       else Props.field h0 p "radius") st' ∧
    in_container el ambient (Path.lifecycle st').
Proof.
  intros Hup Hp.
  destruct (usePath_circle_up h0 el src rad st ambient p Hup Hp)
    as (st' & Hok & Hel & Hup' & Hlc).
  destruct Hup as [(applied & [_ _ Hpre] & _) _ _ _ _].
  exists st'. split; [|done].
  unfold Circle.Circle, Generic.createPathComponent,
    Component.ContainerComponent.
  rewrite Hok, Hel. by rewrite (field_prefix h0).
Qed.

Lemma Circle_rerender h0 el src rad st inputs :
  circle_up h0 el src rad st →
  Forall (λ i, i.2 < length h0) inputs →
  ∃ st',
    Circle.rerender inputs st = Ok st' ∧
    circle_up h0 el (default src (last (inputs.*2)))
      (default rad
         (last (filter (λ v, Props.is_nullish v = false)
                  ((λ i, Props.field h0 i.2 "radius") <$> inputs)))) st'.
Proof.
  intros Hup Hin. revert src rad st Hup.
  induction Hin as [|[c p] inputs Hp _ IH]; intros src rad st Hup.
  { by exists st. }
  destruct (Circle_render h0 el src rad st c p Hup Hp) as (st' & Hok & Hup' & _).
  destruct (IH _ _ _ Hup') as (st'' & Hok' & Hup'').
  exists st''. split.
  { cbn [Circle.rerender fst snd]. by rewrite Hok. }
  cbn [fmap list_fmap fst snd]. rewrite default_last_cons.
  rewrite filter_cons. simpl in *.
  destruct (Props.is_nullish (Props.field h0 p "radius")) eqn:Hn.
  - rewrite decide_False by done. done.
  - rewrite decide_True by done. by rewrite default_last_cons.
Qed.

(** X18: however a Circle component was rendered whose first props have
    a number as radius or none, its circle was last given the center of
    the props of the last render, and its radius is the last one that any
    later render gave, else the one of the first props, else Leaflet's
    default 10 (a render without a radius keeps the radius). *)
Theorem Circle_shows_last_center_and_radius
    (h0 : list (gmap string Pane.val)) (n : objref)
    (b : gmap objref (gset objref))
    (first : LeafletContextInterface * objref)
    (rest : list (LeafletContextInterface * objref)) :
  Forall (λ i, i.2 < length h0) (first :: rest) →
  (∀ v, Pane.deref h0 first.2 !! "radius" = Some v →
        ∃ r, v = Pane.VNumber r) →
  ∃ st c,
    Circle.rerender (first :: rest) (Circle.init h0 n b) = Ok st ∧
    Circle.shown st = Some c ∧
    Circle.latlng c
    = Props.field h0 (default first.2 (last (rest.*2))) "center" ∧
    Circle.mRadius c
    = default (default (Pane.VNumber 10)
                 (Pane.deref h0 first.2 !! "radius"))
        (last (filter (λ v, Props.is_nullish v = false)
                 ((λ i, Props.field h0 i.2 "radius") <$> rest))).
Proof.
  intros Hin _. apply Forall_cons in Hin as [Hfirst Hrest].
  destruct first as [c0 p0]. simpl in Hfirst.
  destruct (usePath_circle_first h0 n b c0 p0 Hfirst)
    as (st1 & el & Hok1 & Hup1 & _).
  destruct (Circle_rerender h0 el _ _ st1 rest Hup1 Hrest)
    as (st & Hok & Hup).
  destruct Hup as [(applied & [Hm _ _] & _) _ (c & Hc & Hlat & Hrad) _ _].
  exists st, c. split_and!; [|..|done|done].
  - cbn [Circle.rerender fst snd].
    unfold Circle.Circle, Generic.createPathComponent,
      Component.ContainerComponent.
    rewrite Hok1.
    destruct (Path.current st1) eqn:Hcur; [done|].
    exfalso. destruct Hup1 as [(a1 & [Hm1 _ _] & _) _ _ _ _].
    unfold Path.current, Element.current in Hcur.
    by rewrite (mounted_element _ _ _ Hm1) in Hcur.
  - unfold Circle.shown, Path.current, Element.current.
    rewrite (mounted_element _ _ _ Hm). simpl. done.
Qed.

(** X19: on every render a Circle component hands its circle to the
    forwarded ref and, when it has children, renders them below a
    provider of the context made on the mount: the map, layer container,
    layers control and pane of the context of the first render, with the
    circle as overlay container, also when the ambient context is another
    one by now; the circle itself is in the layer set the current context
    names. *)
Theorem Circle_children_keep_the_context_of_the_mount
    (h0 : list (gmap string Pane.val)) (n : objref)
    (b : gmap objref (gset objref))
    (first : LeafletContextInterface * objref)
    (rest : list (LeafletContextInterface * objref))
    (ambient : LeafletContextInterface) (p : objref) :
  Forall (λ i, i.2 < length h0) (first :: rest) →
  p < length h0 →
  ∃ st st' out value,
    Circle.rerender (first :: rest) (Circle.init h0 n b) = Ok st ∧
    Circle.Circle (Some ambient) p st = Ok (st', out) ∧
    Component.handle out = n ∧
    Component.tree out
    = (if Props.is_nullish (Props.field h0 p "children")
       then Component.Nothing
       else Component.Provider value (Props.field h0 p "children")) ∧
    map value = map first.1 ∧
    layerContainer value = layerContainer first.1 ∧
    layersControl value = layersControl first.1 ∧
    pane value = pane first.1 ∧
    overlayContainer value = Some n ∧
    n ∈ Leaflet.layersOf
          (Layer.layers (Layer.st_env (Path.lifecycle st')))
          (default (map ambient) (layerContainer ambient)).
Proof.
  intros Hin Hp. apply Forall_cons in Hin as [Hfirst Hrest].
  destruct first as [c0 p0]. simpl in Hfirst.
  destruct (usePath_circle_first h0 n b c0 p0 Hfirst)
    as (st1 & el & Hok1 & Hup1 & Hinst & Hctx).
  destruct (Circle_rerender h0 el _ _ st1 rest Hup1 Hrest)
    as (st & Hok & Hup).
  destruct (Circle_render h0 el _ _ st ambient p Hup Hp)
    as (st' & Hrender & _ & [_ Hlayer]).
  exists st, st'. eexists. exists (context el).
  split_and!; [|exact Hrender|done|done|by rewrite Hctx..|by rewrite <- Hinst].
  cbn [Circle.rerender fst snd].
  unfold Circle.Circle, Generic.createPathComponent,
    Component.ContainerComponent.
  rewrite Hok1.
  destruct (Path.current st1) eqn:Hcur; [done|].
  exfalso. destruct Hup1 as [(a1 & [Hm1 _ _] & _) _ _ _ _].
  unfold Path.current, Element.current in Hcur.
  by rewrite (mounted_element _ _ _ Hm1) in Hcur.
Qed.

Lemma Circle_shows_last_center_and_radius_witness :
  ∃ st c,
    Circle.rerender [(Sample.root, 1); (Sample.root, 0); (Sample.root, 1)]
      (Circle.init Sample.circles 100 ∅) = Ok st ∧
    Circle.shown st = Some c ∧
    Circle.latlng c = Pane.VObject 31 ∧
    Circle.mRadius c = Pane.VNumber 5.
Proof.
  destruct (Circle_shows_last_center_and_radius Sample.circles 100 ∅
              (Sample.root, 1) [(Sample.root, 0); (Sample.root, 1)])
    as (st & c & Hst & Hc & Hlat & Hrad).
  { repeat constructor. }
  { intros v Hv. vm_compute in Hv. discriminate Hv. }
  exists st, c. split_and!; [done|done|..].
  - rewrite Hlat. reflexivity.
  - rewrite Hrad. reflexivity.
Defined.

Lemma Circle_children_keep_the_context_of_the_mount_witness :
  ∃ st st' out value,
    Circle.rerender [(Sample.root, 0)] (Circle.init Sample.circles 100 ∅)
    = Ok st ∧
    Circle.Circle (Some Sample.grouped) 2 st = Ok (st', out) ∧
    Component.tree out = Component.Provider value (Pane.VObject 40) ∧
    layerContainer value = None ∧
    overlayContainer value = Some 100 ∧
    100 ∈ Leaflet.layersOf
            (Layer.layers (Layer.st_env (Path.lifecycle st'))) 5.
Proof.
  destruct (Circle_children_keep_the_context_of_the_mount Sample.circles 100 ∅
              (Sample.root, 0) [] Sample.grouped 2)
    as (st & st' & out & value & Hst & Hst' & _ & Htree & _ & Hlc & _ & _
        & Hoc & Hin).
  { repeat constructor. }
  { simpl. lia. }
  exists st, st', out, value. split_and!; done.
Defined.

(** ** The map container *)
Lemma MapContainer_mount p0 n :
  let r := MapContainer.MapContainer p0 (MapContainer.init n) in
  map_up p0 n false (MapContainer.calls (MapContainer.st_env r.1)) r.1 ∧
  r.2 = MapContainer.Rendered None
          (Pane.get p0 "className", Pane.get p0 "id", Pane.get p0 "style")
          (MapContainer.Placeholder
             (Pane.nullish (Pane.get p0 "placeholder") Pane.VNull)) ∧
  filter (λ c, MapContainer.is_newMap c = true)
    (MapContainer.calls (MapContainer.st_env r.1))
  = [MapContainer.NewMap (S n) n (MapContainer.rest_options p0)] ∧
  filter (λ c, MapContainer.is_remove c = true)
    (MapContainer.calls (MapContainer.st_env r.1)) = [].
Proof.
  unfold MapContainer.MapContainer, MapContainer.init; simpl.
  unfold React.useEffect, React.commit_create, React.commit_destroy; simpl.
  split_and!; [by split|done|..].
  - destruct (negb (Props.is_nullish (Pane.get p0 "center")) &&
              negb (Props.is_nullish (Pane.get p0 "zoom")));
      [|destruct (negb (Props.is_nullish (Pane.get p0 "bounds")))];
      destruct (negb (Props.is_nullish (Pane.get p0 "whenReady"))); done.
  - destruct (negb (Props.is_nullish (Pane.get p0 "center")) &&
              negb (Props.is_nullish (Pane.get p0 "zoom")));
      [|destruct (negb (Props.is_nullish (Pane.get p0 "bounds")))];
      destruct (negb (Props.is_nullish (Pane.get p0 "whenReady"))); done.
Qed.

Lemma MapContainer_step p0 n seen cs st p :
  map_up p0 n seen cs st →
  let ctx := Context.createLeafletContext (S (S n)) (S n) in
  let r := MapContainer.MapContainer p st in
  map_up p0 n true cs r.1 ∧
  r.2 = MapContainer.Rendered (Some (S n))
          (Pane.get p0 "className", Pane.get p0 "id", Pane.get p0 "style")
          (MapContainer.Provided ctx (Pane.get p "children")).
Proof.
  intros [Hctx Hcalls Hdiv Href Hnode Hslot] ctx r. subst r.
  destruct st as [[c nx cs'] dp cell nd slot]; simpl in *. subst.
  unfold MapContainer.MapContainer; simpl.
  unfold React.useEffect, React.commit_create, React.commit_destroy,
    React.deps_changed; simpl.
  destruct seen; simpl.
  - rewrite bool_decide_eq_false_2 by (intros Hx; by apply Hx). simpl.
    split; [by split|done].
  - split; [by split|done].
Qed.

Lemma MapContainer_rerender p0 n seen cs st outs inputs :
  map_up p0 n seen cs st →
  let ctx := Context.createLeafletContext (S (S n)) (S n) in
  let r := MapContainer.rerender inputs (st, outs) in
  map_up p0 n (if inputs is [] then seen else true) cs r.1 ∧
  r.2 = reverse
          ((λ p, MapContainer.Rendered (Some (S n))
                   (Pane.get p0 "className", Pane.get p0 "id",
                    Pane.get p0 "style")
                   (MapContainer.Provided ctx (Pane.get p "children")))
           <$> inputs) ++ outs.
Proof.
  intros Hup. cbn zeta. revert seen st outs Hup.
  induction inputs as [|p inputs IH]; intros seen st outs Hup; [done|].
  destruct (MapContainer_step p0 n seen cs st p Hup) as [Hup' Hout].
  unfold MapContainer.rerender in *. cbn [foldl fst snd].
  destruct (MapContainer.MapContainer p st) as [st' out] eqn:Hr.
  simpl in Hup', Hout. subst out.
  destruct (IH _ _ (MapContainer.Rendered (Some (S n))
                      (Pane.get p0 "className", Pane.get p0 "id",
                       Pane.get p0 "style")
                      (MapContainer.Provided
                         (Context.createLeafletContext (S (S n)) (S n))
                         (Pane.get p "children")) :: outs) Hup')
    as [Hup'' Houts].
  split.
  - by destruct inputs.
  - rewrite Houts. cbn [fmap list_fmap]. rewrite reverse_cons, <- app_assoc.
    done.
Qed.

Lemma foldr_delete_lookup (keys : list string)
    (props : gmap string Pane.val) (k : string) :
  foldr delete props keys !! k
  = if decide (k ∈ keys) then None else props !! k.
Proof.
  induction keys as [|x xs IH]; cbn [foldr].
  { rewrite decide_False; [done|]. set_solver. }
  destruct (decide (x = k)) as [->|Hne].
  - rewrite lookup_delete_eq, decide_True; [done|]. set_solver.
  - rewrite lookup_delete_ne by done. rewrite IH.
    destruct (decide (k ∈ xs)) as [Hin|Hin].
    + rewrite decide_True; [done|]. set_solver.
    + rewrite decide_False; [done|]. set_solver.
Qed.

(** X20: a map container renders its placeholder (or [null]) first and
    makes the map on that first commit, once, from the options of the
    first props without the keys the component keeps for itself; every
    later render gives the children of that render below a provider of
    the one context made then, in a [div] with the class, id and style
    of the first props, and makes no call on Leaflet, whatever the props
    are by then. *)
Theorem MapContainer_is_made_from_the_first_props
    (n : objref) (p0 : gmap string Pane.val)
    (rest : list (gmap string Pane.val)) :
  let first := MapContainer.MapContainer p0 (MapContainer.init n) in
  let r := MapContainer.rerender rest (first.1, []) in
  let ctx := Context.createLeafletContext (S (S n)) (S n) in
  let div := (Pane.get p0 "className", Pane.get p0 "id",
              Pane.get p0 "style") in
  first.2 = MapContainer.Rendered None div
              (MapContainer.Placeholder
                 (Pane.nullish (Pane.get p0 "placeholder") Pane.VNull)) ∧
  r.2 = reverse ((λ p, MapContainer.Rendered (Some (S n)) div
                         (MapContainer.Provided ctx (Pane.get p "children")))
                 <$> rest) ∧
  MapContainer.calls (MapContainer.st_env r.1)
  = MapContainer.calls (MapContainer.st_env first.1) ∧
  filter (λ c, MapContainer.is_newMap c = true)
    (MapContainer.calls (MapContainer.st_env r.1))
  = [MapContainer.NewMap (S n) n (MapContainer.rest_options p0)] ∧
  ∀ k, MapContainer.rest_options p0 !! k
       = if decide (k ∈ MapContainer.own_keys) then None else p0 !! k.
Proof.
  intros first r ctx div.
  destruct (MapContainer_mount p0 n) as (Hup & Hout & Hnew & _).
  fold first in Hup, Hout, Hnew.
  destruct (MapContainer_rerender p0 n _ _ _ [] rest Hup) as [Hup' Houts].
  fold r in Hup', Houts.
  split_and!; [done|by rewrite Houts, app_nil_r| | |apply foldr_delete_lookup].
  - apply (map_up_calls _ _ _ _ _ Hup').
  - by rewrite (map_up_calls _ _ _ _ _ Hup').
Qed.

(** X21: the unmount of a map container that was rendered again after
    its mount removes the map, once, and that is the only removal there
    ever was. *)
Theorem MapContainer_unmount_removes_the_map
    (n : objref) (p0 p1 : gmap string Pane.val)
    (rest : list (gmap string Pane.val)) :
  let first := MapContainer.MapContainer p0 (MapContainer.init n) in
  let r := MapContainer.rerender (p1 :: rest) (first.1, []) in
  MapContainer.calls (MapContainer.unmount r.1)
  = MapContainer.calls (MapContainer.st_env r.1) ++ [MapContainer.Remove (S n)] ∧
  filter (λ c, MapContainer.is_remove c = true)
    (MapContainer.calls (MapContainer.unmount r.1))
  = [MapContainer.Remove (S n)].
Proof.
  intros first r.
  destruct (MapContainer_mount p0 n) as (Hup & _ & _ & Hrem).
  fold first in Hup, Hrem.
  destruct (MapContainer_rerender p0 n _ _ _ [] (p1 :: rest) Hup)
    as [[Hctx Hcalls Hdiv Href Hnode Hslot] _].
  fold r in Hctx, Hcalls, Hdiv, Href, Hnode, Hslot.
  assert (Hun : MapContainer.calls (MapContainer.unmount r.1)
                = MapContainer.calls (MapContainer.st_env r.1)
                  ++ [MapContainer.Remove (S n)]).
  { unfold MapContainer.unmount. rewrite Href, Hslot. simpl. done. }
  split; [done|]. rewrite Hun, Hcalls, filter_app, Hrem. done.
Qed.

(** ** The updaters of grid layers and media overlays *)
Lemma last_filter_cons {A} (P : A → Prop) `{∀ x, Decision (P x)}
    (d x : A) (l : list A) :
  default d (last (filter P (x :: l)))
  = default (if decide (P x) then x else d) (last (filter P l)).
Proof.
  rewrite filter_cons. destruct (decide (P x)); [|done].
  by rewrite default_last_cons.
Qed.

Lemma updateGridLayer_step h layer props prevProps w l :
  w !! layer = Some l →
  (Props.is_nullish (Props.field h prevProps "opacity") = false →
   GridLayer.opacity l = Props.field h prevProps "opacity") →
  (Props.is_nullish (Props.field h prevProps "zIndex") = false →
   GridLayer.zIndex l = Props.field h prevProps "zIndex") →
  ∃ l',
    GridLayer.updateGridLayer h layer props prevProps w !! layer = Some l' ∧
    GridLayer.opacity l'
    = (if decide (Props.is_nullish (Props.field h props "opacity") = false)
       then Props.field h props "opacity" else GridLayer.opacity l) ∧
    GridLayer.zIndex l'
    = (if decide (Props.is_nullish (Props.field h props "zIndex") = false)
       then Props.field h props "zIndex" else GridLayer.zIndex l).
Proof.
  intros Hl Hop Hz. unfold GridLayer.updateGridLayer.
  set (w1 := if _ && _ then _ else w).
  assert (H1 : ∃ l1, w1 !! layer = Some l1 ∧
            GridLayer.opacity l1
            = (if decide (Props.is_nullish (Props.field h props "opacity")
                          = false)
               then Props.field h props "opacity" else GridLayer.opacity l) ∧
            GridLayer.zIndex l1 = GridLayer.zIndex l).
  { subst w1.
    destruct (Props.is_nullish (Props.field h props "opacity")) eqn:Hn; simpl.
    { by exists l. }
    case_bool_decide as Hd.
    - eexists. unfold GridLayer.setOpacity.
      rewrite lookup_alter_eq, Hl. simpl. done.
    - exists l. split_and!; [done| |done].
      assert (Heq : Props.field h props "opacity"
                    = Props.field h prevProps "opacity").
      { by destruct (decide (Props.field h props "opacity"
                             = Props.field h prevProps "opacity")). }
      rewrite Hop; [done|]. by rewrite <- Heq. }
  destruct H1 as (l1 & Hl1 & Hop1 & Hz1).
  destruct (Props.is_nullish (Props.field h props "zIndex")) eqn:Hn; simpl.
  { by exists l1. }
  case_bool_decide as Hd.
  - eexists. unfold GridLayer.setZIndex.
    rewrite lookup_alter_eq, Hl1. simpl. done.
  - exists l1. split_and!; [done|done|].
    assert (Heq : Props.field h props "zIndex"
                  = Props.field h prevProps "zIndex").
    { by destruct (decide (Props.field h props "zIndex"
                           = Props.field h prevProps "zIndex")). }
    rewrite Hz1, Hz; [done|]. by rewrite <- Heq.
Qed.

(** X22: over the updates of a grid layer that began with the opacity and
    z-index of its first props (where those gave any), the layer ends
    with the last opacity and the last z-index that any props gave; props
    without one keep what the layer has. *)
Theorem grid_layer_keeps_the_last_opacity_and_zIndex
    (h : list (gmap string Pane.val)) (layer p0 : objref)
    (renders : list objref) (w : gmap objref GridLayer.t) (l : GridLayer.t) :
  w !! layer = Some l →
  (Props.is_nullish (Props.field h p0 "opacity") = false →
   GridLayer.opacity l = Props.field h p0 "opacity") →
  (Props.is_nullish (Props.field h p0 "zIndex") = false →
   GridLayer.zIndex l = Props.field h p0 "zIndex") →
  ∃ l',
    Updates.run GridLayer.updateGridLayer h layer p0 renders w !! layer
    = Some l' ∧
    GridLayer.opacity l'
    = default (GridLayer.opacity l)
        (last (filter (λ v, Props.is_nullish v = false)
                 ((λ p, Props.field h p "opacity") <$> renders))) ∧
    GridLayer.zIndex l'
    = default (GridLayer.zIndex l)
        (last (filter (λ v, Props.is_nullish v = false)
                 ((λ p, Props.field h p "zIndex") <$> renders))).
Proof.
  revert p0 w l. induction renders as [|p renders IH]; intros p0 w l Hl Hop Hz.
  { by exists l. }
  destruct (updateGridLayer_step h layer p p0 w l Hl Hop Hz)
    as (l1 & Hl1 & Hop1 & Hz1).
  destruct (IH p _ l1 Hl1) as (l' & Hl' & Hop' & Hz').
  { intros Hn. by rewrite Hop1, decide_True. }
  { intros Hn. by rewrite Hz1, decide_True. }
  exists l'. split; [done|]. cbn [fmap list_fmap].
  rewrite !last_filter_cons, Hop', Hz', Hop1, Hz1. done.
Qed.

Section media_overlay_facts.
Variable LatLngBounds : objref → bool.

Local Abbreviation instanceof :=
  (MediaOverlay.instanceof_LatLngBounds LatLngBounds).
Local Abbreviation updateMediaOverlay :=
  (MediaOverlay.updateMediaOverlay LatLngBounds).

Lemma updateMediaOverlay_step h overlay props prevProps w o :
  w !! overlay = Some o →
  (instanceof (Props.field h prevProps "bounds") = true →
   MediaOverlay.bounds o = Props.field h prevProps "bounds") →
  (Props.is_nullish (Props.field h prevProps "opacity") = false →
   MediaOverlay.opacity o = Props.field h prevProps "opacity") →
  (Props.is_nullish (Props.field h prevProps "zIndex") = false →
   MediaOverlay.zIndex o = Props.field h prevProps "zIndex") →
  ∃ o',
    updateMediaOverlay h overlay props prevProps w !! overlay = Some o' ∧
    MediaOverlay.bounds o'
    = (if decide (instanceof (Props.field h props "bounds") = true)
       then Props.field h props "bounds" else MediaOverlay.bounds o) ∧
    MediaOverlay.opacity o'
    = (if decide (Props.is_nullish (Props.field h props "opacity") = false)
       then Props.field h props "opacity" else MediaOverlay.opacity o) ∧
    MediaOverlay.zIndex o'
    = (if decide (Props.is_nullish (Props.field h props "zIndex") = false)
       then Props.field h props "zIndex" else MediaOverlay.zIndex o).
Proof.
  intros Ho Hb Hop Hz. unfold MediaOverlay.updateMediaOverlay.
  set (w1 := if _ && _ then _ else w).
  assert (H1 : ∃ o1, w1 !! overlay = Some o1 ∧
            MediaOverlay.bounds o1
            = (if decide (instanceof (Props.field h props "bounds") = true)
               then Props.field h props "bounds" else MediaOverlay.bounds o) ∧
            MediaOverlay.opacity o1 = MediaOverlay.opacity o ∧
            MediaOverlay.zIndex o1 = MediaOverlay.zIndex o).
  { subst w1.
    destruct (instanceof (Props.field h props "bounds")) eqn:Hn; simpl.
    2:{ by exists o. }
    case_bool_decide as Hd.
    - eexists. unfold MediaOverlay.setBounds.
      rewrite lookup_alter_eq, Ho. simpl. done.
    - exists o. split_and!; [done| |done|done].
      assert (Heq : Props.field h props "bounds"
                    = Props.field h prevProps "bounds").
      { by destruct (decide (Props.field h props "bounds"
                             = Props.field h prevProps "bounds")). }
      rewrite Hb; [done|]. by rewrite <- Heq. }
  destruct H1 as (o1 & Ho1 & Hb1 & Hop1 & Hz1).
  set (w2 := if _ && _ then _ else w1).
  assert (H2 : ∃ o2, w2 !! overlay = Some o2 ∧
            MediaOverlay.bounds o2 = MediaOverlay.bounds o1 ∧
            MediaOverlay.opacity o2
            = (if decide (Props.is_nullish (Props.field h props "opacity")
                          = false)
               then Props.field h props "opacity"
               else MediaOverlay.opacity o) ∧
            MediaOverlay.zIndex o2 = MediaOverlay.zIndex o).
  { subst w2.
    destruct (Props.is_nullish (Props.field h props "opacity")) eqn:Hn; simpl.
    { by exists o1. }
    case_bool_decide as Hd.
    - eexists. unfold MediaOverlay.setOpacity.
      rewrite lookup_alter_eq, Ho1. simpl. done.
    - exists o1. split_and!; [done|done| |done].
      assert (Heq : Props.field h props "opacity"
                    = Props.field h prevProps "opacity").
      { by destruct (decide (Props.field h props "opacity"
                             = Props.field h prevProps "opacity")). }
      rewrite Hop1, Hop; [done|]. by rewrite <- Heq. }
  destruct H2 as (o2 & Ho2 & Hb2 & Hop2 & Hz2).
  destruct (Props.is_nullish (Props.field h props "zIndex")) eqn:Hn; simpl.
  { exists o2. split_and!; [done|congruence|done|done]. }
  case_bool_decide as Hd.
  - unfold MediaOverlay.setZIndex.
    rewrite lookup_alter_eq, Ho2. simpl. eexists. split; [done|]. simpl.
    split_and!; [congruence|done..].
  - exists o2. split_and!; [done|congruence|done|].
    assert (Heq : Props.field h props "zIndex"
                  = Props.field h prevProps "zIndex").
    { by destruct (decide (Props.field h props "zIndex"
                           = Props.field h prevProps "zIndex")). }
    rewrite Hz2, Hz; [done|]. by rewrite <- Heq.
Qed.

(** X23: a media overlay likewise ends with the last opacity and z-index
    given, and with the last bounds that were given as a [LatLngBounds]
    object: bounds given in another form (an array of corners) are never
    applied. *)
Theorem media_overlay_applies_bounds_objects_only
    (h : list (gmap string Pane.val)) (overlay p0 : objref)
    (renders : list objref) (w : gmap objref MediaOverlay.t)
    (o : MediaOverlay.t) :
  w !! overlay = Some o →
  (instanceof (Props.field h p0 "bounds") = true →
   MediaOverlay.bounds o = Props.field h p0 "bounds") →
  (Props.is_nullish (Props.field h p0 "opacity") = false →
   MediaOverlay.opacity o = Props.field h p0 "opacity") →
  (Props.is_nullish (Props.field h p0 "zIndex") = false →
   MediaOverlay.zIndex o = Props.field h p0 "zIndex") →
  ∃ o',
    Updates.run updateMediaOverlay h overlay p0 renders w !! overlay
    = Some o' ∧
    MediaOverlay.bounds o'
    = default (MediaOverlay.bounds o)
        (last (filter (λ v, instanceof v = true)
                 ((λ p, Props.field h p "bounds") <$> renders))) ∧
    MediaOverlay.opacity o'
    = default (MediaOverlay.opacity o)
        (last (filter (λ v, Props.is_nullish v = false)
                 ((λ p, Props.field h p "opacity") <$> renders))) ∧
    MediaOverlay.zIndex o'
    = default (MediaOverlay.zIndex o)
        (last (filter (λ v, Props.is_nullish v = false)
                 ((λ p, Props.field h p "zIndex") <$> renders))).
Proof.
  revert p0 w o.
  induction renders as [|p renders IH]; intros p0 w o Ho Hb Hop Hz.
  { by exists o. }
  destruct (updateMediaOverlay_step h overlay p p0 w o Ho Hb Hop Hz)
    as (o1 & Ho1 & Hb1 & Hop1 & Hz1).
  destruct (IH p _ o1 Ho1) as (o' & Ho' & Hb' & Hop' & Hz').
  { intros Hn. by rewrite Hb1, decide_True. }
  { intros Hn. by rewrite Hop1, decide_True. }
  { intros Hn. by rewrite Hz1, decide_True. }
  exists o'. split; [done|]. cbn [fmap list_fmap].
  rewrite !last_filter_cons, Hb', Hop', Hz', Hb1, Hop1, Hz1. done.
Qed.
End media_overlay_facts.

Lemma grid_layer_keeps_the_last_opacity_and_zIndex_witness :
  ∃ l,
    Updates.run GridLayer.updateGridLayer Sample.tiles 8 0 [1; 2]
      {[8 := GridLayer.Make (Pane.VNumber 1) Pane.VUndefined]} !! 8
    = Some l ∧
    GridLayer.opacity l = Pane.VNumber 2 ∧
    GridLayer.zIndex l = Pane.VNumber 3.
Proof.
  destruct (grid_layer_keeps_the_last_opacity_and_zIndex Sample.tiles 8 0
              [1; 2] {[8 := GridLayer.Make (Pane.VNumber 1) Pane.VUndefined]}
              (GridLayer.Make (Pane.VNumber 1) Pane.VUndefined))
    as (l & Hl & Hop & Hz).
  { apply lookup_singleton_eq. }
  { intros _. reflexivity. }
  { intros Hn. discriminate Hn. }
  exists l. split_and!; [done|..].
  - rewrite Hop. reflexivity.
  - rewrite Hz. reflexivity.
Defined.

Lemma media_overlay_applies_bounds_objects_only_witness :
  ∃ o,
    Updates.run (MediaOverlay.updateMediaOverlay Sample.LatLngBounds)
      Sample.overlays 9 0 [1]
      {[9 := MediaOverlay.Make (Pane.VObject 60) Pane.VUndefined
               Pane.VUndefined]} !! 9
    = Some o ∧
    MediaOverlay.bounds o = Pane.VObject 60.
Proof.
  destruct (media_overlay_applies_bounds_objects_only Sample.LatLngBounds
              Sample.overlays 9 0 [1]
              {[9 := MediaOverlay.Make (Pane.VObject 60) Pane.VUndefined
                       Pane.VUndefined]}
              (MediaOverlay.Make (Pane.VObject 60) Pane.VUndefined
                 Pane.VUndefined))
    as (o & Ho & Hb & _).
  { apply lookup_singleton_eq. }
  { intros _. reflexivity. }
  { intros Hn. discriminate Hn. }
  { intros Hn. discriminate Hn. }
  exists o. split; [done|]. rewrite Hb. reflexivity.
Defined.

(** ** Overlay components *)
Section overlay_facts.
Context {W L : Type}.
Variable createElement :
  list (gmap string Pane.val) → objref → LeafletContextInterface → W →
  LeafletElement objref * W.
Variable useLifecycle :
  list (gmap string Pane.val) → LeafletElement objref →
  LeafletContextInterface → objref → L → L.

Local Abbreviation OverlayComponent :=
  (Generic.createOverlayComponent createElement useLifecycle).

Lemma useDivOverlay_step el hk ambient control p :
  Element.elementRef (Element.st_env (DivOverlay.element hk)) = Some el →
  ∃ hk',
    DivOverlay.useDivOverlay
      (Element.createElementHook (Props.lift_create createElement) None)
      useLifecycle (Some ambient) control p hk = Ok hk' ∧
    DivOverlay.current hk' = Some el ∧
    DivOverlay.store hk' = (Pane.withPane p ambient (DivOverlay.store hk)).2.
Proof.
  intros Hel. destruct hk as [[[eref pref [h w] cs] slot] att ev lc].
  simpl in Hel. subst eref.
  unfold DivOverlay.useDivOverlay, DivOverlay.store, Props.store; simpl.
  destruct (Pane.withPane p ambient h) as [p' h']; simpl.
  eexists. split; [done|]. by split.
Qed.

Lemma useDivOverlay_first h w l ambient control p :
  ∃ hk,
    DivOverlay.useDivOverlay
      (Element.createElementHook (Props.lift_create createElement) None)
      useLifecycle (Some ambient) control p (DivOverlay.init h w l) = Ok hk ∧
    DivOverlay.current hk
    = Some (createElement (Pane.withPane p ambient h).2
              (Pane.withPane p ambient h).1 ambient w).1 ∧
    DivOverlay.store hk = (Pane.withPane p ambient h).2.
Proof.
  unfold DivOverlay.useDivOverlay, DivOverlay.store, Props.store,
    DivOverlay.init; simpl.
  destruct (Pane.withPane p ambient h) as [p' h']; simpl.
  unfold Element.useImmutableLeafletElement, Element.create_once,
    Props.lift_create; simpl.
  destruct (createElement h' p' ambient w) as [el w']; simpl.
  eexists. split; [done|]. by split.
Qed.

Lemma updateOverlay_commit (inst : objref) prev isOpen children
    (cs : list (@Component.overlay_call objref)) :
  React.useEffect
    (Some (React.Effect (inst, prev.1, prev.2) None))
    (inst, isOpen, children) (Component.updateOverlay inst isOpen) cs
  = (Some (React.Effect (inst, isOpen, children) None),
     cs ++ overlay_updates inst prev [(isOpen, children)]).
Proof.
  destruct prev as [o c].
  unfold React.useEffect, React.commit_create, React.commit_destroy,
    React.deps_changed. cbn [React.deps React.run_destroy fst snd
    overlay_updates].
  rewrite app_nil_r.
  destruct (decide ((o, c) = (isOpen, children))) as [[= -> ->]|Hne].
  - rewrite bool_decide_eq_false_2 by (intros Hx; by apply Hx).
    rewrite (bool_decide_eq_true_2 ((isOpen, children) = (isOpen, children)))
      by done.
    rewrite andb_false_r. by rewrite app_nil_r.
  - rewrite bool_decide_eq_true_2 by congruence.
    rewrite (bool_decide_eq_false_2 ((isOpen, children) = (o, c)))
      by congruence.
    cbn [Component.updateOverlay]. rewrite andb_true_r.
    by destruct isOpen; rewrite ?app_nil_r.
Qed.

Lemma OverlayComponent_step h0 el prev st isOpen node ambient control p :
  overlay_up h0 el prev st →
  p < length h0 →
  ∃ st' out,
    OverlayComponent (Some ambient) control isOpen node p st = Ok (st', out) ∧
    overlay_up h0 el (isOpen, Props.field h0 p "children") st' ∧
    Component.calls st'
    = Component.calls st
      ++ overlay_updates (instance el) prev
           [(isOpen, Props.field h0 p "children")].
Proof.
  intros [Hel Hpre Hslot] Hp.
  assert (Hp' : p < length (DivOverlay.store (Component.hook st))).
  { eapply Nat.lt_le_trans; [done|]. by apply prefix_length. }
  destruct (withPane_store p ambient _ Hp') as (Hpre' & _ & _ & _).
  destruct (useDivOverlay_step el (Component.hook st) ambient control p Hel)
    as (hk' & Hok & Hcur & Hstore).
  unfold Generic.createOverlayComponent, Component.OverlayComponent.
  rewrite Hok, Hcur, Hslot, (field_prefix h0) by done.
  rewrite updateOverlay_commit.
  do 2 eexists. split; [done|]. split; [split|done].
  - by apply Hcur.
  - cbn [Component.hook]. rewrite Hstore. by etrans.
  - done.
Qed.

Lemma OverlayComponent_first h0 w l node ambient control p :
  p < length h0 →
  ∃ st out el,
    OverlayComponent (Some ambient) control false node p
      (Component.OverlayState (DivOverlay.init h0 w l) [] None)
    = Ok (st, out) ∧
    overlay_up h0 el (false, Props.field h0 p "children") st ∧
    Component.calls st = [].
Proof.
  intros Hp.
  destruct (withPane_store p ambient _ Hp) as (Hpre' & _ & _ & _).
  destruct (useDivOverlay_first h0 w l ambient control p)
    as (hk & Hok & Hcur & Hstore).
  unfold Generic.createOverlayComponent, Component.OverlayComponent.
  cbn [Component.hook]. rewrite Hok, Hcur.
  cbn [Component.updateOverlay_slot Component.calls].
  unfold React.useEffect, React.commit_create, React.commit_destroy; simpl.
  do 3 eexists. split; [done|]. split; [split|done].
  - by apply Hcur.
  - cbn [Component.hook]. by rewrite Hstore.
  - reflexivity.
Qed.

Lemma rerender_overlay_up h0 el prev st inputs :
  overlay_up h0 el prev st →
  Forall (λ i, i.2 < length h0) inputs →
  ∃ st',
    Generic.rerender_overlay createElement useLifecycle inputs st = Ok st' ∧
    DivOverlay.current (Component.hook st') = Some el ∧
    Component.calls st'
    = Component.calls st
      ++ overlay_updates (instance el) prev
           ((λ i, (i.1.1.1.1, Props.field h0 i.2 "children")) <$> inputs).
Proof.
  intros Hup Hin. revert prev st Hup.
  induction Hin as [|[[[[o nd] c] k] p] inputs Hp _ IH]; intros prev st Hup.
  { exists st. split_and!; [done|apply (overlay_element _ _ _ _ Hup)|].
    simpl. by rewrite app_nil_r. }
  destruct (OverlayComponent_step h0 el prev st o nd c k p Hup Hp)
    as (st' & out & Hok & Hup' & Hcalls).
  destruct (IH _ _ Hup') as (st'' & Hok' & Hcur & Hcalls').
  exists st''. split_and!; [|done|].
  - cbn [Generic.rerender_overlay fst snd]. by rewrite Hok.
  - rewrite Hcalls', Hcalls, <- app_assoc. f_equal.
    cbn [fmap list_fmap fst snd overlay_updates]. by rewrite app_nil_r.
Qed.

(** X24: an overlay component mounts closed and calls [update] on its
    overlay exactly on the renders that are open and whose [isOpen] or
    children are not those of the render before: once when it opens, once
    for each change of the children while it is open, never while it is
    closed. *)
Theorem overlay_is_updated_only_while_open
    (h0 : list (gmap string Pane.val)) (w : W) (l : L)
    (node : option objref) (ambient : LeafletContextInterface)
    (control : option objref) (p0 : objref)
    (rest : list (bool * option objref * LeafletContextInterface
                  * option objref * objref)) :
  p0 < length h0 →
  Forall (λ i, i.2 < length h0) rest →
  ∃ st el,
    Generic.rerender_overlay createElement useLifecycle
      ((false, node, ambient, control, p0) :: rest)
      (Component.OverlayState (DivOverlay.init h0 w l) [] None) = Ok st ∧
    DivOverlay.current (Component.hook st) = Some el ∧
    Component.calls st
    = overlay_updates (instance el) (false, Props.field h0 p0 "children")
        ((λ i, (i.1.1.1.1, Props.field h0 i.2 "children")) <$> rest) ∧
    (Forall (λ i, i.1.1.1.1 = false) rest → Component.calls st = []).
Proof.
  intros Hp0 Hrest.
  destruct (OverlayComponent_first h0 w l node ambient control p0 Hp0)
    as (st1 & out & el & Hok1 & Hup1 & Hcalls1).
  destruct (rerender_overlay_up h0 el _ st1 rest Hup1 Hrest)
    as (st & Hok & Hcur & Hcalls).
  rewrite Hcalls1 in Hcalls. simpl in Hcalls.
  exists st, el. split_and!; [|done|done|].
  - cbn [Generic.rerender_overlay fst snd]. by rewrite Hok1.
  - intros Hclosed. rewrite Hcalls. clear -Hclosed.
    generalize (false, Props.field h0 p0 "children") as prev.
    induction Hclosed as [|i rest Hi _ IH]; intros prev; [done|].
    cbn [fmap list_fmap overlay_updates fst snd]. rewrite Hi. simpl.
    apply IH.
Qed.
End overlay_facts.

Lemma overlay_is_updated_only_while_open_witness :
  ∃ st,
    Generic.rerender_overlay Sample.createLayer
      (λ _ _ _ _ (l : unit), l)
      [(false, None, Sample.root, None, 0);
       (true, Some 80, Sample.root, None, 0);
       (true, Some 80, Sample.root, None, 2);
       (false, Some 80, Sample.root, None, 2)]
      (Component.OverlayState (DivOverlay.init Sample.circles 0 ()) [] None)
    = Ok st ∧
    length (Component.calls st) = 2.
Proof.
  destruct (overlay_is_updated_only_while_open Sample.createLayer
              (λ _ _ _ _ (l : unit), l) Sample.circles 0 () None Sample.root
              None 0
              [(true, Some 80, Sample.root, None, 0);
               (true, Some 80, Sample.root, None, 2);
               (false, Some 80, Sample.root, None, 2)])
    as (st & el & Hst & _ & Hcalls & _).
  { simpl. lia. }
  { repeat constructor. }
  exists st. split; [done|]. rewrite Hcalls. reflexivity.
Defined.
